(** * WordEngine: a shallow embedding of the search engine of Zyzzyva

    The development follows [src/libzyzzyva/WordEngine.cpp].  The engine
    keeps one [LexiconData] per loaded lexicon name; each holds a word graph,
    an optional SQLite connection, a word-information cache, the anagram
    counts gathered during text import and the stem alphagrams.

    Strings are Rocq [string]s; the source's [QString] comparisons are on
    UTF-16 code units, which agree with [String.compare] on ASCII text.
    Integers of the source are [Z]. *)

From Stdlib Require Import Ascii ZArith Lia Sorted.
From stdpp Require Import base gmap strings list pretty.

Open Scope Z_scope.

(* ------------------------------------------------------------------ *)
(** ** Character and string helpers *)

Module Str.

(** [QChar::toUpper] on ASCII. *)
Definition upper_char (c : ascii) : ascii :=
  let n := N_of_ascii c in
  if ((97 <=? n) && (n <=? 122))%N then ascii_of_N (n - 32) else c.

(** [QString::toUpper]. *)
Fixpoint toUpper (s : string) : string :=
  match s with
  | EmptyString => EmptyString
  | String c s' => String (upper_char c) (toUpper s')
  end.

(** [QString::left(n)]: the first [n] characters (all of them when the
    string is shorter). *)
Fixpoint left (n : nat) (s : string) : string :=
  match n, s with
  | O, _ => EmptyString
  | _, EmptyString => EmptyString
  | S n', String c s' => String c (left n' s')
  end.

(** [QString::split(QChar(' '))], empty parts kept. *)
Fixpoint split_go (cur : string) (s : string) : list string :=
  match s with
  | EmptyString => [String.rev cur]
  | String c s' =>
      if Ascii.eqb c " " then String.rev cur :: split_go EmptyString s'
      else split_go (String c cur) s'
  end.
Definition split_sp (s : string) : list string := split_go EmptyString s.

(** ASCII whitespace as [QChar::isSpace] sees it. *)
Definition is_space (c : ascii) : bool :=
  let n := N_of_ascii c in
  ((n =? 32) || ((9 <=? n) && (n <=? 13)))%N.

(** [QString::simplified]: leading and trailing white space removed and
    every inner run of white space replaced by one space. *)
Fixpoint simplified_go (pending : bool) (s : string) : string :=
  match s with
  | EmptyString => EmptyString
  | String c s' =>
      if is_space c then simplified_go true s'
      else if pending then String " " (String c (simplified_go false s'))
      else String c (simplified_go false s')
  end.
Fixpoint simplified_lead (s : string) : string :=
  match s with
  | EmptyString => EmptyString
  | String c s' =>
      if is_space c then simplified_lead s' else String c (simplified_go false s')
  end.
Definition simplified (s : string) : string := simplified_lead s.

(** [QString::section(' ', 0, 0)]: the text before the first space. *)
Fixpoint section0 (s : string) : string :=
  match s with
  | EmptyString => EmptyString
  | String c s' => if Ascii.eqb c " " then EmptyString else String c (section0 s')
  end.

(** Number of occurrences of a character. *)
Fixpoint count (c : ascii) (s : string) : nat :=
  match s with
  | EmptyString => O
  | String d s' => (if Ascii.eqb c d then 1 else 0) + count c s'
  end%nat.

Fixpoint elem (c : ascii) (s : string) : bool :=
  match s with
  | EmptyString => false
  | String d s' => Ascii.eqb c d || elem c s'
  end.

(** Remove the character at position [i]: [s.left(i) + s.right(len-i-1)]. *)
Fixpoint remove_at (i : nat) (s : string) : string :=
  match i, s with
  | _, EmptyString => EmptyString
  | O, String _ s' => s'
  | S i', String c s' => String c (remove_at i' s')
  end.

Definition is_upper_letter (c : ascii) : bool :=
  let n := N_of_ascii c in ((65 <=? n) && (n <=? 90))%N.

Fixpoint all_upper (s : string) : bool :=
  match s with
  | EmptyString => true
  | String c s' => is_upper_letter c && all_upper s'
  end.

End Str.

(** Modelled from the spec: [Auxil::getAlphagram] (not in src), "a word's
    letters sorted into a canonical order"; here ascending character code. *)
Fixpoint alpha_insert (c : ascii) (s : string) : string :=
  match s with
  | EmptyString => String c EmptyString
  | String d s' =>
      if (N_of_ascii c <=? N_of_ascii d)%N then String c s
      else String d (alpha_insert c s')
  end.
Fixpoint getAlphagram (s : string) : string :=
  match s with
  | EmptyString => EmptyString
  | String c s' => alpha_insert c (getAlphagram s')
  end.

(** Modelled from the spec: [Auxil::getNumVowels] (not in src); the vowel
    count "computed directly from the word" (A, E, I, O, U in either case). *)
Definition is_vowel (c : ascii) : bool :=
  match Str.upper_char c with
  | "A"%char | "E"%char | "I"%char | "O"%char | "U"%char => true
  | _ => false
  end.
Fixpoint auxNumVowels (s : string) : Z :=
  match s with
  | EmptyString => 0
  | String c s' => (if is_vowel c then 1 else 0) + auxNumVowels s'
  end.

(** Modelled from the spec: [Auxil::getNumUniqueLetters] (not in src); the
    number of distinct characters of the word. *)
Fixpoint auxNumUniqueLetters (s : string) : Z :=
  match s with
  | EmptyString => 0
  | String c s' => (if Str.elem c s' then 0 else 1) + auxNumUniqueLetters s'
  end.

(* ------------------------------------------------------------------ *)
(** ** Search specifications *)

Inductive ConditionType :=
| UnknownType | PatternMatch | AnagramMatch | SubanagramMatch | ConsistOf
| Prefix | Suffix | IncludeLetters | Length | InWordList | NumVowels
| NumUniqueLetters | PointValue | NumAnagrams | ProbabilityOrder
| LimitByProbabilityOrder | BelongToGroup.

Definition ConditionType_eqb (a b : ConditionType) : bool :=
  match a, b with
  | UnknownType, UnknownType | PatternMatch, PatternMatch
  | AnagramMatch, AnagramMatch | SubanagramMatch, SubanagramMatch
  | ConsistOf, ConsistOf | Prefix, Prefix | Suffix, Suffix
  | IncludeLetters, IncludeLetters | Length, Length | InWordList, InWordList
  | NumVowels, NumVowels | NumUniqueLetters, NumUniqueLetters
  | PointValue, PointValue | NumAnagrams, NumAnagrams
  | ProbabilityOrder, ProbabilityOrder
  | LimitByProbabilityOrder, LimitByProbabilityOrder
  | BelongToGroup, BelongToGroup => true
  | _, _ => false
  end.

Record SearchCondition := {
  ctype : ConditionType;
  stringValue : string;
  minValue : Z;
  maxValue : Z;
  boolValue : bool;
  legacy : bool;
  negated : bool }.

Record SearchSpec := {
  conjunction : bool;
  conditions : list SearchCondition }.

Inductive SearchSet :=
| UnknownSearchSet | SetHookWords | SetFrontHooks | SetBackHooks | SetHighFives
| SetTypeOneSevens | SetTypeOneEights | SetTypeTwoSevens | SetTypeTwoEights
| SetTypeThreeSevens | SetTypeThreeEights | SetEightsFromSevenLetterStems.

Inductive ConditionPhase :=
| UnknownPhase | WordGraphPhase | DatabasePhase | PostConditionPhase.

Definition phase_eqb (a b : ConditionPhase) : bool :=
  match a, b with
  | UnknownPhase, UnknownPhase | WordGraphPhase, WordGraphPhase
  | DatabasePhase, DatabasePhase | PostConditionPhase, PostConditionPhase => true
  | _, _ => false
  end.

(* ------------------------------------------------------------------ *)
(** ** Lexicon state *)

Record WordInfo := {
  wi_word : string;
  probabilityOrder : Z;
  minProbabilityOrder : Z;
  maxProbabilityOrder : Z;
  numVowels : Z;
  numUniqueLetters : Z;
  numAnagrams : Z;
  pointValue : Z;
  frontHooks : string;
  backHooks : string;
  isFrontHook : bool;
  isBackHook : bool;
  lexiconSymbols : string;
  definition : string }.

(** [WordInfo()]: the default, invalid value. *)
Definition emptyInfo : WordInfo :=
  {| wi_word := ""; probabilityOrder := 0; minProbabilityOrder := 0;
     maxProbabilityOrder := 0; numVowels := 0; numUniqueLetters := 0;
     numAnagrams := 0; pointValue := 0; frontHooks := ""; backHooks := "";
     isFrontHook := false; isBackHook := false; lexiconSymbols := "";
     definition := "" |}.

(** Modelled from the spec: [WordInfo::isValid] (not in src), the validity
    flag distinguishing "row found" (a word was filled in) from "row absent". *)
Definition isValid (i : WordInfo) : bool := negb (String.eqb (wi_word i) "").

(** One row of the [words] table (the columns the engine reads). *)
Record Row := {
  r_length : Z;
  r_probability_order : Z;
  r_min_probability_order : Z;
  r_max_probability_order : Z;
  r_num_vowels : Z;
  r_num_unique_letters : Z;
  r_num_anagrams : Z;
  r_point_value : Z;
  r_front_hooks : string;
  r_back_hooks : string;
  r_is_front_hook : bool;
  r_is_back_hook : bool;
  r_lexicon_symbols : string;
  r_definition : string }.

#[global] Instance WordInfo_eq_dec : EqDecision WordInfo.
Proof. solve_decision. Defined.

#[global] Instance Row_eq_dec : EqDecision Row.
Proof. solve_decision. Defined.

(** A database connection: whether it is open, and the [words] table in
    scan order (word, row). *)
Record Database := {
  db_open : bool;
  db_table : list (string * Row) }.

(** The [WordInfo] built from a result row whose word column is [w]. *)
Definition mkInfo (w : string) (r : Row) : WordInfo :=
  {| wi_word := w;
     probabilityOrder := r_probability_order r;
     minProbabilityOrder := r_min_probability_order r;
     maxProbabilityOrder := r_max_probability_order r;
     numVowels := r_num_vowels r;
     numUniqueLetters := r_num_unique_letters r;
     numAnagrams := r_num_anagrams r;
     pointValue := r_point_value r;
     frontHooks := r_front_hooks r;
     backHooks := r_back_hooks r;
     isFrontHook := r_is_front_hook r;
     isBackHook := r_is_back_hook r;
     lexiconSymbols := r_lexicon_symbols r;
     definition := r_definition r |}.

(** Modelled from the spec: the word graph (WordGraph, not in src) as the set
    of its words: [containsWord] is membership and [addWord] is insertion. *)
Record LexiconData := {
  graph : gset string;
  db : option Database;
  wordCache : gmap string WordInfo;
  numAnagramsMap : gmap string Z;
  stems : gmap nat (list string);
  stemAlphagrams : gmap nat (gset string) }.

Definition set_cache (ld : LexiconData) (c : gmap string WordInfo) : LexiconData :=
  {| graph := graph ld; db := db ld; wordCache := c;
     numAnagramsMap := numAnagramsMap ld; stems := stems ld;
     stemAlphagrams := stemAlphagrams ld |}.

Definition newLexiconData : LexiconData :=
  {| graph := ∅; db := None; wordCache := ∅; numAnagramsMap := ∅;
     stems := ∅; stemAlphagrams := ∅ |}.

(** [WordEngine::lexiconData]. *)
Abbreviation Engine := (gmap string LexiconData).

(** The collaborators of [WordEngine] that are not in src. *)
Record Ext := {
  (** [Auxil::stringToSearchSet] *)
  stringToSearchSet : string -> SearchSet;
  (** [LetterBag::getNumCombinations] *)
  getNumCombinations : string -> Z;
  (** [LetterBag::getLetterValue] *)
  getLetterValue : ascii -> Z;
  (** [WordGraph::search] *)
  graphSearch : gset string -> SearchSpec -> list string;
  (** [SearchSpec::optimize] *)
  optimize : SearchSpec -> SearchSpec }.

(* ------------------------------------------------------------------ *)
(** ** Word information and the cache *)

(** [SELECT ... FROM words WHERE word=?]: the first matching row. *)
Fixpoint select_word (t : list (string * Row)) (w : string) : option Row :=
  match t with
  | [] => None
  | (k, r) :: t' => if String.eqb k w then Some r else select_word t' w
  end.

(** [WordEngine::clearCache] *)
Definition clearCache (lex : string) (st : Engine) : Engine :=
  match st !! lex with
  | None => st
  | Some ld => <[lex := set_cache ld ∅]> st
  end.

(** [WordEngine::getWordInfo]: the answer and the engine after the call. *)
Definition getWordInfo (lex word : string) (st : Engine) : WordInfo * Engine :=
  if String.eqb word "" then (emptyInfo, st) else
  match st !! lex with
  | None => (emptyInfo, st)
  | Some ld =>
      match wordCache ld !! word with
      | Some i => (i, st)
      | None =>
          match db ld with
          | Some d =>
              if db_open d then
                match select_word (db_table d) word with
                | Some r =>
                    let i := mkInfo word r in
                    (i, <[lex := set_cache ld (<[word := i]> (wordCache ld))]> st)
                | None => (emptyInfo, st)
                end
              else (emptyInfo, st)
          | None => (emptyInfo, st)
          end
      end
  end.

(** The rows returned by [SELECT ... WHERE word IN ('w1', ...)], in scan
    order (the comparison is SQLite's default, case-sensitive). *)
Definition select_in (t : list (string * Row)) (ws : list string) : list (string * Row) :=
  filter (fun kr => existsb (String.eqb kr.1) ws) t.

(** [WordEngine::addToCache]: each returned row is stored under its own
    word column. *)
Definition addToCache (lex : string) (words : list string) (st : Engine) : Engine :=
  match words with
  | [] => st
  | _ =>
    match st !! lex with
    | None => st
    | Some ld =>
        match db ld with
        | Some d =>
            if db_open d then
              let c := fold_left (fun c kr => <[kr.1 := mkInfo kr.1 kr.2]> c)
                                 (select_in (db_table d) words) (wordCache ld) in
              <[lex := set_cache ld c]> st
            else st
        | None => st
        end
    end
  end.

(** [WordEngine::isAcceptable] *)
Definition isAcceptable (st : Engine) (lex word : string) : bool :=
  match st !! lex with
  | None => false
  | Some ld => bool_decide (word ∈ graph ld)
  end.

(** The attribute getters. *)
Definition getPointValue (lex word : string) (st : Engine) : Z * Engine :=
  match st !! lex with
  | None => (0, st)
  | Some _ => let '(i, st') := getWordInfo lex word st in
              (if isValid i then pointValue i else 0, st')
  end.

Definition getProbabilityOrder (lex word : string) (st : Engine) : Z * Engine :=
  match st !! lex with
  | None => (0, st)
  | Some _ => let '(i, st') := getWordInfo lex word st in
              (if isValid i then probabilityOrder i else 0, st')
  end.

Definition getMinProbabilityOrder (lex word : string) (st : Engine) : Z * Engine :=
  match st !! lex with
  | None => (0, st)
  | Some _ => let '(i, st') := getWordInfo lex word st in
              (if isValid i then minProbabilityOrder i else 0, st')
  end.

Definition getMaxProbabilityOrder (lex word : string) (st : Engine) : Z * Engine :=
  match st !! lex with
  | None => (0, st)
  | Some _ => let '(i, st') := getWordInfo lex word st in
              (if isValid i then maxProbabilityOrder i else 0, st')
  end.

(** [getNumAnagrams] falls back on the anagram counts of text import. *)
Definition getNumAnagrams (lex word : string) (st : Engine) : Z * Engine :=
  match st !! lex with
  | None => (0, st)
  | Some ld => let '(i, st') := getWordInfo lex word st in
               (if isValid i then numAnagrams i
                else default 0 (numAnagramsMap ld !! getAlphagram word), st')
  end.

(** [getNumVowels] and [getNumUniqueLetters] do not test [lexiconData]:
    "we want to calculate if even not cached". *)
Definition getNumVowels (lex word : string) (st : Engine) : Z * Engine :=
  let '(i, st') := getWordInfo lex word st in
  (if isValid i then numVowels i else auxNumVowels word, st').

Definition getNumUniqueLetters (lex word : string) (st : Engine) : Z * Engine :=
  let '(i, st') := getWordInfo lex word st in
  (if isValid i then numUniqueLetters i else auxNumUniqueLetters word, st').

(* ------------------------------------------------------------------ *)
(** ** The SQL fragments of [databaseSearch] *)

Inductive Column :=
| ColLength | ColNumVowels | ColNumUniqueLetters | ColPointValue
| ColNumAnagrams | ColProbabilityOrder | ColMinProbabilityOrder
| ColMaxProbabilityOrder | ColIsFrontHook | ColIsBackHook.

Inductive CmpOp := OpEq | OpGe | OpLe.

(** The predicates the generated [WHERE] clause is made of. *)
Inductive SqlExpr :=
| SLike (neg : bool) (pat : string)          (* word [NOT] LIKE 'pat' *)
| SIn (neg : bool) (ws : list string)         (* word [NOT] IN ('w', ...) *)
| SCmp (col : Column) (op : CmpOp) (n : Z)    (* col=n, col>=n, col<=n *)
| SAnd (e1 e2 : SqlExpr)
| SOr (e1 e2 : SqlExpr).

Definition column_value (col : Column) (r : Row) : Z :=
  match col with
  | ColLength => r_length r
  | ColNumVowels => r_num_vowels r
  | ColNumUniqueLetters => r_num_unique_letters r
  | ColPointValue => r_point_value r
  | ColNumAnagrams => r_num_anagrams r
  | ColProbabilityOrder => r_probability_order r
  | ColMinProbabilityOrder => r_min_probability_order r
  | ColMaxProbabilityOrder => r_max_probability_order r
  | ColIsFrontHook => if r_is_front_hook r then 1 else 0
  | ColIsBackHook => if r_is_back_hook r then 1 else 0
  end.

(** SQLite's [LIKE]: [%] matches any run, [_] any one character, and
    ASCII letters compare without regard to case. *)
Definition star (m : string -> bool) : string -> bool :=
  fix go (s : string) : bool :=
    m s || match s with EmptyString => false | String _ s' => go s' end.

Fixpoint like (p s : string) : bool :=
  match p with
  | EmptyString => match s with EmptyString => true | _ => false end
  | String c p' =>
      if Ascii.eqb c "%" then star (like p') s
      else match s with
           | EmptyString => false
           | String d s' =>
               (Ascii.eqb c "_" || Ascii.eqb (Str.upper_char c) (Str.upper_char d))
               && like p' s'
           end
  end.

Fixpoint sql_eval (e : SqlExpr) (w : string) (r : Row) : bool :=
  match e with
  | SLike neg p => xorb neg (like p w)
  | SIn neg ws => xorb neg (existsb (String.eqb w) ws)
  | SCmp col OpEq n => column_value col r =? n
  | SCmp col OpGe n => n <=? column_value col r
  | SCmp col OpLe n => column_value col r <=? n
  | SAnd e1 e2 => sql_eval e1 w r && sql_eval e2 w r
  | SOr e1 e2 => sql_eval e1 w r || sql_eval e2 w r
  end.

(** [SELECT word FROM words WHERE p1 AND p2 ...] on a database; a closed
    connection yields no rows. *)
Definition sql_select (d : Database) (ps : list SqlExpr) : list string :=
  if db_open d then map fst (filter (fun kr => forallb (fun e => sql_eval e kr.1 kr.2) ps)
                                    (db_table d))
  else [].

(** The [QMap<QChar, int>] of letter multiplicities of a string, in key
    order. *)
Fixpoint letters_insert (c : ascii) (m : list (ascii * nat)) : list (ascii * nat) :=
  match m with
  | [] => [(c, 1%nat)]
  | (d, k) :: m' =>
      if Ascii.eqb c d then (d, S k) :: m'
      else if (N_of_ascii c <? N_of_ascii d)%N then (c, 1%nat) :: m
      else (d, k) :: letters_insert c m'
  end.
Fixpoint letters_of (s : string) : list (ascii * nat) :=
  match s with
  | EmptyString => []
  | String c s' => letters_insert c (letters_of s')
  end.

(** ["%" + c + "%" + c + "%" ...] with [k] copies of [c]. *)
Fixpoint rep_pat (c : ascii) (k : nat) : string :=
  match k with
  | O => EmptyString
  | S k' => String c (String "%" (rep_pat c k'))
  end.

(** The IncludeLetters fragment: one [LIKE] per distinct letter. *)
Definition includeLettersFragment (neg : bool) (s : string) : list SqlExpr :=
  map (fun ck => SLike neg (String "%" (rep_pat ck.1 (if neg then 1%nat else ck.2))))
      (letters_of s).

(** [replace("?", "_").replace("*", "%")] *)
Fixpoint like_of_pattern (s : string) : string :=
  match s with
  | EmptyString => EmptyString
  | String c s' =>
      String (if Ascii.eqb c "?" then "_"%char else if Ascii.eqb c "*" then "%"%char else c)
             (like_of_pattern s')
  end.

Definition range_fragment (col : Column) (c : SearchCondition) : list SqlExpr :=
  if minValue c =? maxValue c then [SCmp col OpEq (minValue c)]
  else [SCmp col OpGe (minValue c); SCmp col OpLe (maxValue c)].

Fixpoint last_char (s : string) : option ascii :=
  match s with
  | EmptyString => None
  | String c EmptyString => Some c
  | String _ s' => last_char s'
  end.

(** [QMap<QString, QString> upperToLower]: later entries overwrite earlier
    ones. *)
Definition upperToLower (wl : list string) : gmap string string :=
  fold_left (fun m w => <[Str.toUpper w := w]> m) wl ∅.

Section Engine.
Context (X : Ext).

(** [WordEngine::getConditionPhase] *)
Definition getConditionPhase (c : SearchCondition) : ConditionPhase :=
  match ctype c with
  | AnagramMatch | SubanagramMatch | ConsistOf => WordGraphPhase
  | Length | InWordList | NumVowels | IncludeLetters | ProbabilityOrder
  | NumUniqueLetters | PointValue | NumAnagrams => DatabasePhase
  | Prefix | Suffix | LimitByProbabilityOrder => PostConditionPhase
  | PatternMatch =>
      let s := stringValue c in
      if String.prefix "*" s && bool_decide (last_char s = Some "*"%char)
         && negb (Str.elem "[" s)
      then DatabasePhase else WordGraphPhase
  | BelongToGroup =>
      match stringToSearchSet X (stringValue c) with
      | SetHookWords | SetFrontHooks | SetBackHooks => DatabasePhase
      | _ => PostConditionPhase
      end
  | UnknownType => UnknownPhase
  end.

Definition is_db_condition (c : SearchCondition) : bool :=
  phase_eqb (getConditionPhase c) DatabasePhase.

(** The text [databaseSearch] appends for one database-phase condition. *)
Definition conditionFragment (c : SearchCondition) : list SqlExpr :=
  match ctype c with
  | PatternMatch => [SLike false (like_of_pattern (stringValue c))]
  | ProbabilityOrder =>
      if boolValue c then
        [SCmp ColMaxProbabilityOrder OpGe (minValue c);
         SCmp ColMinProbabilityOrder OpLe (maxValue c)]
      else range_fragment ColProbabilityOrder c
  | Length => range_fragment ColLength c
  | NumVowels => range_fragment ColNumVowels c
  | NumUniqueLetters => range_fragment ColNumUniqueLetters c
  | PointValue => range_fragment ColPointValue c
  | NumAnagrams => range_fragment ColNumAnagrams c
  | IncludeLetters => includeLettersFragment (negated c) (stringValue c)
  | BelongToGroup =>
      let target := if negated c then 0 else 1 in
      match stringToSearchSet X (stringValue c) with
      | SetFrontHooks => [SCmp ColIsFrontHook OpEq target]
      | SetBackHooks => [SCmp ColIsBackHook OpEq target]
      | SetHookWords =>
          if negated c then [SAnd (SCmp ColIsFrontHook OpEq 0) (SCmp ColIsBackHook OpEq 0)]
          else [SOr (SCmp ColIsFrontHook OpEq 1) (SCmp ColIsBackHook OpEq 1)]
      | _ => []
      end
  | InWordList => [SIn (negated c) (Str.split_sp (stringValue c))]
  | _ => []
  end.

(** The query text is ["SELECT word FROM words WHERE"] followed by the
    fragments joined by [" AND"]: it parses only when there is at least one
    fragment and none is empty. *)
Definition where_wellformed (frags : list (list SqlExpr)) : bool :=
  negb (bool_decide (frags = [])) && forallb (fun f => negb (bool_decide (f = []))) frags.

(** [WordEngine::databaseSearch] *)
Definition databaseSearch (st : Engine) (lex : string) (spec : SearchSpec)
    (wordList : option (list string)) : list string :=
  match st !! lex with
  | None => []
  | Some ld =>
    match db ld with
    | None => []
    | Some d =>
        let frags := map conditionFragment (filter is_db_condition (conditions spec)) in
        let restrict := match wordList with
                        | Some wl => [SIn false (map Str.toUpper wl)]
                        | None => [] end in
        let u2l := match wordList with Some wl => upperToLower wl | None => ∅ end in
        if where_wellformed frags then
          map (fun w => default w (u2l !! w)) (sql_select d (concat frags ++ restrict))
        else []
    end
  end.

(* ------------------------------------------------------------------ *)
(** ** Set membership: [WordEngine::isSetMember] *)

(** The greedy pass of the Type-Two case over [typeTwoChars]: [w] is the
    part of the alphagram from [wc] on. *)
Fixpoint typeTwo_go (tcs w : string) : bool :=
  match tcs, w with
  | String tc tcs', String wc w' =>
      if Ascii.eqb tc wc then
        match w' with EmptyString => true | _ => typeTwo_go tcs' w' end
      else typeTwo_go tcs' w
  | _, _ => false
  end.

Definition typeTwoChars : string := "AAADEEEEGIIILNNOORRSSTTU".

(** The High-Fives loop from position [i] on. *)
Fixpoint highFives_go (i : nat) (w : string) (ok : bool) : bool :=
  match w with
  | EmptyString => ok
  | String c w' =>
      let value := getLetterValue X c in
      if 5 <? value then false
      else highFives_go (S i) w'
             (ok || (((value =? 4) || (value =? 5)) && ((i =? 0)%nat || (i =? 4)%nat)))
  end.

(** The Type-One-Eights comparison of the word's alphagram with one stem
    alphagram: the number of letters of the word skipped before the stem
    alphagram is used up (the loop stops once more than two are missing). *)
Fixpoint eights_missing (agram sa : string) (missing : nat) : nat :=
  match agram, sa with
  | String a ag', String b sa' =>
      let '(sa2, m2) := if Ascii.eqb a b then (sa', missing) else (sa, S missing) in
      if (2 <? m2)%nat then m2 else eights_missing ag' sa2 m2
  | _, _ => missing
  end.

Definition typeOneSeven (ld : LexiconData) (word : string) : bool :=
  if negb (String.length word =? 7)%nat then false else
  match stemAlphagrams ld !! (String.length word - 1)%nat with
  | None => false
  | Some alphaSet =>
      let agram := getAlphagram word in
      existsb (fun i => bool_decide (Str.remove_at i agram ∈ alphaSet))
              (seq 0 (String.length agram))
  end.

Definition typeOneEight (ld : LexiconData) (word : string) : bool :=
  if negb (String.length word =? 8)%nat then false else
  match stemAlphagrams ld !! (String.length word - 2)%nat with
  | None => false
  | Some alphaSet =>
      let agram := getAlphagram word in
      existsb (fun sa => (eights_missing agram sa 0 <=? 2)%nat) (elements alphaSet)
  end.

Definition eightFromSevenStem (ld : LexiconData) (word : string) : bool :=
  if negb (String.length word =? 8)%nat then false else
  match stemAlphagrams ld !! (String.length word - 1)%nat with
  | None => false
  | Some alphaSet =>
      let agram := getAlphagram word in
      existsb (fun i => bool_decide (Str.remove_at i agram ∈ alphaSet))
              (seq 0 (String.length agram))
  end.

(** [QString::right(n)] *)
Definition str_right (n : nat) (s : string) : string :=
  String.substring (String.length s - n) n s.

(** The source calls itself for the earlier tiers (Type-Three asks for
    Type-One and Type-Two, Type-Two asks for Type-One); [depth] counts
    those nested calls, and [isSetMember] starts with the two it needs. *)
Fixpoint isSetMember_at (depth : nat) (st : Engine) (lex word : string)
    (ss : SearchSet) : bool :=
  match st !! lex with
  | None => false
  | Some ld =>
    let len := String.length word in
    match ss with
    | SetHookWords =>
        isAcceptable st lex (Str.left (len - 1) word)
        || isAcceptable st lex (str_right (len - 1) word)
    | SetFrontHooks => isAcceptable st lex (str_right (len - 1) word)
    | SetBackHooks => isAcceptable st lex (Str.left (len - 1) word)
    | SetHighFives => if negb (len =? 5)%nat then false else highFives_go 0 word false
    | SetTypeOneSevens => typeOneSeven ld word
    | SetTypeOneEights => typeOneEight ld word
    | SetTypeTwoSevens | SetTypeTwoEights =>
        if (match ss with SetTypeTwoSevens => negb (len =? 7)%nat
                        | _ => negb (len =? 8)%nat end) then false else
        match depth with
        | O => false
        | S d =>
            typeTwo_go typeTwoChars (getAlphagram word)
            && negb (isSetMember_at d st lex word
                       (match ss with SetTypeTwoSevens => SetTypeOneSevens
                                 | _ => SetTypeOneEights end))
        end
    | SetTypeThreeSevens =>
        if negb (len =? 7)%nat then false else
        match depth with
        | O => false
        | S d =>
            (getNumCombinations X "HUNTERS" <=? getNumCombinations X word)
            && negb (isSetMember_at d st lex word SetTypeOneSevens)
            && negb (isSetMember_at d st lex word SetTypeTwoSevens)
        end
    | SetTypeThreeEights =>
        if negb (len =? 8)%nat then false else
        match depth with
        | O => false
        | S d =>
            (getNumCombinations X "NOTIFIED" <=? getNumCombinations X word)
            && negb (isSetMember_at d st lex word SetTypeOneEights)
            && negb (isSetMember_at d st lex word SetTypeTwoEights)
        end
    | SetEightsFromSevenLetterStems => eightFromSevenStem ld word
    | UnknownSearchSet => false
    end
  end.

Definition isSetMember (st : Engine) (lex word : string) (ss : SearchSet) : bool :=
  isSetMember_at 2 st lex word ss.

(* ------------------------------------------------------------------ *)
(** ** Post conditions *)

(** [WordEngine::matchesPostConditions] *)
Definition matchesPostCondition (st : Engine) (lex wordUpper : string)
    (c : SearchCondition) : bool :=
  if negb (phase_eqb (getConditionPhase c) PostConditionPhase) then true else
  match ctype c with
  | Prefix => negb (xorb (negb (isAcceptable st lex (stringValue c +:+ wordUpper))) (negated c))
  | Suffix => negb (xorb (negb (isAcceptable st lex (wordUpper +:+ stringValue c))) (negated c))
  | BelongToGroup =>
      match stringToSearchSet X (stringValue c) with
      | UnknownSearchSet => true
      | ss => negb (xorb (negb (isSetMember st lex wordUpper ss)) (negated c))
      end
  | _ => true
  end.

Definition matchesPostConditions (st : Engine) (lex word : string)
    (conds : list SearchCondition) : bool :=
  match st !! lex with
  | None => false
  | Some _ => forallb (matchesPostCondition st lex (Str.toUpper word)) conds
  end.

(** The merged Limit-by-Probability-Order bounds: whether there is such a
    condition, the legacy flag, strict min/max and lax min/max. *)
Record ProbBounds := {
  pb_cond : bool; pb_legacy : bool;
  pb_min : Z; pb_max : Z; pb_minLax : Z; pb_maxLax : Z }.

Definition prob_step (b : ProbBounds) (c : SearchCondition) : ProbBounds :=
  if ConditionType_eqb (ctype c) LimitByProbabilityOrder then
    let lax := boolValue c in
    {| pb_cond := true;
       pb_legacy := pb_legacy b || legacy c;
       pb_min := if negb lax && (pb_min b <? minValue c) then minValue c else pb_min b;
       pb_max := if negb lax && (maxValue c <? pb_max b) then maxValue c else pb_max b;
       pb_minLax := if lax && (pb_minLax b <? minValue c) then minValue c else pb_minLax b;
       pb_maxLax := if lax && (maxValue c <? pb_maxLax b) then maxValue c else pb_maxLax b |}
  else b.

Definition prob_bounds (conds : list SearchCondition) : ProbBounds :=
  fold_left prob_step conds
    {| pb_cond := false; pb_legacy := false; pb_min := 0; pb_max := 999999;
       pb_minLax := 0; pb_maxLax := 999999 |}.

(** [radix.sprintf("%09.0f", v)]: zero padded to nine characters, the sign
    first for a negative value. *)
Definition zero_pad (w : nat) (s : string) : string :=
  String.append (String.string_of_list_ascii (repeat "0"%char (w - String.length s))) s.
Definition pad9 (v : Z) : string :=
  if v <? 0 then String "-" (zero_pad 8 (pretty (Z.to_N (- v))))
  else zero_pad 9 (pretty (Z.to_N v)).

(** The sort key of a word. *)
Definition radix (legacyProb : bool) (word : string) : string :=
  let wordUpper := Str.toUpper word in
  pad9 (1000000000 - 1 - getNumCombinations X wordUpper)
  +:+ (if legacyProb then "" else getAlphagram wordUpper) +:+ wordUpper.

(** [QMap<QString, QString>::insert]: a list sorted by key; an existing key
    keeps its place and takes the new value. *)
Fixpoint qmap_insert (k v : string) (m : list (string * string)) : list (string * string) :=
  match m with
  | [] => [(k, v)]
  | (k', v') :: m' =>
      match String.compare k k' with
      | Eq => (k', v) :: m'
      | Lt => (k, v) :: m
      | Gt => (k', v') :: qmap_insert k v m'
      end
  end.

Definition probMap (legacyProb : bool) (words : list string) : list (string * string) :=
  fold_left (fun m w => qmap_insert (radix legacyProb w) w m) words [].

Definition key_at (keys : list string) (i : Z) : string := nth (Z.to_nat i) keys "".

(** [while ((min > 0) && (min > probLimitRangeMin)) ...] *)
Fixpoint widen_down (fuel : nat) (keys : list string) (pre : string) (m bound : Z) : Z :=
  match fuel with
  | O => m
  | S f =>
      if (0 <? m) && (bound <? m) then
        if String.eqb pre (Str.left 9 (key_at keys (m - 1)))
        then widen_down f keys pre (m - 1) bound else m
      else m
  end.

(** [while ((max < keys.size() - 1) && (max < probLimitRangeMax)) ...] *)
Fixpoint widen_up (fuel : nat) (keys : list string) (pre : string) (m bound : Z) : Z :=
  match fuel with
  | O => m
  | S f =>
      if (m <? Z.of_nat (length keys) - 1) && (m <? bound) then
        if String.eqb pre (Str.left 9 (key_at keys (m + 1)))
        then widen_up f keys pre (m + 1) bound else m
      else m
  end.

(** [QList::mid(pos, length)] *)
Definition qmid {A} (l : list A) (pos len : Z) : list A :=
  let n := Z.of_nat (length l) in
  let len' := if (len <? 0) || (n <? pos + len) then n - pos else len in
  firstn (Z.to_nat len') (skipn (Z.to_nat pos) l).

(** The clamped, 0-based window: strict min, strict max, working min and
    working max; [None] when no condition is present or the list is
    cleared because it is shorter than a lower bound. *)
Definition prob_window (b : ProbBounds) (n : Z) : option (Z * Z * Z * Z) :=
  if negb (pb_cond b) then None
  else if (n <? pb_min b) || (n <? pb_minLax b) then None
  else
    let smin := Z.max 0 (pb_min b - 1) in
    let lmin := Z.max 0 (pb_minLax b - 1) in
    let smax := Z.min (pb_max b - 1) (n - 1) in
    let lmax := Z.min (pb_maxLax b - 1) (n - 1) in
    Some (smin, smax, Z.max smin lmin, Z.min smax lmax).

(** The Limit-by-Probability-Order part of [applyPostConditions]. *)
Definition probLimit (conds : list SearchCondition) (returnList : list string) : list string :=
  let b := prob_bounds conds in
  if negb (pb_cond b) then returnList else
  match prob_window b (Z.of_nat (length returnList)) with
  | None => []
  | Some (smin, smax, mn, mx) =>
      let pm := probMap (pb_legacy b) returnList in
      let keys := map fst pm in
      let lo := widen_down (Z.to_nat mn) keys (Str.left 9 (key_at keys mn)) mn smin in
      let hi := widen_up (length keys) keys (Str.left 9 (key_at keys mx)) mx smax in
      qmid (map snd pm) lo (hi - lo + 1)
  end.

(** [WordEngine::applyPostConditions] *)
Definition applyPostConditions (st : Engine) (lex : string) (spec : SearchSpec)
    (wordList : list string) : list string :=
  let returnList := filter (fun w => matchesPostConditions st lex w (conditions spec)) wordList in
  probLimit (conditions spec) returnList.

(* ------------------------------------------------------------------ *)
(** ** Phase routing and [WordEngine::search] *)

(** [QMap<ConditionPhase, int> phaseCounts]: [operator[]] inserts a missing
    key with value 0 before changing it. *)
Fixpoint pc_add (p : ConditionPhase) (d : Z) (m : list (ConditionPhase * Z))
    : list (ConditionPhase * Z) :=
  match m with
  | [] => [(p, d)]
  | (q, v) :: m' => if phase_eqb q p then (q, v + d) :: m' else (q, v) :: pc_add p d m'
  end.

Definition pc_lookup (p : ConditionPhase) (m : list (ConditionPhase * Z)) : option Z :=
  snd <$> find (fun qv => phase_eqb qv.1 p) m.

Definition pc_contains (p : ConditionPhase) (m : list (ConditionPhase * Z)) : bool :=
  match pc_lookup p m with Some _ => true | None => false end.

Definition phaseCounts (conds : list SearchCondition) : list (ConditionPhase * Z) :=
  fold_left (fun m c => pc_add (getConditionPhase c) 1 m) conds [].

(** Which phases [search] runs, and whether the graph results are passed
    to the database search. *)
Record Plan := {
  runGraph : bool; runDatabase : bool; passGraphResults : bool; runPost : bool }.

Definition searchPlan (conds : list SearchCondition) : Plan :=
  let pc := phaseCounts conds in
  let lengthConditions :=
    Z.of_nat (length (filter (fun c => ConditionType_eqb (ctype c) Length) conds)) in
  let pc' :=
    if pc_contains WordGraphPhase pc && negb (lengthConditions =? 0)
       && (lengthConditions =? default 0 (pc_lookup DatabasePhase pc))
    then pc_add DatabasePhase (-1) pc else pc in
  {| runGraph := pc_contains WordGraphPhase pc' || negb (pc_contains DatabasePhase pc');
     runDatabase := pc_contains DatabasePhase pc';
     passGraphResults := pc_contains WordGraphPhase pc';
     runPost := pc_contains PostConditionPhase pc' |}.

(** [WordEngine::search]: the result list and the engine afterwards. *)
Definition search (lex : string) (spec : SearchSpec) (allCaps : bool) (st : Engine)
    : list string * Engine :=
  match st !! lex with
  | None => ([], st)
  | Some ld =>
    let ospec := optimize X spec in
    let plan := searchPlan (conditions ospec) in
    let r1 := if runGraph plan then graphSearch X (graph ld) ospec else [] in
    if runGraph plan && bool_decide (r1 = []) then ([], st) else
    let r2 := if runDatabase plan
              then databaseSearch st lex ospec
                     (if passGraphResults plan then Some r1 else None)
              else r1 in
    if runDatabase plan && bool_decide (r2 = []) then ([], st) else
    let r3 := if runPost plan then applyPostConditions st lex ospec r2 else r2 in
    let r4 := if allCaps then map Str.toUpper r3 else r3 in
    match r4 with
    | [] => (r4, st)
    | _ => (r4, addToCache lex r4 (clearCache lex st))
    end
  end.

End Engine.

(* ------------------------------------------------------------------ *)
(** ** Imports *)

(** One line of [WordEngine::importTextFile] on the lexicon's data; the
    boolean says whether the line counts as imported.  Definitions
    ([loadDefinitions]) go to a map this model does not keep. *)
Definition importLine (ld : LexiconData) (raw : string) : LexiconData * bool :=
  let line := Str.simplified raw in
  match line with
  | EmptyString => (ld, false)
  | String c _ =>
    if Ascii.eqb c "#" then (ld, false) else
    let word := Str.toUpper (Str.section0 line) in
    let m := if bool_decide (word ∈ graph ld) then numAnagramsMap ld
             else let alpha := getAlphagram word in
                  <[alpha := default 0 (numAnagramsMap ld !! alpha) + 1]> (numAnagramsMap ld) in
    ({| graph := {[word]} ∪ graph ld; db := db ld; wordCache := wordCache ld;
        numAnagramsMap := m; stems := stems ld; stemAlphagrams := stemAlphagrams ld |},
     true)
  end.

Fixpoint importLines (ld : LexiconData) (lines : list string) : LexiconData * Z :=
  match lines with
  | [] => (ld, 0)
  | l :: ls =>
      let '(ld1, ok) := importLine ld l in
      let '(ld2, n) := importLines ld1 ls in
      (ld2, (if ok then 1 else 0) + n)
  end.

(** [WordEngine::importTextFile]; [None] is a file that cannot be opened. *)
Definition importTextFile (lex : string) (file : option (list string)) (st : Engine)
    : Z * Engine :=
  let st0 := match st !! lex with Some _ => st | None => <[lex := newLexiconData]> st end in
  match file, st0 !! lex with
  | Some lines, Some ld => let '(ld', n) := importLines ld lines in (n, <[lex := ld']> st0)
  | _, _ => (0, st0)
  end.

(** The word a line of a text file contributes, as [importTextFile] reads
    it: [None] for a blank or comment line. *)
Definition line_word (raw : string) : option string :=
  match Str.simplified raw with
  | EmptyString => None
  | String c rest =>
      if Ascii.eqb c "#" then None else Some (Str.toUpper (Str.section0 (String c rest)))
  end.

Fixpoint imported_words (lines : list string) : list string :=
  match lines with
  | [] => []
  | l :: ls => option_list (line_word l) ++ imported_words ls
  end.

Definition file_words (file : option (list string)) : list string :=
  match file with None => [] | Some lines => imported_words lines end.

(** A sequence of [importTextFile] calls on one lexicon. *)
Definition importTextFiles (lex : string) (files : list (option (list string)))
    (st : Engine) : Engine :=
  fold_left (fun st f => (importTextFile lex f st).2) files st.

(** The anagram counts agree with the graph: the count of an alphagram is
    the number of distinct graph words with that alphagram. *)
Definition counts_ok (ld : LexiconData) : Prop :=
  forall a, default 0 (numAnagramsMap ld !! a)
            = Z.of_nat (size (filter (fun w => getAlphagram w = a) (graph ld))).

(** The loop of [WordEngine::importStems]: the stems kept, their
    alphagrams, the count and the length fixed by the first stem. *)
Fixpoint importStems_go (lines : list string) (words : list string)
    (alphas : gset string) (imported : Z) (len : nat)
    : list string * gset string * Z * nat :=
  match lines with
  | [] => (words, alphas, imported, len)
  | raw :: ls =>
      let line := Str.simplified raw in
      match line with
      | EmptyString => importStems_go ls words alphas imported len
      | String c _ =>
          if Ascii.eqb c "#" then importStems_go ls words alphas imported len else
          let word := Str.section0 line in
          let len' := if (len =? 0)%nat then String.length word else len in
          if negb (len' =? String.length word)%nat
          then importStems_go ls words alphas imported len'
          else importStems_go ls (words ++ [word]) ({[getAlphagram word]} ∪ alphas)
                              (imported + 1) len'
      end
  end.

(** [WordEngine::importStems] *)
Definition importStems (lex : string) (file : option (list string)) (st : Engine)
    : Z * Engine :=
  match st !! lex with
  | None => (0, st)
  | Some ld =>
    match file with
    | None => (-1, st)
    | Some lines =>
        let '(words, alphas, imported, len) := importStems_go lines [] ∅ 0 0 in
        let ld' := {| graph := graph ld; db := db ld; wordCache := wordCache ld;
                      numAnagramsMap := numAnagramsMap ld;
                      stems := <[len := default [] (stems ld !! len) ++ words]> (stems ld);
                      stemAlphagrams :=
                        <[len := default ∅ (stemAlphagrams ld !! len) ∪ alphas]>
                          (stemAlphagrams ld) |} in
        (imported, <[lex := ld']> st)
    end
  end.

(* ------------------------------------------------------------------ *)
(** ** A concrete configuration of the collaborators *)

(** Modelled from the spec: [SearchSpec::optimize] (not in src), which adds
    "an implicit Length condition that exists solely to bound an expensive
    Graph-phase search": for each non-negated AnagramMatch without
    wildcards, a Length condition fixed at the pattern's length. *)
Definition optimize_model (spec : SearchSpec) : SearchSpec :=
  {| conjunction := conjunction spec;
     conditions :=
       conditions spec ++
       flat_map (fun c =>
         if ConditionType_eqb (ctype c) AnagramMatch && negb (negated c)
            && negb (Str.elem "*" (stringValue c)) && negb (Str.elem "?" (stringValue c))
         then [{| ctype := Length; stringValue := "";
                  minValue := Z.of_nat (String.length (stringValue c));
                  maxValue := Z.of_nat (String.length (stringValue c));
                  boolValue := false; legacy := false; negated := false |}]
         else []) (conditions spec) |}.

(** Modelled from the spec: [WordGraph::search] (not in src) for the kinds
    used below: AnagramMatch is "exact multiset" (same alphagram), Length
    bounds the word length; results in the set's element order. *)
Definition graph_condition_ok (w : string) (c : SearchCondition) : bool :=
  match ctype c with
  | AnagramMatch => String.eqb (getAlphagram w) (getAlphagram (Str.toUpper (stringValue c)))
  | Length => (minValue c <=? Z.of_nat (String.length w))
              && (Z.of_nat (String.length w) <=? maxValue c)
  | _ => true
  end.
Definition graphSearch_model (g : gset string) (spec : SearchSpec) : list string :=
  filter (fun w => forallb (graph_condition_ok w) (conditions spec)) (elements g).

(** Sample values standing in for the letter-bag arithmetic: the number of
    combinations of a word is taken to be its length. *)
Definition X0 : Ext :=
  {| stringToSearchSet := fun _ => UnknownSearchSet;
     getNumCombinations := fun w => Z.of_nat (String.length w);
     getLetterValue := fun _ => 1;
     graphSearch := graphSearch_model;
     optimize := optimize_model |}.

Definition cond (t : ConditionType) (s : string) : SearchCondition :=
  {| ctype := t; stringValue := s; minValue := 0; maxValue := 0;
     boolValue := false; legacy := false; negated := false |}.

Definition row0 : Row :=
  {| r_length := 0; r_probability_order := 0; r_min_probability_order := 0;
     r_max_probability_order := 0; r_num_vowels := 0; r_num_unique_letters := 0;
     r_num_anagrams := 0; r_point_value := 0; r_front_hooks := "";
     r_back_hooks := ""; r_is_front_hook := false; r_is_back_hook := false;
     r_lexicon_symbols := ""; r_definition := "" |}.

Definition lexWith (g : list string) (d : option Database) : LexiconData :=
  {| graph := list_to_set g; db := d; wordCache := ∅; numAnagramsMap := ∅;
     stems := ∅; stemAlphagrams := ∅ |}.

Definition anagram_spec : SearchSpec :=
  {| conjunction := true; conditions := [cond AnagramMatch "TAC"] |}.

Definition graphOnly : Engine := {[ "TEST" := lexWith ["CAT"; "DOG"] None ]}.

(** A lexicon whose table holds CAT and DOG, with an empty cache. *)
Definition db_catdog : Database :=
  {| db_open := true; db_table := [("CAT", row0); ("DOG", row0)] |}.

Definition st_catdog : Engine := {[ "L" := lexWith ["CAT"; "DOG"] (Some db_catdog) ]}.

Definition wordlist_spec : SearchSpec :=
  {| conjunction := true; conditions := [cond InWordList "CAT"] |}.

(** Two text files for one lexicon: CAT twice, ACT (with a definition),
    TAC, a comment and a blank line. *)
Definition catFiles : list (option (list string)) :=
  [Some ["cat"; "  act  a definition "; "# comment"; "CAT"]; Some ["tac"; ""]].

(** [s] is obtained from [t] by deleting letters (a subsequence). *)
Inductive subseq : string -> string -> Prop :=
| subseq_nil (t : string) : subseq EmptyString t
| subseq_take (c : ascii) (s t : string) : subseq s t -> subseq (String c s) (String c t)
| subseq_skip (c : ascii) (s t : string) : subseq s t -> subseq s (String c t).

(** A lexicon whose only stems are the six-letter stem SATINE. *)
Definition stemLd : LexiconData :=
  {| graph := ∅; db := None; wordCache := ∅; numAnagramsMap := ∅;
     stems := {[6%nat := ["SATINE"]]}; stemAlphagrams := {[6%nat := {["AEINST"]}]} |}.

(** An IncludeLetters condition on the letters [s]. *)
Definition includeCond (neg : bool) (s : string) : SearchCondition :=
  {| ctype := IncludeLetters; stringValue := s; minValue := 0; maxValue := 0;
     boolValue := false; legacy := false; negated := neg |}.

Definition includeSpec (neg : bool) (s : string) : SearchSpec :=
  {| conjunction := true; conditions := [includeCond neg s] |}.

Definition db_letters : Database :=
  {| db_open := true;
     db_table := [("BED", row0); ("SEA", row0); ("DOG", row0); ("CAT", row0)] |}.

Definition st_letters : Engine := {[ "L" := lexWith [] (Some db_letters) ]}.

(** The fragments [databaseSearch] builds from the database-phase
    conditions of a specification. *)
Definition dbFrags (X : Ext) (spec : SearchSpec) : list (list SqlExpr) :=
  map (conditionFragment X) (filter (is_db_condition X) (conditions spec)).

(** A specification with one InWordList condition on the words of [s]. *)
Definition wordListSpec (s : string) : SearchSpec :=
  {| conjunction := true; conditions := [cond InWordList s] |}.

(** A Limit-by-Probability-Order condition, strict or lax. *)
Definition limitCond (mn mx : Z) (lax : bool) : SearchCondition :=
  {| ctype := LimitByProbabilityOrder; stringValue := ""; minValue := mn;
     maxValue := mx; boolValue := lax; legacy := false; negated := false |}.

(** Ten candidates with ten different combination counts under [X0]. *)
Definition probWords10 : list string :=
  ["A"; "BB"; "CCC"; "DDDD"; "EEEEE"; "FFFFFF"; "GGGGGGG"; "HHHHHHHH";
   "IIIIIIIII"; "JJJJJJJJJJ"].

(** A specification with one Length condition (length 0, which every row
    of [row0] has). *)
Definition lengthSpec : SearchSpec :=
  {| conjunction := true; conditions := [cond Length ""] |}.

(** The cache invariant: every table row has a non-empty word, and every
    cache entry is the [WordInfo] of a row of the lexicon's table, stored
    under that row's word. *)
Definition db_ok (ld : LexiconData) : Prop :=
  match db ld with
  | Some d => Forall (fun kr => kr.1 <> "") (db_table d)
  | None => True
  end.

Definition cache_ok (ld : LexiconData) : Prop :=
  map_Forall (fun k v =>
    match db ld with
    | Some d => Exists (fun kr => kr.1 = k /\ v = mkInfo k kr.2) (db_table d)
    | None => False
    end) (wordCache ld).

Definition engine_ok (st : Engine) : Prop :=
  map_Forall (fun _ ld => db_ok ld /\ cache_ok ld) st.

#[global] Instance db_ok_dec ld : Decision (db_ok ld).
Proof. unfold db_ok. destruct (db ld); apply _. Defined.

#[global] Instance cache_ok_dec ld : Decision (cache_ok ld).
Proof. unfold cache_ok. destruct (db ld); apply _. Defined.

#[global] Instance engine_ok_dec st : Decision (engine_ok st).
Proof. unfold engine_ok. apply _. Defined.

(* ------------------------------------------------------------------ *)
(** ** Database connection, counts and the remaining getters *)

Definition set_db (ld : LexiconData) (d : option Database) : LexiconData :=
  {| graph := graph ld; db := d; wordCache := wordCache ld;
     numAnagramsMap := numAnagramsMap ld; stems := stems ld;
     stemAlphagrams := stemAlphagrams ld |}.

(** [WordEngine::lexiconIsLoaded] *)
Definition lexiconIsLoaded (st : Engine) (lex : string) : bool :=
  bool_decide (is_Some (st !! lex)).

(** [WordEngine::databaseIsConnected]: the [db] pointer is set. *)
Definition databaseIsConnected (st : Engine) (lex : string) : bool :=
  match st !! lex with
  | Some ld => match db ld with Some _ => true | None => false end
  | None => false
  end.

(** [WordEngine::connectToDatabase]. The argument is the outcome of
    [db->open()] on the file: [None] when it fails, otherwise the [words]
    table of the opened file. On success the code writes through
    [lexiconData[lexicon]], which for a lexicon not yet in the map is the
    null pointer [QMap::operator[]] inserts: that call has no defined
    outcome and is [None] here. *)
Definition connectToDatabase (lex : string) (opened : option (list (string * Row)))
    (st : Engine) : option (bool * Engine) :=
  match opened with
  | None => Some (false, st)
  | Some t =>
      match st !! lex with
      | None => None
      | Some ld => Some (true, <[lex := set_db ld (Some {| db_open := true; db_table := t |})]> st)
      end
  end.

(** [WordEngine::disconnectFromDatabase]. The connection name is set
    together with [db] by [connectToDatabase], the only writer of [db], so
    it is non-empty whenever [db] is set. *)
Definition disconnectFromDatabase (lex : string) (st : Engine) : bool * Engine :=
  match st !! lex with
  | None => (true, st)
  | Some ld =>
      match db ld with
      | Some d => if db_open d then (true, <[lex := set_db ld None]> st) else (true, st)
      | None => (true, st)
      end
  end.

(** [WordEngine::getNumWords]: [SELECT count( * ) FROM words] on an open
    database, otherwise the graph's word count (modelled from the spec: the
    number of words of the graph). *)
Definition getNumWords (st : Engine) (lex : string) : Z :=
  match st !! lex with
  | None => 0
  | Some ld =>
      match db ld with
      | Some d => if db_open d then Z.of_nat (length (db_table d)) else Z.of_nat (size (graph ld))
      | None => Z.of_nat (size (graph ld))
      end
  end.

(** [WordEngine::alphagrams]: the set of the alphagrams; [QSet::toList]
    gives them in an unspecified order, here the set's element order. *)
Definition alphagrams (strList : list string) : list string :=
  elements (fold_left (fun s str => {[getAlphagram str]} ∪ s) strList (∅ : gset string)).

Definition getIsFrontHook (lex word : string) (st : Engine) : bool * Engine :=
  match st !! lex with
  | None => (false, st)
  | Some _ => let '(i, st') := getWordInfo lex word st in
              (if isValid i then isFrontHook i else false, st')
  end.

Definition getIsBackHook (lex word : string) (st : Engine) : bool * Engine :=
  match st !! lex with
  | None => (false, st)
  | Some _ => let '(i, st') := getWordInfo lex word st in
              (if isValid i then isBackHook i else false, st')
  end.

(** [return 0] in a function returning [QString] is the null string. *)
Definition getLexiconSymbols (lex word : string) (st : Engine) : string * Engine :=
  match st !! lex with
  | None => ("", st)
  | Some _ => let '(i, st') := getWordInfo lex word st in
              (if isValid i then lexiconSymbols i else "", st')
  end.

(* ------------------------------------------------------------------ *)
(** ** Definitions: [addDefinition] and [getDefinition] *)

(** [\w] of [QRegExp] on a character read as Latin-1 (the [QString] built
    from the file's bytes): letters, numbers and ['_']. *)
Definition is_word_char (c : ascii) : bool :=
  let n := N_of_ascii c in
  (((48 <=? n) && (n <=? 57)) || ((65 <=? n) && (n <=? 90))
   || ((97 <=? n) && (n <=? 122)) || (n =? 95)
   || (n =? 170) || (n =? 178) || (n =? 179) || (n =? 181) || (n =? 185)
   || (n =? 186) || ((188 <=? n) && (n <=? 190)) || ((192 <=? n) && (n <=? 214))
   || ((216 <=? n) && (n <=? 246)) || ((248 <=? n) && (n <=? 255)))%N.

Fixpoint word_run (s : string) : string :=
  match s with
  | EmptyString => EmptyString
  | String c r => if is_word_char c then String c (word_run r) else EmptyString
  end.

(** [posRegex.indexIn(def, 0) >= 0] and [posRegex.cap(1)] for the pattern
    [\[(\w+)]: the word characters after the first ['['] that is followed by
    at least one. *)
Fixpoint pos_capture (s : string) : option string :=
  match s with
  | EmptyString => None
  | String c r =>
      if Ascii.eqb c "[" then
        match word_run r with
        | EmptyString => pos_capture r
        | w => Some w
        end
      else pos_capture r
  end.

(** [QMultiMap<QString, QString>::insert]: sorted by key, a new value placed
    before the values already held under an equal key. *)
Fixpoint qmulti_insert (k v : string) (m : list (string * string)) : list (string * string) :=
  match m with
  | [] => [(k, v)]
  | (k', v') :: m' =>
      match String.compare k k' with
      | Gt => (k', v') :: qmulti_insert k v m'
      | _ => (k, v) :: m
      end
  end.

Fixpoint strip_prefix (p s : string) : option string :=
  match p, s with
  | EmptyString, _ => Some s
  | String a p', String b s' => if Ascii.eqb a b then strip_prefix p' s' else None
  | String _ _, EmptyString => None
  end.

(** [QString::split(sep)], empty parts kept; [n] bounds the recursion by
    the length of the string. *)
Fixpoint split_str_go (n : nat) (sep s : string) : list string :=
  match n with
  | O => [s]
  | S n' =>
      match strip_prefix sep s with
      | Some rest => "" :: split_str_go n' sep rest
      | None =>
          match s with
          | EmptyString => [""]
          | String c r =>
              match split_str_go n' sep r with
              | [] => [String c ""]
              | p :: ps => String c p :: ps
              end
          end
      end
  end.

Definition split_str (sep s : string) : list string := split_str_go (String.length s) sep s.

(** The loops [if (!definition.isEmpty()) definition += sep;
    definition += part;] of [getDefinition]. *)
Definition join_parts (sep : string) (parts : list string) : string :=
  fold_left (fun acc d => (if String.eqb acc "" then acc else acc +:+ sep) +:+ d) parts "".

Definition nl : string := String (ascii_of_nat 10) "".

(** [LexiconData::definitions] of every lexicon: word to the
    part-of-speech multimap. The field is kept beside the rest of the
    lexicon data; a lexicon without an entry has no definitions. *)
Abbreviation Definitions := (gmap string (gmap string (list (string * string)))).

(** [WordEngine::addDefinition] *)
Definition addDefinition (st : Engine) (lex word definition : string) (defs : Definitions)
    : Definitions :=
  if String.eqb word "" || String.eqb definition "" || negb (bool_decide (is_Some (st !! lex)))
  then defs
  else
    let defMap := fold_left (fun m d => qmulti_insert (default "" (pos_capture d)) d m)
                            (split_str " / " definition) [] in
    <[lex := <[word := defMap]> (default ∅ (defs !! lex))]> defs.

(** [WordEngine::getDefinition]: the answer and the engine after the call
    (the [getWordInfo] inside may fill the cache). *)
Definition getDefinition (st : Engine) (defs : Definitions) (lex word : string)
    (replaceLinks : bool) : string * Engine :=
  match st !! lex with
  | None => ("", st)
  | Some _ =>
      let '(i, st') := getWordInfo lex word st in
      if isValid i then
        (if replaceLinks then join_parts nl (split_str " / " (definition i))
         else definition i, st')
      else
        match match defs !! lex with Some dl => dl !! word | None => None end with
        | None => ("", st')
        | Some mm => (join_parts (if replaceLinks then nl else " / ") (map snd mm), st')
        end
  end.

(* ------------------------------------------------------------------ *)
(** ** Hook letters *)

(** [QChar::toLower] on ASCII. *)
Definition lower_char (c : ascii) : ascii :=
  let n := N_of_ascii c in
  if ((65 <=? n) && (n <=? 90))%N then ascii_of_N (n + 32) else c.

(** [qSort] on a [QList<QChar>] (by code; equal characters are identical,
    so any sorting algorithm gives this list). *)
Fixpoint insert_char (c : ascii) (l : list ascii) : list ascii :=
  match l with
  | [] => [c]
  | d :: l' => if (N_of_ascii c <=? N_of_ascii d)%N then c :: l else d :: insert_char c l'
  end.

Definition sort_chars (l : list ascii) : list ascii := fold_right insert_char [] l.

Fixpoint map_opt {A B} (f : A -> option B) (l : list A) : option (list B) :=
  match l with
  | [] => Some []
  | x :: l' =>
      match f x, map_opt f l' with
      | Some y, Some ys => Some (y :: ys)
      | _, _ => None
      end
  end.

Definition first_char (s : string) : option ascii :=
  match s with EmptyString => None | String c _ => Some c end.

Section Hooks.
Context (X : Ext).
(** The default-constructed [SearchSpec] and [SearchCondition] (their
    constructors are not in src). *)
Context (spec0 : SearchSpec) (cond0 : SearchCondition).

(** [spec.conditions.append(condition)] with [condition.type =
    PatternMatch] and [condition.stringValue = pat]. *)
Definition hookSpec (pat : string) : SearchSpec :=
  {| conjunction := conjunction spec0;
     conditions := conditions spec0 ++
       [{| ctype := PatternMatch; stringValue := pat; minValue := minValue cond0;
           maxValue := maxValue cond0; boolValue := boolValue cond0;
           legacy := legacy cond0; negated := negated cond0 |}] |}.

(** [WordEngine::getFrontHookLetters]: [None] when a result word is empty,
    where [str.at(0)] is out of range. *)
Definition getFrontHookLetters (lex word : string) (st : Engine) : option (string * Engine) :=
  let '(i, st1) := getWordInfo lex word st in
  if isValid i then Some (frontHooks i, st1) else
  let '(words, st2) := search X lex (hookSpec (String "?" word)) true st1 in
  match map_opt first_char words with
  | None => None
  | Some cs => Some (String.string_of_list_ascii (sort_chars (map lower_char cs)), st2)
  end.

(** [WordEngine::getBackHookLetters]: [str.at(str.length() - 1)]. *)
Definition getBackHookLetters (lex word : string) (st : Engine) : option (string * Engine) :=
  let '(i, st1) := getWordInfo lex word st in
  if isValid i then Some (backHooks i, st1) else
  let '(words, st2) := search X lex (hookSpec (word +:+ "?")) true st1 in
  match map_opt last_char words with
  | None => None
  | Some cs => Some (String.string_of_list_ascii (sort_chars (map lower_char cs)), st2)
  end.

End Hooks.

(* ------------------------------------------------------------------ *)
(** ** [WordEngine::nonGraphSearch] *)

Section NonGraph.
(** [Defs::MAX_WORD_LEN] (Defs.h is not in src). *)
Context (MAX_WORD_LEN : Z).

Definition MAX_ANAGRAMS : Z := 65535.

(** The running [min]/[max] pairs for anagrams, vowels, unique letters and
    point value. *)
Record NGBounds := {
  ngAnagrams : Z * Z; ngVowels : Z * Z; ngUnique : Z * Z; ngPoints : Z * Z }.

Definition ng_init : NGBounds :=
  {| ngAnagrams := (0, MAX_ANAGRAMS); ngVowels := (0, MAX_WORD_LEN);
     ngUnique := (0, MAX_WORD_LEN); ngPoints := (0, 10 * MAX_WORD_LEN) |}.

(** One range condition: [None] is the early [return wordList] (empty). *)
Definition narrow (r : Z * Z) (c : SearchCondition) : option (Z * Z) :=
  let '(lo, hi) := r in
  if (hi <? minValue c) || (maxValue c <? lo) then None
  else Some (if lo <? minValue c then minValue c else lo,
             if maxValue c <? hi then maxValue c else hi).

Definition ng_bounds_step (b : NGBounds) (c : SearchCondition) : option NGBounds :=
  match ctype c with
  | NumAnagrams =>
      match narrow (ngAnagrams b) c with
      | Some r => Some {| ngAnagrams := r; ngVowels := ngVowels b;
                          ngUnique := ngUnique b; ngPoints := ngPoints b |}
      | None => None
      end
  | NumVowels =>
      match narrow (ngVowels b) c with
      | Some r => Some {| ngAnagrams := ngAnagrams b; ngVowels := r;
                          ngUnique := ngUnique b; ngPoints := ngPoints b |}
      | None => None
      end
  | NumUniqueLetters =>
      match narrow (ngUnique b) c with
      | Some r => Some {| ngAnagrams := ngAnagrams b; ngVowels := ngVowels b;
                          ngUnique := r; ngPoints := ngPoints b |}
      | None => None
      end
  | PointValue =>
      match narrow (ngPoints b) c with
      | Some r => Some {| ngAnagrams := ngAnagrams b; ngVowels := ngVowels b;
                          ngUnique := ngUnique b; ngPoints := r |}
      | None => None
      end
  | _ => Some b
  end.

(** The range a condition kind narrows ([None] for the other kinds). *)
Definition ng_range (t : ConditionType) (b : NGBounds) : option (Z * Z) :=
  match t with
  | NumAnagrams => Some (ngAnagrams b)
  | NumVowels => Some (ngVowels b)
  | NumUniqueLetters => Some (ngUnique b)
  | PointValue => Some (ngPoints b)
  | _ => None
  end.

(** The acceptable words of an In Word List condition. *)
Definition wordSetOf (st : Engine) (lex : string) (c : SearchCondition) : gset string :=
  list_to_set (filter (fun w => isAcceptable st lex w = true) (Str.split_sp (stringValue c))).

(** The loop over the conditions: the final bounds and word set, or [None]
    for an early [return wordList]. *)
Fixpoint ng_loop (st : Engine) (lex : string) (conj : bool) (conds : list SearchCondition)
    (b : NGBounds) (final : gset string) (num : Z) : option (NGBounds * gset string) :=
  match conds with
  | [] => Some (b, final)
  | c :: rest =>
      match ng_bounds_step b c with
      | None => None
      | Some b' =>
          if ConditionType_eqb (ctype c) InWordList then
            let ws := wordSetOf st lex c in
            if num =? 0 then ng_loop st lex conj rest b' ws (num + 1)
            else if conj then
              let both := final ∩ ws in
              if bool_decide (both = ∅) then None
              else ng_loop st lex conj rest b' both (num + 1)
            else ng_loop st lex conj rest b' (final ∪ ws) (num + 1)
          else ng_loop st lex conj rest b' final num
      end
  end.

Definition in_range (v : Z) (r : Z * Z) : bool := negb ((v <? r.1) || (r.2 <? v)).

(** The tests of one word, each getter run only when the earlier tests
    passed ([continue]). *)
Definition ng_test (lex : string) (b : NGBounds) (tA tV tU tP : bool) (w : string)
    (st : Engine) : bool * Engine :=
  let '(okA, st1) := if tA then let '(n, s) := getNumAnagrams lex w st in
                                (in_range n (ngAnagrams b), s)
                     else (true, st) in
  if negb okA then (false, st1) else
  let '(okV, st2) := if tV then let '(n, s) := getNumVowels lex w st1 in
                                (in_range n (ngVowels b), s)
                     else (true, st1) in
  if negb okV then (false, st2) else
  let '(okU, st3) := if tU then let '(n, s) := getNumUniqueLetters lex w st2 in
                                (in_range n (ngUnique b), s)
                     else (true, st2) in
  if negb okU then (false, st3) else
  if tP then let '(n, s) := getPointValue lex w st3 in (in_range n (ngPoints b), s)
  else (true, st3).

(** [WordEngine::nonGraphSearch]: the result set and the engine afterwards
    (the getters fill the cache). [QSet::toList] and the [QSetIterator]
    visit the set in an unspecified order; the model returns the set and
    visits it in element order. The filter condition is the source's
    [!empty && (A) || (V) || (U) || (P)], where [(P)] tests [minPointValue]
    twice. *)
Definition nonGraphSearch (st : Engine) (lex : string) (spec : SearchSpec)
    : gset string * Engine :=
  match ng_loop st lex (conjunction spec) (conditions spec) ng_init ∅ 0 with
  | None => (∅, st)
  | Some (b, final) =>
      let tA := (0 <? (ngAnagrams b).1) || ((ngAnagrams b).2 <? MAX_ANAGRAMS) in
      let tV := (0 <? (ngVowels b).1) || ((ngVowels b).2 <? MAX_WORD_LEN) in
      let tU := (0 <? (ngUnique b).1) || ((ngUnique b).2 <? MAX_WORD_LEN) in
      let tP := (0 <? (ngPoints b).1) || ((ngPoints b).1 <? 10 * MAX_WORD_LEN) in
      if (negb (bool_decide (final = ∅)) && tA) || tV || tU || tP then
        fold_left (fun acc w =>
                     let '(ws, s) := acc in
                     let '(ok, s') := ng_test lex b tA tV tU tP w s in
                     (if ok then {[w]} ∪ ws else ws, s'))
                  (elements final) (∅, st)
      else (final, st)
  end.

End NonGraph.

(* ------------------------------------------------------------------ *)
(** ** The stems a file contributes *)

(** The stem a line of a stem file contributes, as the loop of
    [WordEngine::importStems] reads it before the length test: [None] for
    a blank or comment line. *)
Definition stem_line (raw : string) : option string :=
  match Str.simplified raw with
  | EmptyString => None
  | String c rest => if Ascii.eqb c "#" then None else Some (Str.section0 (String c rest))
  end.

Definition stem_words (lines : list string) : list string :=
  flat_map (fun raw => option_list (stem_line raw)) lines.

(* ------------------------------------------------------------------ *)
(** ** The states the engine can reach *)

(** Every cache entry is the full [WordInfo] built from some database row,
    stored under that row's word. *)
Definition cache_rows_ld (ld : LexiconData) : Prop :=
  map_Forall (fun k i => exists r, i = mkInfo k r) (wordCache ld).

Definition cache_rows (st : Engine) : Prop := map_Forall (fun _ ld => cache_rows_ld ld) st.

Section Reach.
Context (X : Ext) (MAX_WORD_LEN : Z) (spec0 : SearchSpec) (cond0 : SearchCondition).

(** One call of a [WordEngine] member that may change [lexiconData], other
    than connecting and disconnecting a database. *)
Inductive engine_step : Engine -> Engine -> Prop :=
  | step_getWordInfo lex w st : engine_step st (getWordInfo lex w st).2
  | step_getPointValue lex w st : engine_step st (getPointValue lex w st).2
  | step_getProbabilityOrder lex w st : engine_step st (getProbabilityOrder lex w st).2
  | step_getMinProbabilityOrder lex w st : engine_step st (getMinProbabilityOrder lex w st).2
  | step_getMaxProbabilityOrder lex w st : engine_step st (getMaxProbabilityOrder lex w st).2
  | step_getNumAnagrams lex w st : engine_step st (getNumAnagrams lex w st).2
  | step_getNumVowels lex w st : engine_step st (getNumVowels lex w st).2
  | step_getNumUniqueLetters lex w st : engine_step st (getNumUniqueLetters lex w st).2
  | step_getIsFrontHook lex w st : engine_step st (getIsFrontHook lex w st).2
  | step_getIsBackHook lex w st : engine_step st (getIsBackHook lex w st).2
  | step_getLexiconSymbols lex w st : engine_step st (getLexiconSymbols lex w st).2
  | step_getDefinition defs lex w rl st : engine_step st (getDefinition st defs lex w rl).2
  | step_getFrontHookLetters lex w st s st' :
      getFrontHookLetters X spec0 cond0 lex w st = Some (s, st') -> engine_step st st'
  | step_getBackHookLetters lex w st s st' :
      getBackHookLetters X spec0 cond0 lex w st = Some (s, st') -> engine_step st st'
  | step_addToCache lex ws st : engine_step st (addToCache lex ws st)
  | step_clearCache lex st : engine_step st (clearCache lex st)
  | step_search lex spec allCaps st : engine_step st (search X lex spec allCaps st).2
  | step_nonGraphSearch lex spec st :
      engine_step st (nonGraphSearch MAX_WORD_LEN st lex spec).2
  | step_importTextFile lex f st : engine_step st (importTextFile lex f st).2
  | step_importStems lex f st : engine_step st (importStems lex f st).2.

(** The same, with [connectToDatabase] and [disconnectFromDatabase]. *)
Inductive engine_step_db : Engine -> Engine -> Prop :=
  | step_other st st' : engine_step st st' -> engine_step_db st st'
  | step_connect lex t b st st' :
      connectToDatabase lex t st = Some (b, st') -> engine_step_db st st'
  | step_disconnect lex st : engine_step_db st (disconnectFromDatabase lex st).2.

End Reach.

(* ================================================================== *)
(** * Properties *)

(* ------------------------------------------------------------------ *)
(** ** Unknown lexicons *)

(** C4 (amended): on a lexicon name that is not loaded, [search] returns the
    empty list, [isAcceptable] false, [getWordInfo] an invalid [WordInfo],
    the getters for point value, anagram count and the three probability
    orders return 0, while [getNumVowels] and [getNumUniqueLetters] return
    the counts computed from the word itself; no call changes the engine. *)
Theorem unknown_lexicon_results (X : Ext) (st : Engine) (lex word : string)
    (spec : SearchSpec) (allCaps : bool) :
  st !! lex = None ->
  search X lex spec allCaps st = ([], st) /\
  isAcceptable st lex word = false /\
  getWordInfo lex word st = (emptyInfo, st) /\
  isValid emptyInfo = false /\
  getPointValue lex word st = (0, st) /\
  getNumAnagrams lex word st = (0, st) /\
  getProbabilityOrder lex word st = (0, st) /\
  getMinProbabilityOrder lex word st = (0, st) /\
  getMaxProbabilityOrder lex word st = (0, st) /\
  getNumVowels lex word st = (auxNumVowels word, st) /\
  getNumUniqueLetters lex word st = (auxNumUniqueLetters word, st).
Proof.
  intros Hlex.
  assert (Hinfo : getWordInfo lex word st = (emptyInfo, st)).
  { unfold getWordInfo. rewrite Hlex. by destruct (String.eqb word ""). }
  unfold search, isAcceptable, getPointValue, getNumAnagrams, getProbabilityOrder,
    getMinProbabilityOrder, getMaxProbabilityOrder, getNumVowels, getNumUniqueLetters.
  rewrite Hlex, Hinfo. repeat split.
Qed.

Lemma unknown_lexicon_results_witness :
  (∅ : Engine) !! "NOLEX" = None /\
  getNumVowels "NOLEX" "CAT" ∅ = (auxNumVowels "CAT", ∅).
Proof.
  assert (H0 : (∅ : Engine) !! "NOLEX" = None) by reflexivity.
  split; [exact H0|].
  destruct (unknown_lexicon_results X0 ∅ "NOLEX" "CAT"
              {| conjunction := true; conditions := [] |} false H0)
    as (_ & _ & _ & _ & _ & _ & _ & _ & _ & H & _).
  exact H.
Defined.

(** C4 counterexample: the vowel count of "CAT" on a lexicon that is not
    loaded is 1, not 0. *)
Lemma unknown_lexicon_vowels_nonzero :
  ~ (fst (getNumVowels "NOLEX" "CAT" ∅) = 0).
Proof. vm_compute. discriminate. Qed.

(* ------------------------------------------------------------------ *)
(** ** Set classification *)

(** C8: Type-One, Type-Two and Type-Three are pairwise exclusive, for
    sevens and for eights. *)
Theorem set_tiers_exclusive (X : Ext) (st : Engine) (lex word : string) :
  (isSetMember X st lex word SetTypeOneSevens = false
   \/ isSetMember X st lex word SetTypeTwoSevens = false) /\
  (isSetMember X st lex word SetTypeOneSevens = false
   \/ isSetMember X st lex word SetTypeThreeSevens = false) /\
  (isSetMember X st lex word SetTypeTwoSevens = false
   \/ isSetMember X st lex word SetTypeThreeSevens = false) /\
  (isSetMember X st lex word SetTypeOneEights = false
   \/ isSetMember X st lex word SetTypeTwoEights = false) /\
  (isSetMember X st lex word SetTypeOneEights = false
   \/ isSetMember X st lex word SetTypeThreeEights = false) /\
  (isSetMember X st lex word SetTypeTwoEights = false
   \/ isSetMember X st lex word SetTypeThreeEights = false).
Proof.
  unfold isSetMember. cbn [isSetMember_at].
  destruct (st !! lex) as [ld|]; [|tauto].
  destruct (String.length word =? 7)%nat, (String.length word =? 8)%nat,
    (typeOneSeven ld word), (typeOneEight ld word),
    (typeTwo_go typeTwoChars (getAlphagram word)),
    (getNumCombinations X "HUNTERS" <=? getNumCombinations X word),
    (getNumCombinations X "NOTIFIED" <=? getNumCombinations X word);
    cbn [negb andb]; tauto.
Qed.

(* ------------------------------------------------------------------ *)
(** ** Phase routing *)

Lemma phase_eqb_refl (p : ConditionPhase) : phase_eqb p p = true.
Proof. by destruct p. Qed.

Lemma pc_contains_cons (p q : ConditionPhase) (v : Z) (m : list (ConditionPhase * Z)) :
  pc_contains p ((q, v) :: m) = phase_eqb q p || pc_contains p m.
Proof. unfold pc_contains, pc_lookup. simpl. by destruct (phase_eqb q p). Qed.

Lemma pc_contains_add (p q : ConditionPhase) (d : Z) (m : list (ConditionPhase * Z)) :
  pc_contains p (pc_add q d m) = phase_eqb q p || pc_contains p m.
Proof.
  induction m as [|[r v] m IH]; simpl.
  - rewrite pc_contains_cons. unfold pc_contains, pc_lookup. simpl. by rewrite orb_false_r.
  - destruct (phase_eqb r q) eqn:Hrq.
    + rewrite !pc_contains_cons.
      assert (r = q) as -> by (destruct r, q; done).
      by destruct (phase_eqb q p), (pc_contains p m).
    + rewrite !pc_contains_cons, IH. by destruct (phase_eqb r p), (phase_eqb q p).
Qed.

Lemma phaseCounts_contains (X : Ext) (p : ConditionPhase) (conds : list SearchCondition)
    (m : list (ConditionPhase * Z)) :
  pc_contains p (fold_left (fun m c => pc_add (getConditionPhase X c) 1 m) conds m)
  = pc_contains p m || existsb (fun c => phase_eqb (getConditionPhase X c) p) conds.
Proof.
  revert m. induction conds as [|c conds IH]; intros m; simpl.
  - by rewrite orb_false_r.
  - rewrite IH, pc_contains_add. by destruct (pc_contains p m), (phase_eqb _ p).
Qed.

(** Whenever the optimized specification has a Length condition, the
    database phase runs: lowering its count to 0 leaves the key in the
    map, and [contains] still finds it. *)
Lemma length_condition_runs_database (X : Ext) (conds : list SearchCondition)
    (c : SearchCondition) :
  In c conds -> ctype c = Length -> runDatabase (searchPlan X conds) = true.
Proof.
  intros Hin Hty.
  assert (Hdb : pc_contains DatabasePhase (phaseCounts X conds) = true).
  { unfold phaseCounts. rewrite phaseCounts_contains. simpl.
    apply existsb_exists. exists c. split; [exact Hin|].
    unfold getConditionPhase. by rewrite Hty. }
  unfold searchPlan. simpl.
  destruct (_ && _ && _); [|exact Hdb].
  by rewrite pc_contains_add, Hdb, orb_true_r.
Qed.

(** C3 (failing input): a specification with only AnagramMatch "TAC" on a
    lexicon whose graph holds CAT and DOG and that has no database.  The
    optimizer adds a Length condition (database phase), the database phase
    still runs, and the search returns nothing although the graph search
    alone finds CAT. *)
Theorem anagram_only_search_runs_database :
  map (getConditionPhase X0) (conditions (optimize X0 anagram_spec))
    = [WordGraphPhase; DatabasePhase] /\
  runDatabase (searchPlan X0 (conditions (optimize X0 anagram_spec))) = true /\
  graphSearch X0 (list_to_set ["CAT"; "DOG"]) (optimize X0 anagram_spec) = ["CAT"] /\
  search X0 "TEST" anagram_spec false graphOnly = ([], graphOnly).
Proof. vm_compute. repeat split. Qed.

(* ------------------------------------------------------------------ *)
(** ** The word cache *)

Lemma select_word_In (t : list (string * Row)) (w : string) (r : Row) :
  select_word t w = Some r -> In (w, r) t.
Proof.
  induction t as [|[k r'] t IH]; simpl; [discriminate|].
  destruct (String.eqb_spec k w) as [->|_]; [intros [= ->]; by left|].
  intros H. right. by apply IH.
Qed.

Lemma select_word_None (t : list (string * Row)) (w : string) (r : Row) :
  select_word t w = None -> ~ In (w, r) t.
Proof.
  induction t as [|[k r'] t IH]; simpl; [tauto|].
  destruct (String.eqb_spec k w) as [->|Hne]; [discriminate|].
  intros H [[= -> _]|Hin]; [done|]. by apply (IH H).
Qed.

Lemma select_in_In (t : list (string * Row)) (ws : list string) (kr : string * Row) :
  In kr (select_in t ws) <-> In kr t /\ In kr.1 ws.
Proof.
  unfold select_in. induction t as [|kr' t IH]; simpl; [tauto|].
  rewrite filter_cons.
  destruct (existsb (String.eqb kr'.1) ws) eqn:He; simpl; rewrite IH.
  - apply existsb_exists in He as [w [Hw Heq]]. apply String.eqb_eq in Heq.
    split.
    + intros [->|H]; [|tauto]. split; [by left|]. by rewrite Heq.
    + intros [[->|H] Hw']; [by left|by right].
  - split; [tauto|]. intros [[->|H] Hw]; [|tauto].
    exfalso. assert (existsb (String.eqb kr.1) ws = true) as Ht; [|congruence].
    apply existsb_exists. exists kr.1. split; [done|]. apply String.eqb_refl.
Qed.

Abbreviation cache_step := (fun (c : gmap string WordInfo) (kr : string * Row) =>
  <[kr.1 := mkInfo kr.1 kr.2]> c).

Lemma fold_cache_lookup (l : list (string * Row)) (c0 : gmap string WordInfo)
    (k : string) (v : WordInfo) :
  fold_left cache_step l c0 !! k = Some v ->
  c0 !! k = Some v \/ exists r, In (k, r) l /\ v = mkInfo k r.
Proof.
  revert c0. induction l as [|[k' r] l IH]; intros c0; simpl; [by left|].
  intros H. destruct (IH _ H) as [Hc|[r' [Hin ->]]].
  - destruct (decide (k' = k)) as [->|Hne].
    + rewrite lookup_insert_eq in Hc. injection Hc as <-. right. exists r. by split; [left|].
    + rewrite lookup_insert_ne in Hc by done. by left.
  - right. exists r'. by split; [right|].
Qed.

Lemma fold_cache_present (l : list (string * Row)) (c0 : gmap string WordInfo)
    (k : string) :
  (is_Some (c0 !! k) \/ exists r, In (k, r) l) -> is_Some (fold_left cache_step l c0 !! k).
Proof.
  revert c0. induction l as [|[k' r] l IH]; intros c0; simpl.
  - intros [H|[r [] ]]; done.
  - intros H. apply IH. destruct (decide (k' = k)) as [->|Hne].
    + left. rewrite lookup_insert_eq. by eexists.
    + rewrite lookup_insert_ne by done. destruct H as [H|[r' [[= -> _]|Hin]]]; [by left|done|].
      right. by exists r'.
Qed.

Lemma set_cache_set_cache (ld : LexiconData) (c c' : gmap string WordInfo) :
  set_cache (set_cache ld c) c' = set_cache ld c'.
Proof. reflexivity. Qed.

(** [clearCache] followed by [addToCache]: the lexicon keeps everything but
    its cache, which now holds exactly the fetched rows. *)
Lemma add_after_clear (lex : string) (ws : list string) (st : Engine) (ld : LexiconData) :
  st !! lex = Some ld -> ws <> [] ->
  exists c, addToCache lex ws (clearCache lex st) = <[lex := set_cache ld c]> st /\
    (forall k v, c !! k = Some v -> exists d r, db ld = Some d /\ db_open d = true /\
        In (k, r) (select_in (db_table d) ws) /\ v = mkInfo k r) /\
    (forall d k r, db ld = Some d -> db_open d = true ->
        In (k, r) (select_in (db_table d) ws) -> is_Some (c !! k)).
Proof.
  intros Hld Hws. unfold addToCache, clearCache. rewrite Hld, lookup_insert_eq.
  destruct ws as [|w ws]; [done|]. cbn [db set_cache wordCache].
  destruct (db ld) as [d|] eqn:Hdb; [destruct (db_open d) eqn:Hop|].
  - eexists. split; [by rewrite insert_insert_eq|]. split.
    + intros k v Hk. apply fold_cache_lookup in Hk as [Hk|[r [Hin ->]]]; [done|].
      by exists d, r.
    + intros d' k r [= <-] _ Hin. apply fold_cache_present. right. by exists r.
  - exists ∅. split; [done|]. split; [done|]. intros d' k r [= <-]. by rewrite Hop.
  - exists ∅. split; [done|]. split; [done|]. done.
Qed.

(** The engine after [search] is the engine before, or the engine with the
    lexicon's cache cleared and refilled from the result list. *)
Lemma search_state (X : Ext) (lex : string) (spec : SearchSpec) (allCaps : bool)
    (st : Engine) :
  ((search X lex spec allCaps st).1 = [] /\ (search X lex spec allCaps st).2 = st) \/
  ((search X lex spec allCaps st).1 <> [] /\
   (search X lex spec allCaps st).2
     = addToCache lex (search X lex spec allCaps st).1 (clearCache lex st)).
Proof.
  unfold search. destruct (st !! lex) as [ld|]; [|by left].
  cbv zeta.
  destruct (_ && bool_decide _); [by left|].
  destruct (_ && bool_decide _); [by left|].
  match goal with |- context [match ?l with [] => _ | _ :: _ => _ end] =>
    destruct l as [|w ws] end; [by left|].
  by right.
Qed.

Lemma cache_ok_elim (ld : LexiconData) (k : string) (v : WordInfo) :
  cache_ok ld -> wordCache ld !! k = Some v ->
  exists d r, db ld = Some d /\ In (k, r) (db_table d) /\ v = mkInfo k r.
Proof.
  intros H Hk. specialize (H k v Hk). simpl in H.
  destruct (db ld) as [d|]; [|done].
  apply Exists_exists in H as [[k' r] [Hin [Hk' Hv]]]. simpl in *. subst.
  exists d, r. by rewrite <-list_elem_of_In.
Qed.

Lemma cache_ok_intro (ld : LexiconData) :
  (forall k v, wordCache ld !! k = Some v ->
     exists d r, db ld = Some d /\ In (k, r) (db_table d) /\ v = mkInfo k r) ->
  cache_ok ld.
Proof.
  intros H k v Hk. destruct (H k v Hk) as (d & r & Hd & Hin & ->). simpl. rewrite Hd.
  apply Exists_exists. exists (k, r). by rewrite list_elem_of_In.
Qed.

Lemma engine_ok_insert (st : Engine) (lex : string) (ld : LexiconData) :
  engine_ok st -> db_ok ld -> cache_ok ld -> engine_ok (<[lex := ld]> st).
Proof. intros Hst Hdb Hc. by apply map_Forall_insert_2. Qed.

Lemma engine_ok_lookup (st : Engine) (lex : string) (ld : LexiconData) :
  engine_ok st -> st !! lex = Some ld -> db_ok ld /\ cache_ok ld.
Proof. intros Hst Hld. exact (Hst lex ld Hld). Qed.

Lemma getWordInfo_engine_ok (lex w : string) (st : Engine) :
  engine_ok st -> engine_ok (getWordInfo lex w st).2.
Proof.
  intros Hst. unfold getWordInfo.
  destruct (String.eqb w ""); [done|].
  destruct (st !! lex) as [ld|] eqn:Hld; [|done].
  destruct (wordCache ld !! w); [done|].
  destruct (db ld) as [d|] eqn:Hdb; [|done].
  destruct (db_open d); [|done].
  destruct (select_word (db_table d) w) as [r|] eqn:Hsel; [|done].
  destruct (engine_ok_lookup st lex ld Hst Hld) as [Hdbok Hc].
  apply engine_ok_insert; [done|done|]. apply cache_ok_intro. simpl.
  intros k v Hk. destruct (decide (w = k)) as [<-|Hne].
  - rewrite lookup_insert_eq in Hk. injection Hk as <-.
    exists d, r. split; [done|]. split; [by apply select_word_In|done].
  - rewrite lookup_insert_ne in Hk by done. by apply (cache_ok_elim ld).
Qed.

Lemma addToCache_engine_ok (lex : string) (ws : list string) (st : Engine) :
  engine_ok st -> engine_ok (addToCache lex ws st).
Proof.
  intros Hst. unfold addToCache. destruct ws as [|w ws]; [done|].
  destruct (st !! lex) as [ld|] eqn:Hld; [|done].
  destruct (db ld) as [d|] eqn:Hdb; [|done].
  destruct (db_open d); [|done].
  destruct (engine_ok_lookup st lex ld Hst Hld) as [Hdbok Hc].
  apply engine_ok_insert; [done|done|]. apply cache_ok_intro. simpl.
  intros k v Hk. apply fold_cache_lookup in Hk as [Hk|[r [Hin ->]]].
  - by apply (cache_ok_elim ld).
  - exists d, r. split; [done|]. split; [|done]. by apply select_in_In in Hin as [? _].
Qed.

Lemma clearCache_engine_ok (lex : string) (st : Engine) :
  engine_ok st -> engine_ok (clearCache lex st).
Proof.
  intros Hst. unfold clearCache. destruct (st !! lex) as [ld|] eqn:Hld; [|done].
  destruct (engine_ok_lookup st lex ld Hst Hld) as [Hdbok _].
  apply engine_ok_insert; [done|done|]. intros k v Hk. simpl in Hk.
  by rewrite lookup_empty in Hk.
Qed.

(** ** Invariants kept by every call *)

Section Preserve.
Context (Inv : Engine -> Prop).
Hypothesis Inv_getWordInfo : forall lex w st, Inv st -> Inv (getWordInfo lex w st).2.
Hypothesis Inv_addToCache : forall lex ws st, Inv st -> Inv (addToCache lex ws st).
Hypothesis Inv_clearCache : forall lex st, Inv st -> Inv (clearCache lex st).

Ltac getter_inv H :=
  match goal with
  | |- Inv (?g ?lex ?w ?st).2 =>
      let Hg := fresh in
      unfold g; pose proof (Inv_getWordInfo lex w st H) as Hg;
      destruct (getWordInfo lex w st); simpl in Hg;
      repeat case_match; simpl; assumption
  end.

Lemma Inv_getters (lex w : string) (st : Engine) :
  Inv st ->
  Inv (getPointValue lex w st).2 /\ Inv (getProbabilityOrder lex w st).2 /\
  Inv (getMinProbabilityOrder lex w st).2 /\ Inv (getMaxProbabilityOrder lex w st).2 /\
  Inv (getNumAnagrams lex w st).2 /\ Inv (getNumVowels lex w st).2 /\
  Inv (getNumUniqueLetters lex w st).2 /\ Inv (getIsFrontHook lex w st).2 /\
  Inv (getIsBackHook lex w st).2 /\ Inv (getLexiconSymbols lex w st).2.
Proof. intros H. repeat split; getter_inv H. Qed.

Lemma Inv_getDefinition (defs : Definitions) (lex w : string) (rl : bool) (st : Engine) :
  Inv st -> Inv (getDefinition st defs lex w rl).2.
Proof.
  intros H. unfold getDefinition. destruct (st !! lex); [|exact H].
  pose proof (Inv_getWordInfo lex w st H) as Hg.
  destruct (getWordInfo lex w st) as [i st']. simpl in Hg.
  repeat case_match; exact Hg.
Qed.

Lemma Inv_search (X : Ext) (lex : string) (spec : SearchSpec) (allCaps : bool) (st : Engine) :
  Inv st -> Inv (search X lex spec allCaps st).2.
Proof.
  intros H. destruct (search_state X lex spec allCaps st) as [[_ ->]|[_ ->]]; [exact H|].
  by apply Inv_addToCache, Inv_clearCache.
Qed.

Lemma Inv_hooks (X : Ext) (spec0 : SearchSpec) (cond0 : SearchCondition)
    (lex w : string) (st st' : Engine) (s : string) :
  Inv st ->
  (getFrontHookLetters X spec0 cond0 lex w st = Some (s, st') \/
   getBackHookLetters X spec0 cond0 lex w st = Some (s, st')) -> Inv st'.
Proof.
  intros H Hh. pose proof (Inv_getWordInfo lex w st H) as Hg.
  unfold getFrontHookLetters, getBackHookLetters in Hh.
  destruct (getWordInfo lex w st) as [i st1]. simpl in Hg.
  destruct (isValid i).
  - destruct Hh as [Hh|Hh]; by injection Hh as _ <-.
  - destruct Hh as [Hh|Hh].
    + pose proof (Inv_search X lex (hookSpec spec0 cond0 (String "?" w)) true st1 Hg) as Hs.
      destruct (search X lex _ true st1) as [words st2]. simpl in Hs.
      destruct (map_opt first_char words); [|discriminate]. by injection Hh as _ <-.
    + pose proof (Inv_search X lex (hookSpec spec0 cond0 (w +:+ "?")) true st1 Hg) as Hs.
      destruct (search X lex _ true st1) as [words st2]. simpl in Hs.
      destruct (map_opt last_char words); [|discriminate]. by injection Hh as _ <-.
Qed.

Lemma Inv_ng_test (lex : string) (b : NGBounds) (tA tV tU tP : bool) (w : string)
    (st : Engine) :
  Inv st -> Inv (ng_test lex b tA tV tU tP w st).2.
Proof.
  intros H. unfold ng_test.
  repeat match goal with
  | H : Inv ?s |- context [getNumAnagrams ?l ?w ?s] =>
      let Hs := fresh in destruct (Inv_getters l w s H) as (_ & _ & _ & _ & Hs & _);
      destruct (getNumAnagrams l w s); simpl in Hs
  | H : Inv ?s |- context [getNumVowels ?l ?w ?s] =>
      let Hs := fresh in destruct (Inv_getters l w s H) as (_ & _ & _ & _ & _ & Hs & _);
      destruct (getNumVowels l w s); simpl in Hs
  | H : Inv ?s |- context [getNumUniqueLetters ?l ?w ?s] =>
      let Hs := fresh in destruct (Inv_getters l w s H) as (_ & _ & _ & _ & _ & _ & Hs & _);
      destruct (getNumUniqueLetters l w s); simpl in Hs
  | H : Inv ?s |- context [getPointValue ?l ?w ?s] =>
      let Hs := fresh in destruct (Inv_getters l w s H) as (Hs & _);
      destruct (getPointValue l w s); simpl in Hs
  | |- context [if ?c then _ else _] => destruct c
  | |- _ => progress cbn beta iota
  end; simpl; assumption.
Qed.

Lemma Inv_ng_fold (lex : string) (b : NGBounds) (tA tV tU tP : bool) (l : list string)
    (acc : gset string * Engine) :
  Inv acc.2 ->
  Inv (fold_left (fun acc w =>
                    let '(ws, s) := acc in
                    let '(ok, s') := ng_test lex b tA tV tU tP w s in
                    (if ok then {[w]} ∪ ws else ws, s')) l acc).2.
Proof.
  revert acc. induction l as [|w l IH]; intros [ws st] H; [exact H|].
  simpl. pose proof (Inv_ng_test lex b tA tV tU tP w st H) as Ht.
  destruct (ng_test lex b tA tV tU tP w st) as [ok s']. apply IH, Ht.
Qed.

Lemma Inv_nonGraphSearch (MAX_WORD_LEN : Z) (lex : string) (spec : SearchSpec) (st : Engine) :
  Inv st -> Inv (nonGraphSearch MAX_WORD_LEN st lex spec).2.
Proof.
  intros H. unfold nonGraphSearch.
  destruct (ng_loop _ _ _ _ _ _ _) as [[b final]|]; [|exact H].
  cbv zeta. destruct (_ || _); [|exact H].
  by apply Inv_ng_fold.
Qed.

End Preserve.

Lemma importLines_keeps (ld : LexiconData) (lines : list string) :
  db (importLines ld lines).1 = db ld /\ wordCache (importLines ld lines).1 = wordCache ld.
Proof.
  revert ld. induction lines as [|l ls IH]; intros ld; simpl; [done|].
  destruct (importLine ld l) as [ld1 ok] eqn:E1.
  destruct (importLines ld1 ls) as [ld2 n] eqn:E2. simpl.
  assert (Hl : db ld1 = db ld /\ wordCache ld1 = wordCache ld).
  { unfold importLine in E1. destruct (Str.simplified l) as [|c r];
      [by injection E1 as <-|].
    destruct (Ascii.eqb c "#"); [by injection E1 as <-|]. by injection E1 as <-. }
  specialize (IH ld1). rewrite E2 in IH. simpl in IH. destruct IH, Hl. split; congruence.
Qed.

(** A lexicon-wise invariant that reads only [db] and [wordCache] is kept
    by the imports. *)
Section ImportFrame.
Context (Q : LexiconData -> Prop).
Hypothesis Q_frame : forall ld ld', db ld' = db ld -> wordCache ld' = wordCache ld -> Q ld -> Q ld'.
Hypothesis Q_new : Q newLexiconData.

Lemma importTextFile_frame (lex : string) (f : option (list string)) (st : Engine) :
  map_Forall (fun _ ld => Q ld) st ->
  map_Forall (fun _ ld => Q ld) (importTextFile lex f st).2.
Proof.
  intros H. unfold importTextFile.
  assert (H0 : map_Forall (fun _ ld => Q ld)
                 (match st !! lex with Some _ => st | None => <[lex := newLexiconData]> st end)).
  { destruct (st !! lex); [exact H|]. by apply map_Forall_insert_2. }
  revert H0. generalize (match st !! lex with Some _ => st | None => <[lex := newLexiconData]> st end).
  intros st0 H0. destruct f as [lines|]; [|exact H0].
  destruct (st0 !! lex) as [ld|] eqn:Hl; [|exact H0].
  destruct (importLines_keeps ld lines) as [Hd Hc].
  destruct (importLines ld lines) as [ld' n]. simpl in *.
  apply map_Forall_insert_2; [|exact H0]. apply (Q_frame ld); [done|done|]. exact (H0 lex ld Hl).
Qed.

Lemma importStems_frame (lex : string) (f : option (list string)) (st : Engine) :
  map_Forall (fun _ ld => Q ld) st ->
  map_Forall (fun _ ld => Q ld) (importStems lex f st).2.
Proof.
  intros H. unfold importStems. destruct (st !! lex) as [ld|] eqn:Hl; [|exact H].
  destruct f as [lines|]; [|exact H].
  destruct (importStems_go lines [] ∅ 0 0) as [[[words alphas] imported] len]. simpl.
  apply map_Forall_insert_2; [|exact H]. apply (Q_frame ld); [done|done|]. exact (H lex ld Hl).
Qed.

End ImportFrame.

Lemma cache_rows_getWordInfo (lex w : string) (st : Engine) :
  cache_rows st -> cache_rows (getWordInfo lex w st).2.
Proof.
  intros Hst. unfold getWordInfo.
  destruct (String.eqb w ""); [done|].
  destruct (st !! lex) as [ld|] eqn:Hld; [|done].
  destruct (wordCache ld !! w); [done|].
  destruct (db ld) as [d|]; [|done]. destruct (db_open d); [|done].
  destruct (select_word (db_table d) w) as [r|]; [|done].
  apply map_Forall_insert_2; [|done]. intros k v Hk. simpl in Hk.
  destruct (decide (w = k)) as [<-|Hne].
  - rewrite lookup_insert_eq in Hk. injection Hk as <-. by exists r.
  - rewrite lookup_insert_ne in Hk by done. exact (Hst lex ld Hld k v Hk).
Qed.

Lemma cache_rows_addToCache (lex : string) (ws : list string) (st : Engine) :
  cache_rows st -> cache_rows (addToCache lex ws st).
Proof.
  intros Hst. unfold addToCache. destruct ws as [|w ws]; [done|].
  destruct (st !! lex) as [ld|] eqn:Hld; [|done].
  destruct (db ld) as [d|]; [|done]. destruct (db_open d); [|done].
  apply map_Forall_insert_2; [|done]. intros k v Hk. simpl in Hk.
  apply fold_cache_lookup in Hk as [Hk|[r [_ ->]]]; [|by exists r].
  exact (Hst lex ld Hld k v Hk).
Qed.

Lemma cache_rows_clearCache (lex : string) (st : Engine) :
  cache_rows st -> cache_rows (clearCache lex st).
Proof.
  intros Hst. unfold clearCache. destruct (st !! lex) as [ld|]; [|done].
  apply map_Forall_insert_2; [|done]. intros k v Hk. simpl in Hk.
  by rewrite lookup_empty in Hk.
Qed.

Lemma engine_step_inv (Inv : Engine -> Prop) (X : Ext) (MAX_WORD_LEN : Z)
    (spec0 : SearchSpec) (cond0 : SearchCondition) :
  (forall lex w st, Inv st -> Inv (getWordInfo lex w st).2) ->
  (forall lex ws st, Inv st -> Inv (addToCache lex ws st)) ->
  (forall lex st, Inv st -> Inv (clearCache lex st)) ->
  (forall lex f st, Inv st -> Inv (importTextFile lex f st).2) ->
  (forall lex f st, Inv st -> Inv (importStems lex f st).2) ->
  forall st st', engine_step X MAX_WORD_LEN spec0 cond0 st st' -> Inv st -> Inv st'.
Proof.
  intros Hg Ha Hc Hi Hs st st' Hstep H.
  inversion Hstep; subst;
    try (match goal with
         | |- Inv (?g ?lex ?w st).2 =>
             destruct (Inv_getters Inv Hg lex w st H) as (? & ? & ? & ? & ? & ? & ? & ? & ? & ?);
             assumption
         end).
  - by apply Hg.
  - by apply Inv_getDefinition.
  - eapply Inv_hooks; [exact Hg|exact Ha|exact Hc|exact H|left; eassumption].
  - eapply Inv_hooks; [exact Hg|exact Ha|exact Hc|exact H|right; eassumption].
  - by apply Ha.
  - by apply Hc.
  - by apply Inv_search.
  - by apply Inv_nonGraphSearch.
  - by apply Hi.
  - by apply Hs.
Qed.

Lemma cache_rows_connect (lex : string) (t : option (list (string * Row))) (b : bool)
    (st st' : Engine) :
  connectToDatabase lex t st = Some (b, st') -> cache_rows st -> cache_rows st'.
Proof.
  intros Hc Hst. unfold connectToDatabase in Hc.
  destruct t as [t|]; [|by injection Hc as _ <-].
  destruct (st !! lex) as [ld|] eqn:Hl; [|discriminate]. injection Hc as _ <-.
  apply map_Forall_insert_2; [|done]. exact (Hst lex ld Hl).
Qed.

Lemma cache_rows_disconnect (lex : string) (st : Engine) :
  cache_rows st -> cache_rows (disconnectFromDatabase lex st).2.
Proof.
  intros Hst. unfold disconnectFromDatabase.
  destruct (st !! lex) as [ld|] eqn:Hl; [|done].
  destruct (db ld) as [d|]; [|done]. destruct (db_open d); [|done].
  apply map_Forall_insert_2; [|done]. exact (Hst lex ld Hl).
Qed.

Lemma cache_rows_step (X : Ext) (MAX_WORD_LEN : Z) (spec0 : SearchSpec)
    (cond0 : SearchCondition) (st st' : Engine) :
  engine_step_db X MAX_WORD_LEN spec0 cond0 st st' -> cache_rows st -> cache_rows st'.
Proof.
  intros Hs. destruct Hs as [st st' Hs|lex t b st st' Hc|lex st].
  - apply (engine_step_inv cache_rows X MAX_WORD_LEN spec0 cond0); [..|exact Hs].
    + apply cache_rows_getWordInfo.
    + apply cache_rows_addToCache.
    + apply cache_rows_clearCache.
    + intros lex f st0. apply (importTextFile_frame cache_rows_ld);
        [intros ld ld' _ Hc; unfold cache_rows_ld; by rewrite Hc|..];
        try apply map_Forall_empty.
    + intros lex f st0. apply (importStems_frame cache_rows_ld);
        [intros ld ld' _ Hc; unfold cache_rows_ld; by rewrite Hc|..];
        try apply map_Forall_empty.
  - exact (cache_rows_connect lex t b st st' Hc).
  - apply cache_rows_disconnect.
Qed.

Lemma engine_ok_step (X : Ext) (MAX_WORD_LEN : Z) (spec0 : SearchSpec)
    (cond0 : SearchCondition) (st st' : Engine) :
  engine_step X MAX_WORD_LEN spec0 cond0 st st' -> engine_ok st -> engine_ok st'.
Proof.
  apply engine_step_inv.
  - apply getWordInfo_engine_ok.
  - apply addToCache_engine_ok.
  - apply clearCache_engine_ok.
  - intros lex f st0. apply (importTextFile_frame (fun ld => db_ok ld /\ cache_ok ld));
      [intros ld ld' Hd Hc; unfold db_ok, cache_ok; by rewrite Hd, Hc|..];
      try (split; [done|apply map_Forall_empty]).
  - intros lex f st0. apply (importStems_frame (fun ld => db_ok ld /\ cache_ok ld));
      [intros ld ld' Hd Hc; unfold db_ok, cache_ok; by rewrite Hd, Hc|..];
      try (split; [done|apply map_Forall_empty]).
Qed.

(** C10 (counterexample): the cache survives a change of database.  After
    a search has cached CAT, connecting the lexicon to a table that has
    only DOG leaves CAT in the cache: [getWordInfo] answers it with the old
    row, valid, without a query, although the table now has no row for it. *)
Lemma stale_cache_after_reconnect :
  exists st2,
    rtc (engine_step_db X0 15 lengthSpec (cond Length "")) st_catdog st2 /\
    connectToDatabase "L" (Some [("DOG", row0)])
      (search X0 "L" (wordListSpec "CAT") false st_catdog).2 = Some (true, st2) /\
    select_word [("DOG", row0)] "CAT" = None /\
    getWordInfo "L" "CAT" st2 = (mkInfo "CAT" row0, st2) /\
    isValid (mkInfo "CAT" row0) = true.
Proof.
  destruct (connectToDatabase "L" (Some [("DOG", row0)])
              (search X0 "L" (wordListSpec "CAT") false st_catdog).2) as [[b st2]|] eqn:E;
    [|vm_compute in E; discriminate].
  exists st2. split.
  - eapply rtc_l; [apply step_other, step_search|].
    eapply rtc_l; [eapply step_connect; exact E|]. apply rtc_refl.
  - vm_compute in E. injection E as <- <-.
    split; [reflexivity|]. split; [reflexivity|]. split; vm_compute; reflexivity.
Qed.

(** C10 (amended): in every state reached from an engine whose caches hold
    only row entries (the empty engine, for one) by any sequence of calls,
    connecting and disconnecting included, every cache entry is the full
    [WordInfo] of a database row stored under the row's own word, valid
    exactly when that word is not empty. A word that is not cached and has
    no row is answered with the invalid [WordInfo()] and leaves the engine
    unchanged, so it is never cached. Only as long as no database is
    connected or disconnected are the entries rows of the lexicon's current
    table: every call but those two keeps [engine_ok]. *)
Theorem cache_holds_only_rows (X : Ext) (MAX_WORD_LEN : Z) (spec0 : SearchSpec)
    (cond0 : SearchCondition) (st st' : Engine) :
  cache_rows ∅ /\ engine_ok ∅ /\
  (cache_rows st -> rtc (engine_step_db X MAX_WORD_LEN spec0 cond0) st st' ->
   cache_rows st' /\
   forall lex ld k v, st' !! lex = Some ld -> wordCache ld !! k = Some v ->
     wi_word v = k /\ (isValid v = true <-> k <> "") /\ exists r, v = mkInfo k r) /\
  (engine_ok st -> rtc (engine_step X MAX_WORD_LEN spec0 cond0) st st' ->
   engine_ok st' /\
   forall lex ld k v, st' !! lex = Some ld -> wordCache ld !! k = Some v ->
     isValid v = true /\
     exists d r, db ld = Some d /\ In (k, r) (db_table d) /\ v = mkInfo k r) /\
  (forall lex ld w, st' !! lex = Some ld -> wordCache ld !! w = None ->
     (forall d, db ld = Some d -> select_word (db_table d) w = None) ->
     getWordInfo lex w st' = (emptyInfo, st')).
Proof.
  split; [apply map_Forall_empty|].
  split; [apply map_Forall_empty|].
  split; [|split].
  - intros Hst Hr.
    assert (Hst' : cache_rows st').
    { induction Hr as [st|st1 st2 st3 Hs Hr IH]; [exact Hst|].
      apply IH. exact (cache_rows_step X MAX_WORD_LEN spec0 cond0 st1 st2 Hs Hst). }
    split; [exact Hst'|]. intros lex ld k v Hld Hk.
    destruct (Hst' lex ld Hld k v Hk) as [r ->].
    split; [done|]. split; [|by exists r].
    unfold isValid. simpl. destruct (String.eqb_spec k ""); simpl; split; congruence.
  - intros Hst Hr.
    assert (Hst' : engine_ok st').
    { induction Hr as [st|st1 st2 st3 Hs Hr IH]; [exact Hst|].
      apply IH. exact (engine_ok_step X MAX_WORD_LEN spec0 cond0 st1 st2 Hs Hst). }
    split; [exact Hst'|]. intros lex ld k v Hld Hk.
    destruct (Hst' lex ld Hld) as [Hdbok Hc].
    specialize (Hc k v Hk). simpl in Hc. unfold db_ok in Hdbok.
    destruct (db ld) as [d|] eqn:Hd; [|done].
    apply Exists_exists in Hc as [[k' r] [Hin [Hk' ->]]]. simpl in Hk'. subst k'.
    rewrite Forall_forall in Hdbok. specialize (Hdbok _ Hin). simpl in Hdbok.
    split.
    + unfold isValid. simpl. by destruct (String.eqb_spec k "").
    + exists d, r. split; [done|]. split; [|done]. by apply list_elem_of_In.
  - intros lex ld w Hld Hw Hsel. unfold getWordInfo.
    destruct (String.eqb w ""); [done|]. rewrite Hld, Hw.
    destruct (db ld) as [d|] eqn:Hd; [|done].
    rewrite (Hsel d eq_refl). by destruct (db_open d).
Qed.

Lemma cache_holds_only_rows_witness :
  cache_rows st_catdog /\ engine_ok st_catdog /\
  getWordInfo "L" "EEL" st_catdog = (emptyInfo, st_catdog) /\
  (forall ld k v, (search X0 "L" (wordListSpec "CAT") false st_catdog).2 !! "L" = Some ld ->
     wordCache ld !! k = Some v -> wi_word v = k).
Proof.
  assert (Hr : cache_rows st_catdog) by
    (unfold cache_rows, st_catdog; apply map_Forall_singleton; apply map_Forall_empty).
  assert (H : engine_ok st_catdog) by (apply (bool_decide_unpack _); vm_compute; reflexivity).
  split; [exact Hr|]. split; [exact H|].
  destruct (cache_holds_only_rows X0 15 lengthSpec (cond Length "") st_catdog st_catdog)
    as (_ & _ & _ & _ & Habs).
  split.
  - apply (Habs "L" (lexWith ["CAT"; "DOG"] (Some db_catdog))); [reflexivity|reflexivity|].
    intros d Hd. injection Hd as <-. reflexivity.
  - intros ld k v Hl Hk.
    destruct (cache_holds_only_rows X0 15 lengthSpec (cond Length "") st_catdog
                (search X0 "L" (wordListSpec "CAT") false st_catdog).2)
      as (_ & _ & Hrows & _).
    destruct Hrows as [_ Hall];
      [exact Hr|eapply rtc_l; [apply step_other, step_search|apply rtc_refl]|].
    exact (proj1 (Hall "L" ld k v Hl Hk)).
Defined.

(** C9: on a known lexicon, [search] leaves the whole engine unchanged when
    its result is empty; when the result is non-empty the only change is
    the lexicon's cache, which is replaced by the entries of one bulk fetch:
    every entry is the row of a returned word, and every returned word that
    has a row in the open database is cached. *)
Theorem search_refreshes_cache (X : Ext) (lex : string) (spec : SearchSpec)
    (allCaps : bool) (st : Engine) (ld : LexiconData) :
  st !! lex = Some ld ->
  ((search X lex spec allCaps st).1 = [] -> (search X lex spec allCaps st).2 = st) /\
  ((search X lex spec allCaps st).1 <> [] ->
   exists c, (search X lex spec allCaps st).2 = <[lex := set_cache ld c]> st /\
     (forall k v, c !! k = Some v ->
        In k (search X lex spec allCaps st).1 /\
        exists d r, db ld = Some d /\ db_open d = true /\ In (k, r) (db_table d) /\
                    v = mkInfo k r) /\
     (forall d k r, db ld = Some d -> db_open d = true ->
        In k (search X lex spec allCaps st).1 -> In (k, r) (db_table d) ->
        is_Some (c !! k))).
Proof.
  intros Hld.
  destruct (search_state X lex spec allCaps st) as [[Hres Hst]|[Hres Hst]].
  - split; [done|]. by intros [].
  - split; [done|]. intros _. rewrite Hst.
    destruct (add_after_clear lex _ st ld Hld Hres) as (c & Heq & Hin & Hall).
    exists c. split; [exact Heq|]. split.
    + intros k v Hk. destruct (Hin k v Hk) as (d & r & Hd & Hop & Hsel & ->).
      apply select_in_In in Hsel as [Ht Hw]. split; [exact Hw|].
      by exists d, r.
    + intros d k r Hd Hop Hk Ht. apply (Hall d k r Hd Hop).
      by apply select_in_In.
Qed.

Lemma search_refreshes_cache_witness :
  st_catdog !! "L" = Some (lexWith ["CAT"; "DOG"] (Some db_catdog)) /\
  (search X0 "L" wordlist_spec false st_catdog).1 = ["CAT"] /\
  ((search X0 "L" wordlist_spec false st_catdog).1 <> [] ->
   exists c, (search X0 "L" wordlist_spec false st_catdog).2
     = <[ "L" := set_cache (lexWith ["CAT"; "DOG"] (Some db_catdog)) c]> st_catdog /\
     (forall k v, c !! k = Some v ->
        In k (search X0 "L" wordlist_spec false st_catdog).1 /\
        exists d r, db (lexWith ["CAT"; "DOG"] (Some db_catdog)) = Some d /\
                    db_open d = true /\ In (k, r) (db_table d) /\ v = mkInfo k r) /\
     (forall d k r, db (lexWith ["CAT"; "DOG"] (Some db_catdog)) = Some d -> db_open d = true ->
        In k (search X0 "L" wordlist_spec false st_catdog).1 -> In (k, r) (db_table d) ->
        is_Some (c !! k))).
Proof.
  assert (H : st_catdog !! "L" = Some (lexWith ["CAT"; "DOG"] (Some db_catdog)))
    by reflexivity.
  split; [exact H|]. split; [vm_compute; reflexivity|].
  exact (proj2 (search_refreshes_cache X0 "L" wordlist_spec false st_catdog _ H)).
Defined.

(* ------------------------------------------------------------------ *)
(** ** Text import and the anagram counts *)

Lemma importLine_graph (ld : LexiconData) (raw : string) :
  graph (importLine ld raw).1
  = match line_word raw with None => graph ld | Some w => {[w]} ∪ graph ld end.
Proof.
  unfold importLine, line_word. destruct (Str.simplified raw) as [|c rest]; [done|].
  by destruct (Ascii.eqb c "#").
Qed.

Lemma importLine_counts (ld : LexiconData) (raw : string) :
  counts_ok ld -> counts_ok (importLine ld raw).1.
Proof.
  unfold importLine. destruct (Str.simplified raw) as [|c rest]; [done|].
  destruct (Ascii.eqb c "#"); [done|].
  set (w := Str.toUpper (Str.section0 (String c rest))). clearbody w.
  intros H a. cbn [graph numAnagramsMap fst].
  destruct (decide (w ∈ graph ld)) as [Hin|Hin];
    [rewrite bool_decide_true by done|rewrite bool_decide_false by done].
  - replace ({[w]} ∪ graph ld) with (graph ld) by set_solver. apply H.
  - rewrite filter_union_L; [|typeclasses eauto]. rewrite size_union; [|set_solver].
    rewrite filter_singleton_L; [|typeclasses eauto]. destruct (decide (getAlphagram w = a)) as [<-|Hne].
    + rewrite lookup_insert_eq, size_singleton. simpl. rewrite H. lia.
    + rewrite lookup_insert_ne by done. rewrite size_empty, H. lia.
Qed.

Lemma importLines_ok (ld : LexiconData) (lines : list string) :
  counts_ok ld ->
  counts_ok (importLines ld lines).1 /\
  graph (importLines ld lines).1 = list_to_set (imported_words lines) ∪ graph ld.
Proof.
  revert ld. induction lines as [|l ls IH]; intros ld Hok; simpl.
  - split; [done|]. set_solver.
  - pose proof (importLine_graph ld l) as Hg. pose proof (importLine_counts ld l Hok) as Hc.
    destruct (importLine ld l) as [ld1 ok]. simpl in Hg, Hc.
    destruct (IH ld1 Hc) as [Hc2 Hg2].
    destruct (importLines ld1 ls) as [ld2 n]. simpl in *. split; [done|].
    rewrite Hg2, Hg, list_to_set_app_L. destruct (line_word l); simpl; set_solver.
Qed.

Lemma counts_ok_new : counts_ok newLexiconData.
Proof.
  intros a. simpl. rewrite lookup_empty, filter_empty_L; [|typeclasses eauto].
  by rewrite size_empty.
Qed.

Lemma importTextFile_ok (lex : string) (f : option (list string)) (st : Engine)
    (G : gset string) :
  (forall ld, st !! lex = Some ld -> counts_ok ld /\ graph ld = G) ->
  (st !! lex = None -> G = ∅) ->
  exists ld', (importTextFile lex f st).2 !! lex = Some ld' /\ counts_ok ld' /\
              graph ld' = list_to_set (file_words f) ∪ G.
Proof.
  intros Hsome Hnone. unfold importTextFile.
  destruct (st !! lex) as [ld|] eqn:Hst.
  - destruct (Hsome ld eq_refl) as [Hok <-]. rewrite Hst.
    destruct f as [lines|]; simpl.
    + pose proof (importLines_ok ld lines Hok) as [Hc Hg].
      destruct (importLines ld lines) as [ld' n]. simpl in *.
      exists ld'. by rewrite lookup_insert_eq.
    + exists ld. split; [done|]. split; [done|]. set_solver.
  - rewrite (Hnone eq_refl), lookup_insert_eq.
    destruct f as [lines|]; simpl.
    + pose proof (importLines_ok newLexiconData lines counts_ok_new) as [Hc Hg].
      destruct (importLines newLexiconData lines) as [ld' n]. simpl in *.
      exists ld'. rewrite lookup_insert_eq. split; [done|]. split; [done|].
      rewrite Hg. set_solver.
    + exists newLexiconData. rewrite lookup_insert_eq. split; [done|].
      split; [apply counts_ok_new|]. simpl. set_solver.
Qed.

Lemma importTextFiles_ok (lex : string) (files : list (option (list string)))
    (st : Engine) (G : gset string) :
  (forall ld, st !! lex = Some ld -> counts_ok ld /\ graph ld = G) ->
  (st !! lex = None -> G = ∅) ->
  forall ld, importTextFiles lex files st !! lex = Some ld ->
    counts_ok ld /\ graph ld = list_to_set (concat (map file_words files)) ∪ G.
Proof.
  revert st G. induction files as [|f fs IH]; intros st G Hsome Hnone ld Hld; simpl in *.
  - destruct (Hsome ld Hld) as [Hc Hg]. split; [done|]. rewrite Hg. set_solver.
  - destruct (importTextFile_ok lex f st G Hsome Hnone) as (ld' & Hld' & Hc' & Hg').
    unfold importTextFiles in IH.
    destruct (IH (importTextFile lex f st).2 (list_to_set (file_words f) ∪ G))
      with (ld := ld) as [Hc Hg].
    + intros ld'' Hl. rewrite Hld' in Hl. injection Hl as <-. done.
    + rewrite Hld'. discriminate.
    + exact Hld.
    + split; [done|]. rewrite Hg, list_to_set_app_L. set_solver.
Qed.

Lemma importLine_counts_step (ld : LexiconData) (raw w : string) :
  line_word raw = Some w ->
  numAnagramsMap (importLine ld raw).1
  = if bool_decide (w ∈ graph ld) then numAnagramsMap ld
    else <[getAlphagram w := default 0 (numAnagramsMap ld !! getAlphagram w) + 1]>
           (numAnagramsMap ld).
Proof.
  unfold importLine, line_word. destruct (Str.simplified raw) as [|c rest]; [discriminate|].
  destruct (Ascii.eqb c "#"); [discriminate|]. by intros [= <-].
Qed.

(** C5: a line whose word is already in the graph leaves the anagram
    counts alone, a line with a new word adds one to the count of its
    alphagram; so after any sequence of text imports into a fresh lexicon
    the graph is the set of imported words and the count of an alphagram
    is the number of distinct imported words with that alphagram. *)
Theorem text_import_counts_distinct (lex : string)
    (files : list (option (list string))) (st : Engine) :
  st !! lex = None ->
  (forall ld raw w, line_word raw = Some w -> w ∈ graph ld ->
     numAnagramsMap (importLine ld raw).1 = numAnagramsMap ld) /\
  (forall ld raw w, line_word raw = Some w -> w ∉ graph ld ->
     numAnagramsMap (importLine ld raw).1
     = <[getAlphagram w := default 0 (numAnagramsMap ld !! getAlphagram w) + 1]>
         (numAnagramsMap ld)) /\
  (forall ld, importTextFiles lex files st !! lex = Some ld ->
     graph ld = list_to_set (concat (map file_words files)) /\
     forall a, default 0 (numAnagramsMap ld !! a)
       = Z.of_nat (size (filter (fun w => getAlphagram w = a)
                          (list_to_set (concat (map file_words files)) : gset string)))).
Proof.
  intros Hnone. split; [|split].
  - intros ld raw w Hw Hin. rewrite (importLine_counts_step ld raw w Hw).
    by rewrite bool_decide_true.
  - intros ld raw w Hw Hin. rewrite (importLine_counts_step ld raw w Hw).
    by rewrite bool_decide_false.
  - intros ld Hld.
    destruct (importTextFiles_ok lex files st ∅) with (ld := ld) as [Hc Hg].
    + intros ld' Hl. by rewrite Hnone in Hl.
    + done.
    + exact Hld.
    + assert (Hg' : graph ld = list_to_set (concat (map file_words files)))
        by (rewrite Hg; set_solver).
      split; [exact Hg'|]. intros a. rewrite <-Hg'. apply Hc.
Qed.

Lemma text_import_counts_distinct_witness :
  (∅ : Engine) !! "L" = None /\
  forall ld, importTextFiles "L" catFiles ∅ !! "L" = Some ld ->
    default 0 (numAnagramsMap ld !! "ACT") = 3.
Proof.
  assert (H0 : (∅ : Engine) !! "L" = None) by reflexivity.
  split; [exact H0|]. intros ld Hld.
  destruct (text_import_counts_distinct "L" catFiles ∅ H0) as (_ & _ & H).
  destruct (H ld Hld) as [_ Hc]. rewrite Hc. vm_compute. reflexivity.
Defined.

(* ------------------------------------------------------------------ *)
(** ** Type-One sevens and eights *)

Lemma alpha_insert_length (c : ascii) (s : string) :
  String.length (alpha_insert c s) = S (String.length s).
Proof.
  induction s as [|d s IH]; simpl; [done|].
  destruct (N_of_ascii c <=? N_of_ascii d)%N; simpl; [done|]. by rewrite IH.
Qed.

Lemma getAlphagram_length (s : string) : String.length (getAlphagram s) = String.length s.
Proof. induction s as [|c s IH]; simpl; [done|]. by rewrite alpha_insert_length, IH. Qed.

Lemma remove_at_length (i : nat) (s : string) :
  (S (String.length (Str.remove_at i s)) >= String.length s)%nat.
Proof.
  revert i. induction s as [|c s IH]; intros [|i]; simpl; try lia.
  specialize (IH i). lia.
Qed.

Lemma subseq_length (s t : string) : subseq s t -> (String.length s <= String.length t)%nat.
Proof. induction 1; simpl; lia. Qed.

Lemma subseq_tail (c : ascii) (s t : string) : subseq (String c s) t -> subseq s t.
Proof.
  intros H. remember (String c s) as u eqn:Hu. revert c s Hu.
  induction H as [t|d s' t H IH|d s' t H IH]; intros c s Hu; [discriminate| |].
  - injection Hu as -> ->. by apply subseq_skip.
  - apply subseq_skip. by apply (IH c).
Qed.

Lemma subseq_cons_inv (c d : ascii) (s t : string) :
  subseq (String c s) (String d t) <-> (c = d /\ subseq s t) \/ subseq (String c s) t.
Proof.
  split.
  - intros H. inversion H; subst; [left; by split|by right].
  - intros [[-> H]|H]; [by apply subseq_take|by apply subseq_skip].
Qed.

(** The greedy comparison of [isSetMember] for Type-One eights decides
    whether the stem alphagram is a subsequence of the word's alphagram,
    when the word has two more letters than the stem. *)
Lemma eights_missing_subseq (agram sa : string) (m : nat) :
  (String.length agram + m = String.length sa + 2)%nat -> (m <= 2)%nat ->
  ((eights_missing agram sa m <= 2)%nat <-> subseq sa agram).
Proof.
  revert sa m. induction agram as [|a ag IH]; intros sa m Hlen Hm.
  - destruct sa as [|b sa]; simpl in *; [|lia].
    split; [intros _; constructor|lia].
  - destruct sa as [|b sa].
    + simpl. split; [intros _; constructor|lia].
    + cbn [eights_missing]. rewrite subseq_cons_inv.
      destruct (Ascii.eqb_spec a b) as [->|Hne].
      * assert (Hlt : (2 <? m)%nat = false) by (apply Nat.ltb_ge; lia).
        rewrite Hlt. rewrite (IH sa m) by (simpl in Hlen; lia).
        split; [intros H; left; by split|].
        intros [[_ H]|H]; [done|]. by apply (subseq_tail b).
      * destruct (2 <? S m)%nat eqn:Hlt.
        -- apply Nat.ltb_lt in Hlt. split; [lia|].
           intros [[-> _]|H]; [done|]. apply subseq_length in H. simpl in *. lia.
        -- apply Nat.ltb_ge in Hlt. rewrite (IH (String b sa) (S m)) by (simpl in *; lia).
           split; [by right|]. intros [[-> _]|H]; [done|exact H].
Qed.

(** C7 (counterexample to the eights half as stated): AEINSTRS is a
    Type-One eight over the stem alphagram AEINST, yet no alphagram of it
    with a single letter removed is in the stem-alphagram set for
    length 8 - 2. *)
Lemma type_one_eight_no_single_removal :
  typeOneEight stemLd "AEINSTRS" = true /\
  ~ (exists S, stemAlphagrams stemLd !! 6%nat = Some S /\
       exists i, Str.remove_at i (getAlphagram "AEINSTRS") ∈ S).
Proof.
  split; [vm_compute; reflexivity|].
  intros (S & HS & i & Hi). unfold stemLd in HS. simpl in HS.
  rewrite lookup_singleton_eq in HS. injection HS as <-.
  apply elem_of_singleton in Hi.
  pose proof (remove_at_length i (getAlphagram "AEINSTRS")) as Hlen.
  rewrite Hi, getAlphagram_length in Hlen. simpl in Hlen. lia.
Qed.

(** C7 (amended): when every stem alphagram of length 6 has six letters
    (as [importStems] stores them), a word is a Type-One seven iff it has
    seven letters and its alphagram with the letter at some position
    removed is a length-6 stem alphagram, and a Type-One eight iff it has
    eight letters and some length-6 stem alphagram is its alphagram with
    two letters removed (a subsequence of it). *)
Theorem type_one_by_removal (ld : LexiconData) (word : string)
    (Hsix : Forall (fun sa => String.length sa = 6%nat)
                   (elements (default ∅ (stemAlphagrams ld !! 6%nat)))) :
  (typeOneSeven ld word = true <->
     String.length word = 7%nat /\
     exists S, stemAlphagrams ld !! 6%nat = Some S /\
       exists i, (i < 7)%nat /\ Str.remove_at i (getAlphagram word) ∈ S) /\
  (typeOneEight ld word = true <->
     String.length word = 8%nat /\
     exists S, stemAlphagrams ld !! 6%nat = Some S /\
       exists sa, sa ∈ S /\ subseq sa (getAlphagram word)).
Proof.
  split.
  - unfold typeOneSeven. destruct (String.length word =? 7)%nat eqn:H7.
    + apply Nat.eqb_eq in H7. rewrite H7. cbn [negb].
      replace (7 - 1)%nat with 6%nat by lia.
      destruct (stemAlphagrams ld !! 6%nat) as [S|].
      * rewrite existsb_exists. split.
        -- intros [i [Hi Hin]]. apply in_seq in Hi.
           rewrite getAlphagram_length, H7 in Hi.
           apply bool_decide_eq_true in Hin.
           split; [done|]. exists S. split; [done|]. exists i. split; [lia|done].
        -- intros (_ & S' & [= <-] & i & Hi & Hin). exists i. split.
           ++ apply in_seq. rewrite getAlphagram_length, H7. lia.
           ++ by apply bool_decide_eq_true.
      * split; [discriminate|]. by intros (_ & S & ? & _).
    + split; [discriminate|]. intros [H _]. apply Nat.eqb_neq in H7. contradiction.
  - unfold typeOneEight. destruct (String.length word =? 8)%nat eqn:H8.
    + apply Nat.eqb_eq in H8. rewrite H8. cbn [negb].
      replace (8 - 2)%nat with 6%nat by lia.
      destruct (stemAlphagrams ld !! 6%nat) as [S|]; simpl in Hsix.
      * rewrite Forall_forall in Hsix. rewrite existsb_exists. split.
        -- intros [sa [Hin Hm]]. apply Nat.leb_le in Hm.
           apply list_elem_of_In in Hin. pose proof (Hsix sa Hin) as Hl.
           apply elem_of_elements in Hin.
           split; [done|]. exists S. split; [done|]. exists sa. split; [done|].
           apply (eights_missing_subseq _ _ 0); [rewrite getAlphagram_length; lia|lia|done].
        -- intros (_ & S' & [= <-] & sa & Hin & Hsub).
           assert (Hin' : sa ∈ elements S) by (by apply elem_of_elements).
           pose proof (Hsix sa Hin') as Hl.
           exists sa. split; [by apply list_elem_of_In|]. apply Nat.leb_le.
           apply (eights_missing_subseq _ _ 0); [rewrite getAlphagram_length; lia|lia|done].
      * split; [discriminate|]. by intros (_ & S & ? & _).
    + split; [discriminate|]. intros [H _]. apply Nat.eqb_neq in H8. contradiction.
Qed.

Lemma type_one_by_removal_witness :
  Forall (fun sa => String.length sa = 6%nat)
         (elements (default ∅ (stemAlphagrams stemLd !! 6%nat))) /\
  exists S, stemAlphagrams stemLd !! 6%nat = Some S /\
    exists sa, sa ∈ S /\ subseq sa (getAlphagram "AEINSTRS").
Proof.
  assert (H : Forall (fun sa => String.length sa = 6%nat)
                     (elements (default ∅ (stemAlphagrams stemLd !! 6%nat))))
    by (apply (bool_decide_unpack _); vm_compute; reflexivity).
  split; [exact H|].
  destruct (type_one_by_removal stemLd "AEINSTRS" H) as [_ [Height _]].
  assert (Ht : typeOneEight stemLd "AEINSTRS" = true) by (vm_compute; reflexivity).
  exact (proj2 (Height Ht)).
Defined.

(* ------------------------------------------------------------------ *)
(** ** The IncludeLetters fragment *)

Lemma upper_letter_fixed (c : ascii) :
  Str.is_upper_letter c = true -> Str.upper_char c = c.
Proof.
  unfold Str.is_upper_letter, Str.upper_char. intros H.
  pose proof H as H'. apply andb_true_iff in H' as [H1 _]. apply N.leb_le in H1.
  destruct ((97 <=? N_of_ascii c) && (N_of_ascii c <=? 122))%N eqn:E; [|done].
  apply andb_true_iff in E as [E1 _]. apply N.leb_le in E1.
  apply andb_true_iff in H as [_ H2]. apply N.leb_le in H2. lia.
Qed.

Lemma upper_letter_not_wild (c : ascii) :
  Str.is_upper_letter c = true -> Ascii.eqb c "%" = false /\ Ascii.eqb c "_" = false.
Proof.
  intros H. split; apply Ascii.eqb_neq; intros ->; vm_compute in H; discriminate.
Qed.

Lemma star_cons (m : string -> bool) (a : ascii) (s : string) :
  star m (String a s) = m (String a s) || star m s.
Proof. reflexivity. Qed.

Lemma star_nil (m : string -> bool) : star m EmptyString = m EmptyString.
Proof. simpl. by rewrite orb_false_r. Qed.

Lemma star_like_empty (w : string) : star (like EmptyString) w = true.
Proof.
  induction w as [|a w IH]; [reflexivity|]. rewrite star_cons, IH. apply orb_true_r.
Qed.

Lemma like_char (c d : ascii) (p s : string) :
  Ascii.eqb c "%" = false ->
  like (String c p) (String d s)
  = (Ascii.eqb c "_" || Ascii.eqb (Str.upper_char c) (Str.upper_char d)) && like p s.
Proof. intros H. cbn [like]. by rewrite H. Qed.

(** ['%c%c%...%'] with [k] copies of an upper-case letter [c] matches an
    upper-case word iff the word has at least [k] occurrences of [c]. *)
Lemma like_rep_pat (c : ascii) (k : nat) (w : string) :
  Str.is_upper_letter c = true -> Str.all_upper w = true ->
  like (String "%" (rep_pat c k)) w = (k <=? Str.count c w)%nat.
Proof.
  intros Hc. destruct (upper_letter_not_wild c Hc) as [Hpct Hund].
  revert w. induction k as [|k IH]; intros w Hw.
  - cbn [rep_pat like]. rewrite (Ascii.eqb_refl "%"). apply star_like_empty.
  - cbn [rep_pat]. change (like (String "%" ?p) w) with (star (like p) w).
    induction w as [|d w IHw].
    + rewrite star_nil. simpl. by rewrite Hpct.
    + simpl in Hw. apply andb_true_iff in Hw as [Hd Hw].
      rewrite star_cons, IHw by done.
      rewrite like_char by done. rewrite Hund, orb_false_l.
      rewrite (upper_letter_fixed c Hc), (upper_letter_fixed d Hd).
      rewrite IH by done. cbn [Str.count].
      destruct (Ascii.eqb c d).
      * destruct (Nat.leb_spec k (Str.count c w)), (Nat.leb_spec (S k) (Str.count c w)),
          (Nat.leb_spec (S k) (1 + Str.count c w)); try reflexivity; lia.
      * reflexivity.
Qed.

(** The letter map of [databaseSearch]: key order, counts and coverage. *)
Fixpoint lcount (x : ascii) (m : list (ascii * nat)) : nat :=
  match m with
  | [] => O
  | (d, k) :: m' => ((if Ascii.eqb x d then k else 0) + lcount x m')%nat
  end.

Lemma lcount_insert (c x : ascii) (m : list (ascii * nat)) :
  lcount x (letters_insert c m) = ((if Ascii.eqb x c then 1 else 0) + lcount x m)%nat.
Proof.
  induction m as [|[d k] m IH]; simpl; [lia|].
  destruct (Ascii.eqb_spec c d) as [->|Hcd]; simpl.
  - destruct (Ascii.eqb x d); lia.
  - destruct (N_of_ascii c <? N_of_ascii d)%N; simpl; [lia|].
    rewrite IH. lia.
Qed.

Lemma lcount_letters_of (x : ascii) (s : string) : lcount x (letters_of s) = Str.count x s.
Proof.
  induction s as [|c s IH]; simpl; [done|]. by rewrite lcount_insert, IH.
Qed.

Abbreviation key_lt := (fun (a b : ascii * nat) => (N_of_ascii a.1 < N_of_ascii b.1)%N).

Lemma letters_insert_keys (c x : ascii) (k : nat) (m : list (ascii * nat)) :
  In (x, k) (letters_insert c m) -> x = c \/ exists k', In (x, k') m.
Proof.
  induction m as [|[d j] m IH]; simpl.
  - intros [[= <- _]|[]]. by left.
  - destruct (Ascii.eqb_spec c d) as [->|Hcd].
    + intros [[= <- _]|H]; [by left|right; exists k; by right].
    + destruct (N_of_ascii c <? N_of_ascii d)%N.
      * intros [[= <- _]|H]; [by left|]. right. by exists k.
      * intros [[= <- <-]|H]; [right; exists j; by left|].
        destruct (IH H) as [->|[k' Hk']]; [by left|]. right. exists k'. by right.
Qed.

Lemma letters_insert_sorted (c : ascii) (m : list (ascii * nat)) :
  StronglySorted key_lt m -> StronglySorted key_lt (letters_insert c m).
Proof.
  induction m as [|[d j] m IH]; intros Hs; simpl.
  - repeat constructor.
  - apply StronglySorted_inv in Hs as [Hs Hall].
    destruct (Ascii.eqb_spec c d) as [->|Hcd].
    + constructor; [done|]. eapply Forall_impl; [exact Hall|]. done.
    + destruct (N_of_ascii c <? N_of_ascii d)%N eqn:Hlt.
      * apply N.ltb_lt in Hlt. constructor; [by constructor|].
        constructor; [done|]. eapply Forall_impl; [exact Hall|]. simpl. lia.
      * apply N.ltb_ge in Hlt.
        assert (Hne : N_of_ascii c <> N_of_ascii d).
        { intros He. apply Hcd. by rewrite <-(ascii_N_embedding c), <-(ascii_N_embedding d), He. }
        constructor; [by apply IH|]. apply List.Forall_forall. intros [x k] Hin.
        destruct (letters_insert_keys c x k m Hin) as [->|[k' Hk']]; simpl; [lia|].
        rewrite List.Forall_forall in Hall. apply (Hall (x, k') Hk').
Qed.

Lemma letters_of_sorted (s : string) : StronglySorted key_lt (letters_of s).
Proof. induction s as [|c s IH]; simpl; [constructor|]. by apply letters_insert_sorted. Qed.

Lemma lcount_absent (x : ascii) (m : list (ascii * nat)) :
  Forall (fun b => (N_of_ascii x < N_of_ascii b.1)%N) m -> lcount x m = O.
Proof.
  induction m as [|[d k] m IH]; intros Hall; simpl; [done|].
  apply Forall_cons in Hall as [Hd Hall]. simpl in Hd.
  destruct (Ascii.eqb_spec x d) as [->|_]; [lia|]. by rewrite IH.
Qed.

Lemma sorted_lcount (x : ascii) (k : nat) (m : list (ascii * nat)) :
  StronglySorted key_lt m -> In (x, k) m -> lcount x m = k.
Proof.
  induction m as [|[d j] m IH]; intros Hs Hin; [done|].
  apply StronglySorted_inv in Hs as [Hs Hall]. simpl.
  destruct Hin as [[= -> ->]|Hin].
  - rewrite Ascii.eqb_refl, lcount_absent; [lia|]. done.
  - rewrite List.Forall_forall in Hall. specialize (Hall _ Hin). simpl in Hall.
    destruct (Ascii.eqb_spec x d) as [->|_]; [lia|]. simpl. by apply IH.
Qed.

Lemma letters_of_pos (s : string) : Forall (fun ck => (0 < ck.2)%nat) (letters_of s).
Proof.
  induction s as [|c s IH]; simpl; [constructor|].
  induction IH as [|[d k] m Hk Hm IHm]; simpl; [repeat constructor; simpl; lia|].
  destruct (Ascii.eqb c d); [constructor; [simpl; lia|done]|].
  destruct (N_of_ascii c <? N_of_ascii d)%N; constructor; try done.
  - simpl. lia.
  - by constructor.
Qed.

Lemma lcount_present (x : ascii) (m : list (ascii * nat)) :
  (0 < lcount x m)%nat -> exists k, In (x, k) m.
Proof.
  induction m as [|[d k] m IH]; simpl; [lia|].
  destruct (Ascii.eqb_spec x d) as [->|_].
  - intros _. exists k. by left.
  - intros H. destruct (IH H) as [k' Hk']. exists k'. by right.
Qed.

(** A test over the letter map holds iff it holds at each letter of the
    string with that letter's multiplicity. *)
Lemma forallb_letters_of (f : ascii * nat -> bool) (s : string) :
  forallb f (letters_of s) = true <->
  forall x, (0 < Str.count x s)%nat -> f (x, Str.count x s) = true.
Proof.
  rewrite forallb_forall. split.
  - intros H x Hx. rewrite <-lcount_letters_of in Hx.
    destruct (lcount_present x _ Hx) as [k Hk].
    rewrite <-(lcount_letters_of x s), (sorted_lcount x k _ (letters_of_sorted s) Hk).
    by apply H.
  - intros H [x k] Hin.
    pose proof (sorted_lcount x k _ (letters_of_sorted s) Hin) as Hk.
    rewrite lcount_letters_of in Hk. subst k.
    pose proof (letters_of_pos s) as Hpos. rewrite List.Forall_forall in Hpos.
    apply H. exact (Hpos _ Hin).
Qed.

Lemma letters_of_nil (s : string) : letters_of s = [] -> s = EmptyString.
Proof.
  destruct s as [|c s]; [done|]. simpl. destruct (letters_of s) as [|[d k] m]; simpl; [done|].
  destruct (Ascii.eqb c d); [done|]. by destruct (N_of_ascii c <? N_of_ascii d)%N.
Qed.

Lemma count_pos_upper (x : ascii) (s : string) :
  Str.all_upper s = true -> (0 < Str.count x s)%nat -> Str.is_upper_letter x = true.
Proof.
  induction s as [|c s IH]; simpl; [lia|]. intros Hs. apply andb_true_iff in Hs as [Hc Hs].
  destruct (Ascii.eqb_spec x c) as [->|_]; [done|]. simpl. by apply IH.
Qed.

Lemma forallb_map_comp {A B} (f : B -> bool) (g : A -> B) (l : list A) :
  forallb f (map g l) = forallb (fun a => f (g a)) l.
Proof. induction l as [|a l IH]; simpl; [done|]. by rewrite IH. Qed.

Lemma sql_select_In (d : Database) (ps : list SqlExpr) (w : string) :
  db_open d = true ->
  In w (sql_select d ps) <->
  exists r, In (w, r) (db_table d) /\ forallb (fun e => sql_eval e w r) ps = true.
Proof.
  intros Hop. unfold sql_select. rewrite Hop.
  induction (db_table d) as [|[k r] t IH]; simpl.
  - split; [done|]. by intros (r & [] & _).
  - rewrite filter_cons. case_decide as Hd; simpl; rewrite IH.
    + apply Is_true_true in Hd. split.
      * intros [<-|(r' & Hin & Hr')]; [exists r; by split; [left|]|].
        exists r'. by split; [right|].
      * intros (r' & [[= -> ->]|Hin] & Hr'); [by left|]. right. by exists r'.
    + split.
      * intros (r' & Hin & Hr'). exists r'. by split; [right|].
      * intros (r' & [[= -> ->]|Hin] & Hr'); [|by exists r'].
        exfalso. apply Hd. by apply Is_true_true.
Qed.

(** C2: on a database of upper-case words, the search for a single
    IncludeLetters condition on a non-empty upper-case string [s] returns
    the table words that contain each letter of [s] at least as often as
    [s] does; negated, it returns the table words that contain none of the
    letters of [s] at all. *)
Theorem include_letters_semantics (X : Ext) (st : Engine) (lex : string) (ld : LexiconData)
    (d : Database) (neg : bool) (s w : string) :
  st !! lex = Some ld -> db ld = Some d -> db_open d = true ->
  s <> EmptyString -> Str.all_upper s = true ->
  Forall (fun kr => Str.all_upper kr.1 = true) (db_table d) ->
  (In w (databaseSearch X st lex (includeSpec neg s) None) <->
   (exists r, In (w, r) (db_table d)) /\
   (if neg then forall c, (0 < Str.count c s)%nat -> Str.count c w = O
    else forall c, (Str.count c s <= Str.count c w)%nat)).
Proof.
  intros Hld Hdb Hop Hs Hsu Htab.
  assert (Hf : map (conditionFragment X) (filter (is_db_condition X) (conditions (includeSpec neg s)))
               = [includeLettersFragment neg s]) by reflexivity.
  assert (Hw : where_wellformed [includeLettersFragment neg s] = true).
  { unfold where_wellformed. rewrite bool_decide_false by done. simpl.
    rewrite bool_decide_false; [done|]. intros HF. apply Hs. apply letters_of_nil.
    unfold includeLettersFragment in HF. by apply map_eq_nil in HF. }
  unfold databaseSearch. rewrite Hld, Hdb. cbv zeta. rewrite Hf, Hw.
  rewrite (List.map_ext _ (fun w0 => w0)) by (intros; by rewrite lookup_empty).
  rewrite map_id. simpl concat. rewrite !app_nil_r, sql_select_In by done.
  unfold includeLettersFragment. setoid_rewrite forallb_map_comp.
  setoid_rewrite forallb_letters_of. cbn [sql_eval fst snd].
  assert (Hup : forall r, In (w, r) (db_table d) -> Str.all_upper w = true).
  { intros r Hin. rewrite List.Forall_forall in Htab. exact (Htab (w, r) Hin). }
  split.
  - intros (r & Hin & Hall). split; [by exists r|].
    destruct neg.
    + intros c Hc. specialize (Hall c Hc).
      rewrite like_rep_pat in Hall by (eauto using count_pos_upper).
      destruct (Str.count c w); [done|]. discriminate.
    + intros c. destruct (Str.count c s) as [|k] eqn:Hk; [lia|].
      rewrite <-Hk. assert (Hc : (0 < Str.count c s)%nat) by lia.
      specialize (Hall c Hc).
      rewrite like_rep_pat in Hall by (eauto using count_pos_upper).
      by apply Nat.leb_le.
  - intros [[r Hin] Hcond]. exists r. split; [done|]. intros c Hc.
    rewrite like_rep_pat by (eauto using count_pos_upper).
    destruct neg.
    + by rewrite (Hcond c Hc).
    + apply Nat.leb_le. apply Hcond.
Qed.

Lemma include_letters_semantics_witness :
  ~ In "BED" (databaseSearch X0 st_letters "L" (includeSpec true "E") None) /\
  ~ In "SEA" (databaseSearch X0 st_letters "L" (includeSpec true "E") None).
Proof.
  assert (Hld : st_letters !! "L" = Some (lexWith [] (Some db_letters))) by reflexivity.
  assert (Htab : Forall (fun kr => Str.all_upper kr.1 = true) (db_table db_letters))
    by (apply (bool_decide_unpack _); vm_compute; reflexivity).
  assert (Hs : "E" <> EmptyString) by discriminate.
  split; intros Hin.
  - apply (include_letters_semantics X0 st_letters "L" _ db_letters true "E" "BED"
             Hld eq_refl eq_refl Hs eq_refl Htab) in Hin as [_ H].
    specialize (H "E"%char). vm_compute in H. discriminate (H (le_n 1)).
  - apply (include_letters_semantics X0 st_letters "L" _ db_letters true "E" "SEA"
             Hld eq_refl eq_refl Hs eq_refl Htab) in Hin as [_ H].
    specialize (H "E"%char). vm_compute in H. discriminate (H (le_n 1)).
Defined.

(* ------------------------------------------------------------------ *)
(** ** Word lists in the database phase *)

Lemma upperToLower_go_sound (wl : list string) (m : gmap string string) (u v : string) :
  fold_left (fun m w => <[Str.toUpper w := w]> m) wl m !! u = Some v ->
  m !! u = Some v \/ (In v wl /\ Str.toUpper v = u).
Proof.
  revert m. induction wl as [|w wl IH]; intros m H; simpl in *; [by left|].
  destruct (IH _ H) as [Hm|[Hin Hu]]; [|right; by split; [right|]].
  destruct (decide (Str.toUpper w = u)) as [<-|Hne].
  - rewrite lookup_insert_eq in Hm. injection Hm as <-. right. by split; [left|].
  - rewrite lookup_insert_ne in Hm by done. by left.
Qed.

Lemma upperToLower_go_complete (wl : list string) (m : gmap string string) (u : string) :
  (is_Some (m !! u) \/ exists v, In v wl /\ Str.toUpper v = u) ->
  is_Some (fold_left (fun m w => <[Str.toUpper w := w]> m) wl m !! u).
Proof.
  revert m. induction wl as [|w wl IH]; intros m H; simpl.
  - destruct H as [H|(v & [] & _)]. exact H.
  - apply IH. destruct (decide (Str.toUpper w = u)) as [<-|Hne].
    + left. rewrite lookup_insert_eq. by eexists.
    + rewrite lookup_insert_ne by done.
      destruct H as [H|(v & [<-|Hin] & Hu)]; [by left|done|]. right. by exists v.
Qed.

(** Each entry of [upperToLower wl] maps an upper-cased word to a word of
    [wl] with that upper-case form, and every word of [wl] has an entry. *)
Lemma upperToLower_sound (wl : list string) (u v : string) :
  upperToLower wl !! u = Some v -> In v wl /\ Str.toUpper v = u.
Proof.
  intros H. destruct (upperToLower_go_sound wl ∅ u v H) as [He|Hr]; [|exact Hr].
  by rewrite lookup_empty in He.
Qed.

Lemma upperToLower_complete (wl : list string) (v : string) :
  In v wl -> is_Some (upperToLower wl !! Str.toUpper v).
Proof. intros Hin. apply upperToLower_go_complete. right. by exists v. Qed.

(** The entry of [upperToLower wl] for an upper-case form is the last word
    of [wl] with that form. *)
Lemma upperToLower_last (wl : list string) (u v : string) :
  upperToLower wl !! u = Some v ->
  Str.toUpper v = u /\
  exists pre post, wl = pre ++ v :: post /\ Forall (fun x => Str.toUpper x <> u) post.
Proof.
  unfold upperToLower. revert v. induction wl as [|x l IH] using rev_ind; intros v H.
  - simpl in H. by rewrite lookup_empty in H.
  - rewrite fold_left_app in H. simpl in H.
    destruct (decide (Str.toUpper x = u)) as [<-|Hne].
    + rewrite lookup_insert_eq in H. injection H as <-. split; [done|].
      exists l, []. split; [done|constructor].
    + rewrite lookup_insert_ne in H by done.
      destruct (IH v H) as (Hu & pre & post & -> & Hpost). split; [done|].
      exists pre, (post ++ [x]). split; [by rewrite <- app_assoc|].
      apply Forall_app. split; [done|]. by constructor.
Qed.

Lemma forallb_app_eq {A} (f : A -> bool) (l1 l2 : list A) :
  forallb f (l1 ++ l2) = forallb f l1 && forallb f l2.
Proof. induction l1 as [|a l1 IH]; simpl; [done|]. by rewrite IH, andb_assoc. Qed.

Lemma existsb_upper (u : string) (wl : list string) :
  existsb (String.eqb u) (map Str.toUpper wl) = true <-> exists v, In v wl /\ Str.toUpper v = u.
Proof.
  rewrite existsb_exists. split.
  - intros [x [Hx Heq]]. apply String.eqb_eq in Heq. subst x.
    apply in_map_iff in Hx as [v [Hv Hin]]. by exists v.
  - intros [v [Hin Hu]]. exists u. split; [|apply String.eqb_refl].
    apply in_map_iff. by exists v.
Qed.

(** C6 (counterexample): the words of an InWordList condition are not
    case-normalized.  The table holds CAT; the condition on "cat" finds
    nothing, the condition on "CAT" finds it. *)
Lemma in_word_list_case_sensitive :
  databaseSearch X0 st_catdog "L" (wordListSpec "cat") None = [] /\
  databaseSearch X0 st_catdog "L" (wordListSpec "CAT") None = ["CAT"].
Proof. split; vm_compute; reflexivity. Qed.

(** C6 (amended): with a restriction list [wl] from the graph phase, the
    query compares the stored words with the upper-cased words of [wl], and
    every returned word is a word of [wl] in the caller's casing: for a
    stored word reached by several spellings, the last one in [wl] (no
    later word of [wl] has the same upper-case form). Every word of [wl]
    whose upper-case form is a stored word meeting the conditions is
    returned, in the last spelling of [wl] with that upper-case form.  The words of an
    InWordList condition are compared as given, case-sensitively, and the
    stored words are returned. *)
Theorem word_list_casing (X : Ext) (st : Engine) (lex : string) (ld : LexiconData)
    (d : Database) (spec : SearchSpec) (wl : list string) :
  st !! lex = Some ld -> db ld = Some d -> db_open d = true ->
  where_wellformed (dbFrags X spec) = true ->
  (forall w, In w (databaseSearch X st lex spec (Some wl)) ->
     In w wl /\ (exists r, In (Str.toUpper w, r) (db_table d) /\
       forallb (fun e => sql_eval e (Str.toUpper w) r) (concat (dbFrags X spec)) = true) /\
     upperToLower wl !! Str.toUpper w = Some w /\
     exists pre post, wl = pre ++ w :: post /\
                      Forall (fun x => Str.toUpper x <> Str.toUpper w) post) /\
  (forall v r, In v wl -> In (Str.toUpper v, r) (db_table d) ->
     forallb (fun e => sql_eval e (Str.toUpper v) r) (concat (dbFrags X spec)) = true ->
     exists v', In v' (databaseSearch X st lex spec (Some wl)) /\ In v' wl /\
                upperToLower wl !! Str.toUpper v = Some v' /\
                Str.toUpper v' = Str.toUpper v /\
                exists pre post, wl = pre ++ v' :: post /\
                                 Forall (fun x => Str.toUpper x <> Str.toUpper v) post) /\
  (forall s w, In w (databaseSearch X st lex (wordListSpec s) None) <->
     (exists r, In (w, r) (db_table d)) /\ In w (Str.split_sp s)).
Proof.
  intros Hld Hdb Hop Hwf. unfold dbFrags in Hwf.
  split; [|split].
  - intros w Hw. unfold databaseSearch in Hw. rewrite Hld, Hdb in Hw. cbv zeta in Hw.
    rewrite Hwf in Hw. apply in_map_iff in Hw as [u [Hu Hsel]].
    apply sql_select_In in Hsel as (r & Hin & Hall); [|done].
    rewrite forallb_app_eq in Hall. apply andb_true_iff in Hall as [Hall Hres].
    simpl in Hres. rewrite andb_true_r in Hres. apply existsb_upper in Hres as [v [Hv Hvu]].
    destruct (upperToLower_complete wl v Hv) as [v' Hv']. rewrite Hvu in Hv'.
    rewrite Hv' in Hu. simpl in Hu. subst w.
    destruct (upperToLower_sound wl u v' Hv') as [Hin' Hu'].
    destruct (upperToLower_last wl u v' Hv') as (_ & pre & post & Hwl & Hpost).
    split; [exact Hin'|]. rewrite Hu'. split; [exists r; by split|].
    split; [exact Hv'|]. by exists pre, post.
  - intros v r Hv Hin Hall.
    destruct (upperToLower_complete wl v Hv) as [v' Hv'].
    destruct (upperToLower_sound wl _ v' Hv') as [Hin' Hu'].
    destruct (upperToLower_last wl _ v' Hv') as (_ & pre & post & Hwl & Hpost).
    exists v'. split; [|split; [done|split; [done|split; [done|by exists pre, post]]]].
    unfold databaseSearch. rewrite Hld, Hdb. cbv zeta. rewrite Hwf.
    apply in_map_iff. exists (Str.toUpper v). rewrite Hv'. split; [done|].
    apply sql_select_In; [done|]. exists r. split; [done|].
    rewrite forallb_app_eq. apply andb_true_iff. split; [exact Hall|].
    simpl. rewrite andb_true_r. apply existsb_upper. by exists v.
  - intros s w.
    assert (Hf : map (conditionFragment X) (filter (is_db_condition X) (conditions (wordListSpec s)))
                 = [[SIn false (Str.split_sp s)]]) by reflexivity.
    unfold databaseSearch. rewrite Hld, Hdb. cbv zeta. rewrite Hf.
    assert (Hw : where_wellformed [[SIn false (Str.split_sp s)]] = true) by reflexivity.
    rewrite Hw.
    rewrite (List.map_ext _ (fun w0 => w0)) by (intros; by rewrite lookup_empty).
    rewrite map_id. simpl concat. rewrite !app_nil_r, sql_select_In by done.
    simpl. split.
    + intros (r & Hin & Hex). rewrite andb_true_r in Hex.
      apply existsb_exists in Hex as [x [Hx Heq]]. apply String.eqb_eq in Heq. subst x.
      split; [by exists r|done].
    + intros [[r Hin] Hw']. exists r. split; [done|]. rewrite andb_true_r.
      apply existsb_exists. exists w. split; [done|]. apply String.eqb_refl.
Qed.

Lemma word_list_casing_witness :
  where_wellformed (dbFrags X0 lengthSpec) = true /\
  exists v', In v' (databaseSearch X0 st_catdog "L" lengthSpec
                      (Some ["cat"; "Dog"; "CAT"; "eel"])) /\
             In v' ["cat"; "Dog"; "CAT"; "eel"] /\
             upperToLower ["cat"; "Dog"; "CAT"; "eel"] !! Str.toUpper "cat" = Some v' /\
             Str.toUpper v' = Str.toUpper "cat" /\
             exists pre post, ["cat"; "Dog"; "CAT"; "eel"] = pre ++ v' :: post /\
                              Forall (fun x => Str.toUpper x <> Str.toUpper "cat") post.
Proof.
  assert (Hld : st_catdog !! "L" = Some (lexWith ["CAT"; "DOG"] (Some db_catdog))) by reflexivity.
  assert (Hwf : where_wellformed (dbFrags X0 lengthSpec) = true) by reflexivity.
  split; [exact Hwf|].
  destruct (word_list_casing X0 st_catdog "L" _ db_catdog lengthSpec ["cat"; "Dog"; "CAT"; "eel"]
              Hld eq_refl eq_refl Hwf) as (_ & Hcomp & _).
  apply (Hcomp "cat" row0); [simpl; tauto|simpl; tauto|reflexivity].
Defined.

(* ------------------------------------------------------------------ *)
(** * Limit by probability order: the tie-group widening *)

Lemma string_compare_refl (s : string) : String.compare s s = Eq.
Proof.
  induction s as [|a s IH]; [done|]. simpl.
  unfold Ascii.compare. by rewrite N.compare_refl.
Qed.

Lemma string_compare_lt_trans (a b c : string) :
  String.compare a b = Lt -> String.compare b c = Lt -> String.compare a c = Lt.
Proof.
  revert b c. induction a as [|x a IH]; intros [|y b] [|z c] Hab Hbc;
    simpl in *; try done.
  destruct (Ascii.compare x y) eqn:Hxy; try done.
  - apply Ascii.compare_eq_iff in Hxy as ->.
    destruct (Ascii.compare y z); eauto.
  - destruct (Ascii.compare y z) eqn:Hyz; try done.
    + apply Ascii.compare_eq_iff in Hyz as ->. by rewrite Hxy.
    + assert (Ascii.compare x z = Lt) as -> ; [|done].
      unfold Ascii.compare in *. apply N.compare_lt_iff.
      etransitivity; apply N.compare_lt_iff; eassumption.
Qed.

Lemma string_compare_le_trans (a b c : string) :
  String.compare a b <> Gt -> String.compare b c <> Gt -> String.compare a c <> Gt.
Proof.
  intros Hab Hbc.
  destruct (String.compare a b) eqn:E1; [apply String.compare_eq_iff in E1 as ->; done| |done].
  destruct (String.compare b c) eqn:E2; [apply String.compare_eq_iff in E2 as ->; by rewrite E1| |done].
  by rewrite (string_compare_lt_trans a b c E1 E2).
Qed.

(** Strings between two strings with a common prefix of length [n] have
    that prefix too. *)
Lemma left_between (n : nat) (s t u : string) :
  String.compare s t <> Gt -> String.compare t u <> Gt ->
  Str.left n s = Str.left n u -> Str.left n t = Str.left n s.
Proof.
  revert s t u. induction n as [|n IH]; intros s t u Hst Htu Hsu; [done|].
  destruct s as [|a s].
  - destruct u as [|c u]; [|done].
    destruct t as [|b t]; [done|]. by simpl in Htu.
  - destruct u as [|c u]; [done|]. simpl in Hsu. injection Hsu as <- Hsu.
    destruct t as [|b t]; [done|]. simpl in Hst, Htu |- *.
    destruct (Ascii.compare a b) eqn:Hab; [| |done].
    + apply Ascii.compare_eq_iff in Hab as <-.
      assert (Ascii.compare a a = Eq) as Haa
        by (unfold Ascii.compare; apply N.compare_refl).
      rewrite Haa in Htu. by rewrite (IH s t u).
    + exfalso. rewrite Ascii.compare_antisym, Hab in Htu. by apply Htu.
Qed.

(** The keys of a [QMap] are kept in increasing order. *)
Definition pk_lt (a b : string * string) : Prop := String.compare a.1 b.1 = Lt.

Lemma qmap_insert_Forall (P : string * string -> Prop) k v m :
  Forall P m -> P (k, v) -> Forall P (qmap_insert k v m).
Proof.
  induction m as [|[k' v'] m IH]; intros Hm Hkv; simpl; [by constructor|].
  apply List.Forall_cons_iff in Hm as [Hhd Htl].
  destruct (String.compare k k') eqn:E.
  - apply String.compare_eq_iff in E as <-. by constructor.
  - by constructor; [|constructor].
  - constructor; auto.
Qed.

Lemma qmap_insert_sorted k v m :
  StronglySorted pk_lt m -> StronglySorted pk_lt (qmap_insert k v m).
Proof.
  induction m as [|[k' v'] m IH]; intros Hs; simpl.
  { constructor; constructor. }
  apply StronglySorted_inv in Hs as [Hs Hf].
  destruct (String.compare k k') eqn:E.
  - constructor; [done|]. exact Hf.
  - constructor; [constructor; done|]. constructor; [exact E|].
    eapply List.Forall_impl; [|exact Hf]. intros y Hy.
    exact (string_compare_lt_trans _ _ _ E Hy).
  - constructor; [by apply IH|]. apply qmap_insert_Forall; [exact Hf|].
    unfold pk_lt; simpl. by rewrite String.compare_antisym, E.
Qed.

Lemma qmap_insert_keys k v m x :
  In x (map fst (qmap_insert k v m)) -> x = k \/ In x (map fst m).
Proof.
  induction m as [|[k' v'] m IH]; simpl.
  - intros [->|[]]; auto.
  - destruct (String.compare k k') eqn:E; simpl.
    + intros [->|H]; auto.
    + intros [->|H]; auto.
    + intros [->|H]; [auto|]. destruct (IH H); auto.
Qed.

Lemma qmap_insert_length k v m :
  ~ In k (map fst m) -> length (qmap_insert k v m) = S (length m).
Proof.
  induction m as [|[k' v'] m IH]; intros Hn; simpl; [done|].
  destruct (String.compare k k') eqn:E; simpl.
  - apply String.compare_eq_iff in E as ->. simpl in Hn. tauto.
  - done.
  - rewrite IH; [done|]. simpl in Hn. tauto.
Qed.

Lemma probMap_fold_sorted X lg l m :
  StronglySorted pk_lt m ->
  StronglySorted pk_lt (fold_left (fun m w => qmap_insert (radix X lg w) w m) l m).
Proof.
  revert m. induction l as [|w l IH]; intros m Hm; simpl; [done|].
  by apply IH, qmap_insert_sorted.
Qed.

Lemma probMap_fold_Forall X lg (P : string * string -> Prop) l m :
  Forall P m -> (forall w, In w l -> P (radix X lg w, w)) ->
  Forall P (fold_left (fun m w => qmap_insert (radix X lg w) w m) l m).
Proof.
  revert m. induction l as [|w l IH]; intros m Hm Hl; simpl; [done|].
  apply IH; [apply qmap_insert_Forall; [done|apply Hl; simpl; auto]|].
  intros w' Hw'. apply Hl. simpl; auto.
Qed.

Lemma probMap_fold_length X lg l m :
  NoDup (map (radix X lg) l) ->
  (forall w, In w l -> ~ In (radix X lg w) (map fst m)) ->
  length (fold_left (fun m w => qmap_insert (radix X lg w) w m) l m)
  = (length m + length l)%nat.
Proof.
  revert m. induction l as [|w l IH]; intros m Hnd Hl; simpl; [lia|].
  apply NoDup_cons in Hnd as [Hw Hnd].
  rewrite IH; [| done |].
  - rewrite qmap_insert_length; [lia|]. apply Hl. simpl; auto.
  - intros w' Hw' Hin. apply qmap_insert_keys in Hin as [Heq|Hin].
    + apply Hw. rewrite <- Heq. apply list_elem_of_In. by apply in_map.
    + apply (Hl w'); [simpl; auto|done].
Qed.

Lemma sorted_key_le (pm : list (string * string)) (i j : nat) :
  StronglySorted pk_lt pm -> (i <= j < length pm)%nat ->
  String.compare (nth i (map fst pm) "") (nth j (map fst pm) "") <> Gt.
Proof.
  revert i j. induction pm as [|[k v] pm IH]; intros i j Hs Hij; simpl in Hij; [lia|].
  apply StronglySorted_inv in Hs as [Hs Hf].
  destruct i as [|i], j as [|j]; simpl.
  - by rewrite string_compare_refl.
  - assert (In (nth j (map fst pm) "") (map fst pm)) as Hin
      by (apply nth_In; rewrite length_map; lia).
    apply in_map_iff in Hin as ([k2 v2] & Hk2 & Hin). simpl in Hk2. rewrite <- Hk2.
    rewrite List.Forall_forall in Hf. pose proof (Hf _ Hin) as Hlt.
    unfold pk_lt in Hlt; simpl in Hlt. by rewrite Hlt.
  - lia.
  - apply IH; [done|lia].
Qed.

(** The downward widening loop of [applyPostConditions]. *)
Lemma widen_down_spec (f : nat) (keys : list string) (pre : string) (m bound : Z) :
  0 <= bound <= m -> m <= Z.of_nat f ->
  bound <= widen_down f keys pre m bound <= m /\
  (forall i, widen_down f keys pre m bound <= i < m ->
             Str.left 9 (key_at keys i) = pre) /\
  (widen_down f keys pre m bound = bound \/
   Str.left 9 (key_at keys (widen_down f keys pre m bound - 1)) <> pre).
Proof.
  revert m. induction f as [|f IH]; intros m Hb Hf; cbn [widen_down].
  - assert (m = bound) as -> by lia. split; [lia|]. split; [intros; lia|]. by left.
  - destruct ((0 <? m) && (bound <? m)) eqn:Hc.
    + apply andb_true_iff in Hc as [H1 H2]. apply Z.ltb_lt in H1, H2.
      destruct (String.eqb pre (Str.left 9 (key_at keys (m - 1)))) eqn:He.
      * apply String.eqb_eq in He.
        destruct (IH (m - 1) ltac:(lia) ltac:(lia)) as (Hr & Hall & Hstop).
        split; [lia|]. split; [|exact Hstop].
        intros i Hi. destruct (Z.eq_dec i (m - 1)) as [->|Hne]; [done|].
        apply Hall; lia.
      * apply String.eqb_neq in He. split; [lia|]. split; [intros; lia|].
        right. intros E. by apply He.
    + split; [lia|]. split; [intros; lia|]. left.
      apply andb_false_iff in Hc as [H|H]; apply Z.ltb_ge in H; lia.
Qed.

(** The upward widening loop of [applyPostConditions]. *)
Lemma widen_up_spec (f : nat) (keys : list string) (pre : string) (m bound : Z) :
  0 <= m <= bound -> bound <= Z.of_nat (length keys) - 1 -> bound - m <= Z.of_nat f ->
  m <= widen_up f keys pre m bound <= bound /\
  (forall i, m < i <= widen_up f keys pre m bound ->
             Str.left 9 (key_at keys i) = pre) /\
  (widen_up f keys pre m bound = bound \/
   Str.left 9 (key_at keys (widen_up f keys pre m bound + 1)) <> pre).
Proof.
  revert m. induction f as [|f IH]; intros m Hb Hlen Hf; cbn [widen_up].
  - assert (m = bound) as -> by lia. split; [lia|]. split; [intros; lia|]. by left.
  - destruct ((m <? Z.of_nat (length keys) - 1) && (m <? bound)) eqn:Hc.
    + apply andb_true_iff in Hc as [H1 H2]. apply Z.ltb_lt in H1, H2.
      destruct (String.eqb pre (Str.left 9 (key_at keys (m + 1)))) eqn:He.
      * apply String.eqb_eq in He.
        destruct (IH (m + 1) ltac:(lia) Hlen ltac:(lia)) as (Hr & Hall & Hstop).
        split; [lia|]. split; [|exact Hstop].
        intros i Hi. destruct (Z.eq_dec i (m + 1)) as [->|Hne]; [done|].
        apply Hall; lia.
      * apply String.eqb_neq in He. split; [lia|]. split; [intros; lia|].
        right. intros E. by apply He.
    + split; [lia|]. split; [intros; lia|]. left.
      apply andb_false_iff in Hc as [H|H]; apply Z.ltb_ge in H; lia.
Qed.

(** C1 (counterexample): a strict condition 1..3 and a lax one 5..7 over
    ten candidates give the working window [4, 2]: [QList::mid] is called
    with the length -1 and returns every word from position 4 on, six words
    past the strict maximum (position 2). *)
Lemma prob_window_inverted_tail :
  prob_window (prob_bounds [limitCond 1 3 false; limitCond 5 7 true]) 10 = Some (0, 2, 4, 2) /\
  probLimit X0 [limitCond 1 3 false; limitCond 5 7 true] probWords10
  = skipn 4 (map snd (probMap X0 false probWords10)) /\
  probLimit X0 [limitCond 1 3 false; limitCond 5 7 true] probWords10
  = ["FFFFFF"; "EEEEE"; "DDDD"; "CCC"; "BB"; "A"].
Proof. split; [|split]; vm_compute; reflexivity. Qed.

(** C1 (amended): when the search has a Limit-by-Probability-Order
    condition and the working window is not inverted, the
    candidates are keyed by the probability radix (nine-character padded
    one-billion-minus-combinations, then the alphagram unless the legacy
    flag is set, then the upper-case word) in a sorted map, and the result
    is the slice [lo, hi] of the sorted words, where [lo] and [hi] are the
    working window [mn, mx] widened outward: within the strict bounds
    [smin, smax], a position below [mn] is taken exactly when its key has
    the same 9-character prefix as the key at [mn], and a position above
    [mx] exactly when its key has the same prefix as the key at [mx]. The
    widening never passes the strict bounds. (Hypotheses: the window exists,
    the working window is not empty and no two candidates share a radix.) *)
Theorem prob_window_tie_groups (X : Ext) (conds : list SearchCondition)
    (L : list string) (smin smax mn mx : Z) :
  prob_window (prob_bounds conds) (Z.of_nat (length L)) = Some (smin, smax, mn, mx) ->
  mn <= mx ->
  NoDup (map (radix X (pb_legacy (prob_bounds conds))) L) ->
  let pm := probMap X (pb_legacy (prob_bounds conds)) L in
  let keys := map fst pm in
  length pm = length L /\
  Forall (fun kv => kv.1 = radix X (pb_legacy (prob_bounds conds)) kv.2 /\ In kv.2 L) pm /\
  StronglySorted pk_lt pm /\
  exists lo hi,
    probLimit X conds L = firstn (Z.to_nat (hi - lo + 1)) (skipn (Z.to_nat lo) (map snd pm)) /\
    smin <= lo <= mn /\ mx <= hi <= smax /\
    (forall i, smin <= i <= mn ->
       Str.left 9 (key_at keys i) = Str.left 9 (key_at keys mn) <-> lo <= i) /\
    (forall i, mx <= i <= smax ->
       Str.left 9 (key_at keys i) = Str.left 9 (key_at keys mx) <-> i <= hi).
Proof.
  intros Hw Hle Hnd pm keys.
  pose proof Hw as Hw0.
  unfold prob_window in Hw.
  destruct (pb_cond (prob_bounds conds)) eqn:Hc; simpl in Hw; [|discriminate].
  destruct (_ || _) eqn:Hn; [discriminate|].
  injection Hw as E1 E2 E3 E4.
  assert (Hlen : length pm = length L).
  { unfold pm, probMap. rewrite probMap_fold_length; [simpl; lia|done|].
    intros w _ []. }
  assert (Hsort : StronglySorted pk_lt pm).
  { unfold pm, probMap. apply probMap_fold_sorted. constructor. }
  split; [exact Hlen|]. split.
  { unfold pm, probMap. apply probMap_fold_Forall; [constructor|].
    intros w Hw; simpl; auto. }
  split; [exact Hsort|].
  assert (Hkl : length keys = length L) by (unfold keys; by rewrite length_map).
  assert (Hb : 0 <= smin <= mn /\ mx <= smax <= Z.of_nat (length L) - 1) by lia.
  destruct (widen_down_spec (Z.to_nat mn) keys (Str.left 9 (key_at keys mn)) mn smin
              ltac:(lia) ltac:(lia)) as (Hlo & Hlall & Hlstop).
  destruct (widen_up_spec (length keys) keys (Str.left 9 (key_at keys mx)) mx smax
              ltac:(lia) ltac:(lia) ltac:(lia)) as (Hhi & Huall & Hustop).
  set (lo := widen_down (Z.to_nat mn) keys (Str.left 9 (key_at keys mn)) mn smin)
    in Hlo, Hlall, Hlstop.
  set (hi := widen_up (length keys) keys (Str.left 9 (key_at keys mx)) mx smax)
    in Hhi, Huall, Hustop.
  assert (Hle9 : forall a b, 0 <= a <= b -> b <= Z.of_nat (length L) - 1 ->
            String.compare (key_at keys a) (key_at keys b) <> Gt).
  { intros a b Hab Hbn. unfold key_at, keys. apply sorted_key_le; [done|lia]. }
  exists lo, hi. split; [|split; [lia|split; [lia|split]]].
  - assert (probLimit X conds L = qmid (map snd pm) lo (hi - lo + 1)) as ->.
    { unfold probLimit. cbv zeta. rewrite Hc, Hw0. reflexivity. }
    unfold qmid. rewrite length_map, Hlen.
    destruct ((hi - lo + 1 <? 0) || (Z.of_nat (length L) <? lo + (hi - lo + 1))) eqn:Hq;
      [|reflexivity].
    exfalso. apply orb_true_iff in Hq as [Hq|Hq]; apply Z.ltb_lt in Hq; lia.
  - intros i Hi. split.
    + intros Hpre. destruct (Z_lt_ge_dec i lo) as [Hlt|]; [|lia]. exfalso.
      destruct Hlstop as [Heq|Hne]; [lia|]. apply Hne.
      transitivity (Str.left 9 (key_at keys i)); [|exact Hpre].
      apply left_between with (u := key_at keys mn); [apply Hle9; lia..|exact Hpre].
    + intros Hge. destruct (Z.eq_dec i mn) as [->|Hne]; [done|]. apply Hlall; lia.
  - intros i Hi. split.
    + intros Hpre. destruct (Z_le_gt_dec i hi) as [|Hgt]; [done|]. exfalso.
      destruct Hustop as [Heq|Hne]; [lia|]. apply Hne.
      apply left_between with (u := key_at keys i); [apply Hle9; lia..|].
      by rewrite Hpre.
    + intros Hge. destruct (Z.eq_dec i mx) as [->|Hne]; [done|]. apply Huall; lia.
Qed.

Lemma prob_window_tie_groups_witness :
  prob_window
    (prob_bounds [{| ctype := LimitByProbabilityOrder; stringValue := ""; minValue := 2;
                     maxValue := 2; boolValue := true; legacy := false; negated := false |}])
    5 = Some (0, 4, 1, 1) /\
  probLimit X0
    [{| ctype := LimitByProbabilityOrder; stringValue := ""; minValue := 2;
        maxValue := 2; boolValue := true; legacy := false; negated := false |}]
    ["CAT"; "DOGS"; "BIRD"; "FISH"; "EEL"] = ["BIRD"; "DOGS"; "FISH"] /\
  length (probMap X0 false ["CAT"; "DOGS"; "BIRD"; "FISH"; "EEL"]) = 5%nat.
Proof.
  split; [vm_compute; reflexivity|]. split; [vm_compute; reflexivity|].
  destruct (prob_window_tie_groups X0
    [{| ctype := LimitByProbabilityOrder; stringValue := ""; minValue := 2;
        maxValue := 2; boolValue := true; legacy := false; negated := false |}]
    ["CAT"; "DOGS"; "BIRD"; "FISH"; "EEL"] 0 4 1 1) as [Hlen _];
    [vm_compute; reflexivity|lia|apply (bool_decide_unpack _); vm_compute; exact I|].
  exact Hlen.
Defined.

(* ------------------------------------------------------------------ *)
(** * Further properties of [WordEngine] *)

(** ** The cache is transparent to [getWordInfo] *)

(** [getWordInfo] asked twice for the same word answers the same, and the
    second call leaves the engine as the first left it. *)
Theorem getWordInfo_repeat (lex w : string) (st : Engine) :
  getWordInfo lex w (getWordInfo lex w st).2 = getWordInfo lex w st.
Proof.
  unfold getWordInfo at 2 3.
  destruct (String.eqb w "") eqn:Hw; [by simpl; unfold getWordInfo; rewrite Hw|].
  destruct (st !! lex) as [ld|] eqn:Hl; [|by simpl; unfold getWordInfo; rewrite Hw, Hl].
  destruct (wordCache ld !! w) as [i|] eqn:Hc; [by simpl; unfold getWordInfo; rewrite Hw, Hl, Hc|].
  destruct (db ld) as [d|] eqn:Hd; [|by simpl; unfold getWordInfo; rewrite Hw, Hl, Hc, Hd].
  destruct (db_open d) eqn:Ho; [|by simpl; unfold getWordInfo; rewrite Hw, Hl, Hc, Hd, Ho].
  destruct (select_word (db_table d) w) as [r|] eqn:Hs;
    [|by simpl; unfold getWordInfo; rewrite Hw, Hl, Hc, Hd, Ho, Hs].
  simpl. unfold getWordInfo. rewrite Hw, lookup_insert_eq. cbn [set_cache wordCache].
  by rewrite lookup_insert_eq.
Qed.

(** ** Connecting and disconnecting the database *)

(** [disconnectFromDatabase] always reports success. When the lexicon's
    database, if any, is open, the lexicon is no longer connected after
    it, [databaseSearch] finds nothing and [getNumWords] counts the graph;
    the graph, the cache and the imported data of every lexicon are kept,
    so cached words are still answered from the cache. *)
Theorem disconnectFromDatabase_spec (X : Ext) (st : Engine) (lex : string)
    (spec : SearchSpec) (wl : option (list string)) :
  (forall ld d, st !! lex = Some ld -> db ld = Some d -> db_open d = true) ->
  (disconnectFromDatabase lex st).1 = true /\
  databaseIsConnected (disconnectFromDatabase lex st).2 lex = false /\
  databaseSearch X (disconnectFromDatabase lex st).2 lex spec wl = [] /\
  (forall ld, st !! lex = Some ld ->
     getNumWords (disconnectFromDatabase lex st).2 lex = Z.of_nat (size (graph ld))) /\
  (fun ld => (graph ld, wordCache ld, numAnagramsMap ld, stems ld, stemAlphagrams ld))
    <$> (disconnectFromDatabase lex st).2
  = (fun ld => (graph ld, wordCache ld, numAnagramsMap ld, stems ld, stemAlphagrams ld))
    <$> st /\
  (forall ld w i, st !! lex = Some ld -> wordCache ld !! w = Some i -> w <> "" ->
     (getWordInfo lex w (disconnectFromDatabase lex st).2).1 = i).
Proof.
  intros Hopen. unfold disconnectFromDatabase.
  destruct (st !! lex) as [ld|] eqn:Hl.
  - destruct (db ld) as [d|] eqn:Hd.
    + rewrite (Hopen ld d eq_refl Hd). simpl.
      split; [done|]. split; [by unfold databaseIsConnected; rewrite lookup_insert_eq|].
      split; [by unfold databaseSearch; rewrite lookup_insert_eq|].
      split; [intros ld' [= <-]; by unfold getNumWords; rewrite lookup_insert_eq|].
      split; [rewrite fmap_insert; apply insert_id; by rewrite lookup_fmap, Hl|].
      intros ld' w i [= <-] Hc Hw. unfold getWordInfo.
      apply String.eqb_neq in Hw. rewrite Hw, lookup_insert_eq. simpl. by rewrite Hc.
    + simpl. split; [done|].
      split; [by unfold databaseIsConnected; rewrite Hl, Hd|].
      split; [by unfold databaseSearch; rewrite Hl, Hd|].
      split; [intros ld' [= <-]; by unfold getNumWords; rewrite Hl, Hd|].
      split; [done|].
      intros ld' w i [= <-] Hc Hw. unfold getWordInfo.
      apply String.eqb_neq in Hw. by rewrite Hw, Hl, Hc.
  - simpl. split; [done|]. split; [by unfold databaseIsConnected; rewrite Hl|].
    split; [by unfold databaseSearch; rewrite Hl|].
    split; [by intros ld ?|]. split; [done|]. by intros ld ?.
Qed.

Lemma disconnectFromDatabase_spec_witness :
  (forall ld d, st_catdog !! "L" = Some ld -> db ld = Some d -> db_open d = true) /\
  getNumWords (disconnectFromDatabase "L" st_catdog).2 "L" = 2.
Proof.
  assert (H : forall ld d, st_catdog !! "L" = Some ld -> db ld = Some d -> db_open d = true).
  { intros ld d Hl Hd. vm_compute in Hl. injection Hl as <-. vm_compute in Hd.
    injection Hd as <-. reflexivity. }
  split; [exact H|].
  destruct (disconnectFromDatabase_spec X0 st_catdog "L" lengthSpec None H)
    as (_ & _ & _ & Hn & _).
  rewrite (Hn (lexWith ["CAT"; "DOG"] (Some db_catdog)) eq_refl). vm_compute. reflexivity.
Defined.

(** [connectToDatabase] with a database that cannot be opened reports
    failure and changes nothing, whatever the lexicon. With one that opens, on a loaded lexicon,
    it reports success, the lexicon is connected and [getNumWords] counts
    the new table; the graph, the imported data and the cache are kept (a
    word cached from an earlier database is still answered from the cache),
    and disconnecting again gives back the engine when the lexicon had no
    database before. *)
Theorem connectToDatabase_spec (st : Engine) (lex : string) (t : list (string * Row)) :
  connectToDatabase lex None st = Some (false, st) /\
  forall ld, st !! lex = Some ld ->
  exists st',
    connectToDatabase lex (Some t) st = Some (true, st') /\
    databaseIsConnected st' lex = true /\
    getNumWords st' lex = Z.of_nat (length t) /\
    (fun ld => (graph ld, wordCache ld, numAnagramsMap ld, stems ld, stemAlphagrams ld))
      <$> st'
    = (fun ld => (graph ld, wordCache ld, numAnagramsMap ld, stems ld, stemAlphagrams ld))
      <$> st /\
    (forall w i, wordCache ld !! w = Some i -> w <> "" -> getWordInfo lex w st' = (i, st')) /\
    (db ld = None -> disconnectFromDatabase lex st' = (true, st)).
Proof.
  split; [done|]. intros ld Hl.
  eexists. split; [unfold connectToDatabase; by rewrite Hl|].
  split; [by unfold databaseIsConnected; rewrite lookup_insert_eq|].
  split; [by unfold getNumWords; rewrite lookup_insert_eq|].
  split; [rewrite fmap_insert; apply insert_id; by rewrite lookup_fmap, Hl|].
  split.
  - intros w i Hc Hw. unfold getWordInfo. apply String.eqb_neq in Hw.
    rewrite Hw, lookup_insert_eq. simpl. by rewrite Hc.
  - intros Hd. unfold disconnectFromDatabase. rewrite lookup_insert_eq. simpl.
    rewrite insert_insert_eq. f_equal. apply insert_id. rewrite Hl. f_equal.
    destruct ld; simpl in *; by subst.
Qed.

Lemma connectToDatabase_spec_witness :
  graphOnly !! "TEST" = Some (lexWith ["CAT"; "DOG"] None) /\
  connectToDatabase "TEST" (Some (db_table db_catdog)) graphOnly <> None.
Proof.
  assert (H : graphOnly !! "TEST" = Some (lexWith ["CAT"; "DOG"] None)) by reflexivity.
  split; [exact H|].
  destruct (proj2 (connectToDatabase_spec graphOnly "TEST" (db_table db_catdog)) _ H)
    as (st' & Hc & _).
  by rewrite Hc.
Defined.

(** ** Importing into a lexicon and the counts afterwards *)

Lemma importLines_frame (ld : LexiconData) (lines : list string) :
  db (importLines ld lines).1 = db ld /\
  graph (importLines ld lines).1 = list_to_set (imported_words lines) ∪ graph ld /\
  (importLines ld lines).2 = Z.of_nat (length (imported_words lines)).
Proof.
  revert ld. induction lines as [|l ls IH]; intros ld; simpl.
  - split; [done|]. split; [set_solver|done].
  - assert (Hd : db (importLine ld l).1 = db ld).
    { unfold importLine. destruct (Str.simplified l) as [|c rest]; [done|].
      by destruct (Ascii.eqb c "#"). }
    assert (Hok : (importLine ld l).2 = bool_decide (is_Some (line_word l))).
    { unfold importLine, line_word. destruct (Str.simplified l) as [|c rest]; [done|].
      destruct (Ascii.eqb c "#"); [done|]. symmetry. apply bool_decide_eq_true. eauto. }
    pose proof (importLine_graph ld l) as Hg.
    destruct (importLine ld l) as [ld1 ok]. simpl in Hd, Hok, Hg.
    destruct (IH ld1) as (Hd2 & Hg2 & Hn2).
    destruct (importLines ld1 ls) as [ld2 n]. simpl in *.
    rewrite Hd2, Hg2, Hg, Hn2, Hok, list_to_set_app_L, length_app.
    destruct (line_word l) as [w|]; simpl.
    + split; [done|]. split; [set_solver|]. case_bool_decide as Hb; [lia|exfalso; eauto].
    + split; [done|]. split; [set_solver|]. case_bool_decide as Hb; [by destruct Hb|lia].
Qed.

(** [importTextFile] on a lexicon without a database returns the number of
    non-blank, non-comment lines of the file; afterwards exactly the words
    of those lines and the words already there are acceptable, and
    [getNumWords] counts the distinct ones. A file that cannot be opened
    imports nothing and returns 0, but the lexicon is loaded afterwards
    even when it was not before. *)
Theorem importTextFile_words (lex : string) (lines : list string) (st : Engine) :
  (forall ld, st !! lex = Some ld -> db ld = None) ->
  let G := match st !! lex with Some ld => graph ld | None => ∅ end in
  let st' := (importTextFile lex (Some lines) st).2 in
  (importTextFile lex (Some lines) st).1 = Z.of_nat (length (imported_words lines)) /\
  (forall w, isAcceptable st' lex w = true <-> w ∈ G \/ In w (imported_words lines)) /\
  getNumWords st' lex = Z.of_nat (size (list_to_set (imported_words lines) ∪ G)) /\
  (importTextFile lex None st).1 = 0 /\
  lexiconIsLoaded (importTextFile lex None st).2 lex = true.
Proof.
  intros Hdb G st'. subst G st'. unfold importTextFile.
  destruct (st !! lex) as [ld|] eqn:Hl.
  - rewrite Hl. specialize (Hdb ld eq_refl).
    pose proof (importLines_frame ld lines) as (Hd & Hg & Hn).
    destruct (importLines ld lines) as [ld' n]. simpl in *.
    split; [done|]. split.
    + intros w. unfold isAcceptable. rewrite lookup_insert_eq, bool_decide_eq_true, Hg.
      rewrite elem_of_union, elem_of_list_to_set, list_elem_of_In. tauto.
    + split; [by unfold getNumWords; rewrite lookup_insert_eq, Hd, Hdb, Hg|].
      split; [done|]. unfold lexiconIsLoaded. by rewrite Hl.
  - rewrite lookup_insert_eq.
    pose proof (importLines_frame newLexiconData lines) as (Hd & Hg & Hn).
    destruct (importLines newLexiconData lines) as [ld' n]. simpl in *.
    split; [done|]. split.
    + intros w. unfold isAcceptable. rewrite lookup_insert_eq, bool_decide_eq_true, Hg.
      rewrite elem_of_union, elem_of_list_to_set, list_elem_of_In. set_solver.
    + split; [by unfold getNumWords; rewrite lookup_insert_eq, Hd, Hg|].
      split; [done|]. unfold lexiconIsLoaded. by rewrite lookup_insert_eq.
Qed.

Lemma importTextFile_words_witness :
  (forall ld, graphOnly !! "TEST" = Some ld -> db ld = None) /\
  getNumWords (importTextFile "TEST" (Some ["act"; "# note"; "cat"]) graphOnly).2 "TEST" = 3.
Proof.
  assert (H : forall ld, graphOnly !! "TEST" = Some ld -> db ld = None).
  { intros ld Hl. vm_compute in Hl. by injection Hl as <-. }
  split; [exact H|].
  destruct (importTextFile_words "TEST" ["act"; "# note"; "cat"] graphOnly H)
    as (_ & _ & Hn & _).
  rewrite Hn. vm_compute. reflexivity.
Defined.

(** ** Alphagrams of a list *)

Lemma alphagrams_fold (l : list string) (s0 : gset string) :
  fold_left (fun s str => {[getAlphagram str]} ∪ s) l s0 = list_to_set (map getAlphagram l) ∪ s0.
Proof.
  revert s0. induction l as [|x l IH]; intros s0; simpl; [set_solver|].
  rewrite IH. set_solver.
Qed.

Lemma alphagrams_elements (l : list string) :
  alphagrams l = elements (list_to_set (map getAlphagram l) : gset string).
Proof. unfold alphagrams. rewrite alphagrams_fold. f_equal. set_solver. Qed.

(** [alphagrams] lists each alphagram once: exactly the alphagrams of the
    given strings, so never more entries than strings. *)
Theorem alphagrams_spec (l : list string) :
  NoDup (alphagrams l) /\
  (forall a, In a (alphagrams l) <-> exists s, In s l /\ getAlphagram s = a) /\
  (length (alphagrams l) <= length l)%nat.
Proof.
  rewrite alphagrams_elements.
  split; [apply NoDup_elements|]. split.
  - intros a. rewrite <- list_elem_of_In, elem_of_elements.
    transitivity (a ∈ map getAlphagram l); [apply elem_of_list_to_set|].
    rewrite list_elem_of_In, in_map_iff. firstorder.
  - assert (Hs : forall X : gset string, length (elements X) = size X) by reflexivity.
    rewrite Hs.
    rewrite <- (length_map getAlphagram l).
    induction (map getAlphagram l) as [|x m IH]; cbn [list_to_set length];
      [rewrite size_empty; lia|].
    rewrite size_union_alt, size_singleton.
    pose proof (subseteq_size (list_to_set m ∖ {[x]}) (list_to_set m : gset string)
                  ltac:(set_solver)). lia.
Qed.

(** ** The attribute getters on a connected lexicon *)

Lemma select_word_unique (t : list (string * Row)) (w : string) (r : Row) :
  NoDup (map fst t) -> In (w, r) t -> select_word t w = Some r.
Proof.
  induction t as [|[k r'] t IH]; simpl; [done|].
  intros Hnd Hin. apply NoDup_cons in Hnd as [Hk Hnd].
  destruct Hin as [[= -> ->]|Hin].
  - by rewrite String.eqb_refl.
  - destruct (String.eqb k w) eqn:E.
    + apply String.eqb_eq in E as ->. exfalso. apply Hk.
      apply list_elem_of_In, in_map_iff. by exists (w, r).
    + by apply IH.
Qed.

(** On a lexicon whose open table has one row per word, [getWordInfo]
    answers from that row whether or not the word was cached before. *)
Lemma getWordInfo_row (st : Engine) (lex w : string) (ld : LexiconData) (d : Database) :
  engine_ok st -> st !! lex = Some ld -> db ld = Some d -> db_open d = true ->
  NoDup (map fst (db_table d)) -> w <> "" ->
  (getWordInfo lex w st).1
  = match select_word (db_table d) w with Some r => mkInfo w r | None => emptyInfo end.
Proof.
  intros Hok Hl Hd Ho Hnd Hw. unfold getWordInfo.
  apply String.eqb_neq in Hw. rewrite Hw, Hl.
  destruct (wordCache ld !! w) as [i|] eqn:Hc.
  - destruct (Hok lex ld Hl) as [_ Hcache].
    destruct (cache_ok_elim ld w i Hcache Hc) as (d' & r' & Hd' & Hin & ->).
    rewrite Hd in Hd'. injection Hd' as <-. simpl.
    by rewrite (select_word_unique _ _ _ Hnd Hin).
  - rewrite Hd, Ho. by destruct (select_word (db_table d) w).
Qed.

(** On a connected lexicon, when the word is not in the cache or its cache
    entry is the [WordInfo] of its (first) row in the open table,
    [getWordInfo] and every attribute getter return the columns of that
    row. *)
Theorem getters_read_row (st : Engine) (lex w : string) (ld : LexiconData) (d : Database)
    (r : Row) :
  st !! lex = Some ld -> db ld = Some d -> db_open d = true ->
  w <> "" -> select_word (db_table d) w = Some r ->
  (wordCache ld !! w = None \/ wordCache ld !! w = Some (mkInfo w r)) ->
  (getWordInfo lex w st).1 = mkInfo w r /\
  (getPointValue lex w st).1 = r_point_value r /\
  (getProbabilityOrder lex w st).1 = r_probability_order r /\
  (getMinProbabilityOrder lex w st).1 = r_min_probability_order r /\
  (getMaxProbabilityOrder lex w st).1 = r_max_probability_order r /\
  (getNumAnagrams lex w st).1 = r_num_anagrams r /\
  (getNumVowels lex w st).1 = r_num_vowels r /\
  (getNumUniqueLetters lex w st).1 = r_num_unique_letters r /\
  (getIsFrontHook lex w st).1 = r_is_front_hook r /\
  (getIsBackHook lex w st).1 = r_is_back_hook r /\
  (getLexiconSymbols lex w st).1 = r_lexicon_symbols r.
Proof.
  intros Hl Hd Ho Hw Hs Hc.
  assert (Hi : (getWordInfo lex w st).1 = mkInfo w r).
  { unfold getWordInfo. apply String.eqb_neq in Hw as Hw'. rewrite Hw', Hl.
    destruct Hc as [Hc|Hc]; rewrite Hc; [rewrite Hd, Ho, Hs|]; reflexivity. }
  assert (Hv : isValid (mkInfo w r) = true).
  { unfold isValid. simpl. apply String.eqb_neq in Hw. by rewrite Hw. }
  unfold getPointValue, getProbabilityOrder, getMinProbabilityOrder, getMaxProbabilityOrder,
    getNumAnagrams, getNumVowels, getNumUniqueLetters, getIsFrontHook, getIsBackHook,
    getLexiconSymbols.
  rewrite Hl. destruct (getWordInfo lex w st) as [i st']. simpl in Hi. subst i.
  rewrite Hv. repeat split.
Qed.

(** A word that is not in the lexicon's cache and has no row in the open
    table gets no information from
    [getWordInfo], which leaves the engine unchanged; the anagram count
    then falls back on the counts of text import, and the vowel and
    distinct-letter counts are computed from the word itself. *)
Theorem getters_missing_row (st : Engine) (lex w : string) (ld : LexiconData) (d : Database) :
  st !! lex = Some ld -> wordCache ld !! w = None -> db ld = Some d -> db_open d = true ->
  select_word (db_table d) w = None ->
  getWordInfo lex w st = (emptyInfo, st) /\
  getNumAnagrams lex w st = (default 0 (numAnagramsMap ld !! getAlphagram w), st) /\
  getNumVowels lex w st = (auxNumVowels w, st) /\
  getNumUniqueLetters lex w st = (auxNumUniqueLetters w, st) /\
  getPointValue lex w st = (0, st).
Proof.
  intros Hl Hc Hd Ho Hs.
  assert (Hi : getWordInfo lex w st = (emptyInfo, st)).
  { unfold getWordInfo. destruct (String.eqb w "") eqn:Hw; [done|].
    by rewrite Hl, Hc, Hd, Ho, Hs. }
  unfold getNumAnagrams, getNumVowels, getNumUniqueLetters, getPointValue.
  rewrite Hl, Hi. repeat split.
Qed.

Lemma getters_read_row_witness :
  select_word (db_table db_catdog) "CAT" = Some row0 /\
  (getPointValue "L" "CAT" st_catdog).1 = r_point_value row0.
Proof.
  split; [reflexivity|].
  destruct (getters_read_row st_catdog "L" "CAT" (lexWith ["CAT"; "DOG"] (Some db_catdog))
              db_catdog row0 eq_refl eq_refl eq_refl ltac:(discriminate) eq_refl
              (or_introl eq_refl))
    as (_ & Hp & _).
  exact Hp.
Defined.

Lemma getters_missing_row_witness :
  select_word (db_table db_catdog) "EMU" = None /\
  getNumVowels "L" "EMU" st_catdog = (auxNumVowels "EMU", st_catdog).
Proof.
  split; [reflexivity|].
  destruct (getters_missing_row st_catdog "L" "EMU" (lexWith ["CAT"; "DOG"] (Some db_catdog))
              db_catdog eq_refl eq_refl eq_refl eq_refl eq_refl) as (_ & _ & Hv & _).
  exact Hv.
Defined.

(** ** Definitions: storing and reading back *)

Lemma string_app_assoc (a b c : string) : (a +:+ b) +:+ c = a +:+ (b +:+ c).
Proof.
  induction a as [|x a IH]; [done|].
  change (String x ((a +:+ b) +:+ c) = String x (a +:+ b +:+ c)). by rewrite IH.
Qed.

Lemma string_app_nonempty (a b : string) : a <> "" -> a +:+ b <> "".
Proof. by destruct a. Qed.

Lemma join_parts_go (sep : string) (l : list string) (acc : string) :
  acc <> "" ->
  fold_left (fun acc d => (if String.eqb acc "" then acc else acc +:+ sep) +:+ d) l acc
  = match l with [] => acc | _ => acc +:+ sep +:+ String.concat sep l end.
Proof.
  revert acc. induction l as [|x l IH]; intros acc Hacc; simpl; [done|].
  apply String.eqb_neq in Hacc as Hacc'. rewrite Hacc'.
  rewrite IH by (apply string_app_nonempty, string_app_nonempty; done).
  destruct l as [|y l]; simpl; rewrite ?string_app_assoc; done.
Qed.

(** With a non-empty first part, the joining loops of [getDefinition] give
    the parts separated by [sep]. *)
Lemma join_parts_concat (sep : string) (l : list string) :
  match l with [] => True | x :: _ => x <> "" end ->
  join_parts sep l = String.concat sep l.
Proof.
  unfold join_parts. destruct l as [|x l]; [done|]. intros Hx. simpl.
  change ("" +:+ x) with x. rewrite join_parts_go by done. by destruct l.
Qed.

Lemma qmulti_insert_perm (k v : string) (m : list (string * string)) :
  qmulti_insert k v m ≡ₚ (k, v) :: m.
Proof.
  induction m as [|[k' v'] m IH]; simpl; [done|].
  destruct (String.compare k k'); [done|done|].
  rewrite IH. constructor.
Qed.

Lemma qmulti_insert_HdRel (a : string * string) (k v : string) (m : list (string * string)) :
  HdRel (fun a b => String.compare a.1 b.1 <> Gt) a m ->
  String.compare a.1 k <> Gt ->
  HdRel (fun a b => String.compare a.1 b.1 <> Gt) a (qmulti_insert k v m).
Proof.
  intros Hh Hk. destruct m as [|[k' v'] m]; simpl; [by constructor|].
  destruct (String.compare k k'); [by constructor|by constructor|].
  apply HdRel_inv in Hh. by constructor.
Qed.

Lemma qmulti_insert_sorted (k v : string) (m : list (string * string)) :
  Sorted (fun a b => String.compare a.1 b.1 <> Gt) m ->
  Sorted (fun a b => String.compare a.1 b.1 <> Gt) (qmulti_insert k v m).
Proof.
  induction m as [|[k' v'] m IH]; intros Hs; simpl; [by repeat constructor|].
  destruct (String.compare k k') eqn:E.
  - constructor; [done|]. constructor. simpl. by rewrite E.
  - constructor; [done|]. constructor. simpl. by rewrite E.
  - apply Sorted_inv in Hs as [Hs Hh]. constructor; [by apply IH|].
    apply qmulti_insert_HdRel; [done|]. simpl.
    rewrite String.compare_antisym, E. discriminate.
Qed.

Lemma qmulti_insert_filter (t k v : string) (m : list (string * string)) :
  filter (fun kv => kv.1 = t) (qmulti_insert k v m)
  = if decide (k = t) then (k, v) :: filter (fun kv => kv.1 = t) m
    else filter (fun kv => kv.1 = t) m.
Proof.
  induction m as [|[k' v'] m IH]; simpl.
  - rewrite filter_cons, filter_nil. done.
  - destruct (String.compare k k') eqn:E; [by rewrite filter_cons|by rewrite filter_cons|].
    assert (Hne : k <> k') by (intros ->; by rewrite string_compare_refl in E).
    rewrite !filter_cons, IH. simpl.
    destruct (decide (k' = t)) as [->|]; destruct (decide (k = t)) as [->|]; try done.
Qed.

Section DefMap.
Let tag (d : string) : string := default "" (pos_capture d).
Let step (m : list (string * string)) (d : string) := qmulti_insert (tag d) d m.

Lemma defMap_sorted (l : list string) (m0 : list (string * string)) :
  Sorted (fun a b => String.compare a.1 b.1 <> Gt) m0 ->
  Sorted (fun a b => String.compare a.1 b.1 <> Gt) (fold_left step l m0).
Proof.
  revert m0. induction l as [|x l IH]; intros m0 Hs; simpl; [done|].
  apply IH. by apply qmulti_insert_sorted.
Qed.

Lemma defMap_perm (l : list string) (m0 : list (string * string)) :
  fold_left step l m0 ≡ₚ rev (map (fun d => (tag d, d)) l) ++ m0.
Proof.
  revert m0. induction l as [|x l IH]; intros m0; simpl; [done|].
  rewrite IH. unfold step at 1. rewrite qmulti_insert_perm, <- app_assoc. done.
Qed.

Lemma defMap_filter (t : string) (l : list string) (m0 : list (string * string)) :
  filter (fun kv => kv.1 = t) (fold_left step l m0)
  = rev (map (fun d => (tag d, d)) (filter (fun d => tag d = t) l))
    ++ filter (fun kv => kv.1 = t) m0.
Proof.
  revert m0. induction l as [|x l IH]; intros m0; simpl; [done|].
  rewrite IH. unfold step at 1. rewrite qmulti_insert_filter, filter_cons.
  destruct (decide (tag x = t)); simpl; [|done]. by rewrite <- app_assoc.
Qed.
End DefMap.

(** For a definition whose parts (split at " / ") are all non-empty,
    [addDefinition] stores, for the word, these parts keyed by the part of speech each part opens with in
    square brackets: sorted by that key, and, among parts with the same key,
    in reverse order of the definition. Other words and lexicons keep their
    definitions. When the word has no valid information in the database,
    [getDefinition] then reads the stored parts back in that order, joined
    by " / " or, with [replaceLinks], by newlines. *)
Theorem definitions_round_trip (st : Engine) (defs : Definitions)
    (lex word definition : string) (ld : LexiconData) :
  st !! lex = Some ld -> word <> "" -> definition <> "" ->
  isValid (getWordInfo lex word st).1 = false ->
  Forall (fun p => p <> "") (split_str " / " definition) ->
  exists mm,
    addDefinition st lex word definition defs !! lex ≫= lookup word = Some mm /\
    Sorted (fun a b => String.compare a.1 b.1 <> Gt) mm /\
    map snd mm ≡ₚ split_str " / " definition /\
    (forall t, map snd (filter (fun kv => kv.1 = t) mm)
               = rev (filter (fun d => default "" (pos_capture d) = t)
                             (split_str " / " definition))) /\
    (forall lex' w', (lex', w') <> (lex, word) ->
       addDefinition st lex word definition defs !! lex' ≫= lookup w'
       = defs !! lex' ≫= lookup w') /\
    getDefinition st (addDefinition st lex word definition defs) lex word false
    = (String.concat " / " (map snd mm), (getWordInfo lex word st).2) /\
    getDefinition st (addDefinition st lex word definition defs) lex word true
    = (String.concat nl (map snd mm), (getWordInfo lex word st).2).
Proof.
  intros Hl Hw Hd Hinv Hne.
  set (parts := split_str " / " definition) in *.
  set (mm := fold_left (fun m d => qmulti_insert (default "" (pos_capture d)) d m) parts []).
  assert (Hadd : addDefinition st lex word definition defs
                 = <[lex := <[word := mm]> (default ∅ (defs !! lex))]> defs).
  { unfold addDefinition. apply String.eqb_neq in Hw, Hd. rewrite Hw, Hd, Hl. done. }
  assert (Hperm : map snd mm ≡ₚ parts).
  { unfold mm. rewrite defMap_perm, app_nil_r, map_rev, map_map. simpl.
    rewrite map_id. symmetry. apply Permutation_rev. }
  assert (Hhead : match map snd mm with [] => True | x :: _ => x <> "" end).
  { destruct (map snd mm) as [|x l] eqn:E; [done|].
    assert (Hx : x ∈ parts) by (rewrite <- Hperm; left).
    rewrite List.Forall_forall in Hne. apply Hne. by apply list_elem_of_In. }
  exists mm. rewrite Hadd. split; [by rewrite lookup_insert_eq; simpl; rewrite lookup_insert_eq|].
  split; [apply defMap_sorted; constructor|].
  split; [done|]. split.
  { intros t. unfold mm. rewrite defMap_filter, filter_nil, app_nil_r, map_rev, map_map.
    simpl. by rewrite map_id. }
  split.
  { intros lex' w' Hne'. destruct (decide (lex' = lex)) as [->|Hlex].
    - rewrite lookup_insert_eq. simpl. rewrite lookup_insert_ne by congruence.
      by destruct (defs !! lex).
    - by rewrite lookup_insert_ne by done. }
  unfold getDefinition. rewrite Hl.
  destruct (getWordInfo lex word st) as [i st'] eqn:Ei. simpl in Hinv |- *.
  rewrite Hinv, !lookup_insert_eq, !join_parts_concat by done. done.
Qed.

Lemma definitions_round_trip_witness :
  getDefinition graphOnly
    (addDefinition graphOnly "TEST" "CAT" "[n] a feline / [v] to vomit / [n] a whip" ∅)
    "TEST" "CAT" false
  = ("[n] a whip / [n] a feline / [v] to vomit", graphOnly).
Proof.
  destruct (definitions_round_trip graphOnly ∅ "TEST" "CAT"
              "[n] a feline / [v] to vomit / [n] a whip" (lexWith ["CAT"; "DOG"] None)
              eq_refl ltac:(discriminate) ltac:(discriminate) ltac:(vm_compute; reflexivity)
              ltac:(apply (bool_decide_unpack _); vm_compute; reflexivity))
    as (mm & Hmm & _ & _ & _ & _ & Hg & _).
  rewrite Hg. vm_compute in Hmm. injection Hmm as <-. vm_compute. reflexivity.
Defined.

(** ** [QString::split] and joining back *)

Lemma split_str_go_nonempty (n : nat) (sep s : string) : split_str_go n sep s <> [].
Proof.
  destruct n as [|n]; simpl; [done|]. destruct (strip_prefix sep s); [done|].
  destruct s as [|c r]; [done|]. by destruct (split_str_go n sep r).
Qed.

Lemma strip_prefix_app (p s rest : string) :
  strip_prefix p s = Some rest ->
  s = p +:+ rest /\ String.length s = (String.length p + String.length rest)%nat.
Proof.
  revert s. induction p as [|a p IH]; intros s; simpl; [by intros [= <-]|].
  destruct s as [|b s]; [discriminate|]. destruct (Ascii.eqb a b) eqn:E; [|discriminate].
  apply Ascii.eqb_eq in E as <-. intros H. destruct (IH s H) as [-> Hlen].
  split; [reflexivity|]. simpl. lia.
Qed.

Lemma string_concat_cons_char (sep p : string) (c : ascii) (ps : list string) :
  String.concat sep (String c p :: ps) = String c (String.concat sep (p :: ps)).
Proof. by destruct ps. Qed.

(** Joining the parts of [QString::split] with the separator gives the
    string back. *)
Lemma split_str_go_join (sep : string) (n : nat) (s : string) :
  sep <> "" -> (String.length s <= n)%nat ->
  String.concat sep (split_str_go n sep s) = s.
Proof.
  intros Hsep. revert s. induction n as [|n IH]; intros s Hlen.
  - destruct s; [done|simpl in Hlen; lia].
  - simpl. destruct (strip_prefix sep s) as [rest|] eqn:E.
    + destruct (strip_prefix_app _ _ _ E) as [-> Hl].
      assert (Hsl : (0 < String.length sep)%nat) by (destruct sep; [done|simpl; lia]).
      pose proof (IH rest ltac:(lia)) as Hr.
      destruct (split_str_go n sep rest) as [|p ps] eqn:Es;
        [by apply split_str_go_nonempty in Es|].
      change (String.concat sep ("" :: p :: ps)) with ("" +:+ sep +:+ String.concat sep (p :: ps)).
      change ("" +:+ sep +:+ String.concat sep (p :: ps)) with (sep +:+ String.concat sep (p :: ps)).
      by rewrite Hr.
    + destruct s as [|c r]; [done|]. simpl in Hlen.
      pose proof (IH r ltac:(lia)) as Hr.
      destruct (split_str_go n sep r) as [|p ps] eqn:Es; [by apply split_str_go_nonempty in Es|].
      rewrite string_concat_cons_char. by rewrite Hr.
Qed.

Lemma split_str_join (sep s : string) : sep <> "" -> String.concat sep (split_str sep s) = s.
Proof. intros Hsep. unfold split_str. apply split_str_go_join; [done|lia]. Qed.

Lemma split_str_head (sep s : string) :
  strip_prefix sep s = None ->
  match split_str sep s with [] => True | x :: _ => x <> "" \/ s = "" end.
Proof.
  unfold split_str. intros Hs. destruct s as [|c r]; simpl; [by right|].
  rewrite Hs. destruct (split_str_go (String.length r) sep r); by left.
Qed.

(** When the database has valid information for the word, [getDefinition]
    returns the definition column unchanged and ignores the definitions
    added from text files; with [replaceLinks] it returns the parts of that
    column joined by newlines, that is the column with each " / " replaced
    by a newline (a column starting with " / " apart). *)
Theorem getDefinition_valid (st : Engine) (defs defs' : Definitions) (lex word : string)
    (ld : LexiconData) (i : WordInfo) (st' : Engine) :
  st !! lex = Some ld -> getWordInfo lex word st = (i, st') -> isValid i = true ->
  getDefinition st defs lex word false = (definition i, st') /\
  getDefinition st defs lex word true = getDefinition st defs' lex word true /\
  String.concat " / " (split_str " / " (definition i)) = definition i /\
  (strip_prefix " / " (definition i) = None ->
   getDefinition st defs lex word true = (String.concat nl (split_str " / " (definition i)), st')).
Proof.
  intros Hl Hi Hv. unfold getDefinition. rewrite Hl, Hi, Hv.
  split; [done|]. split; [done|]. split; [by apply split_str_join|].
  intros Hs. pose proof (split_str_head " / " (definition i) Hs) as Hh.
  destruct (split_str " / " (definition i)) as [|x l] eqn:E; [done|].
  destruct Hh as [Hx|He].
  - by rewrite join_parts_concat.
  - rewrite He in E. vm_compute in E. injection E as <- <-. done.
Qed.

Lemma getDefinition_valid_witness :
  getDefinition st_catdog ∅ "L" "CAT" false = ("", (getWordInfo "L" "CAT" st_catdog).2).
Proof.
  destruct (getDefinition_valid st_catdog ∅ ∅ "L" "CAT" (lexWith ["CAT"; "DOG"] (Some db_catdog))
              (getWordInfo "L" "CAT" st_catdog).1 (getWordInfo "L" "CAT" st_catdog).2
              eq_refl ltac:(vm_compute; reflexivity) ltac:(vm_compute; reflexivity))
    as (Hf & _).
  rewrite Hf. vm_compute. reflexivity.
Defined.

(** ** Hook letters computed by a search *)

Lemma insert_char_perm (c : ascii) (l : list ascii) : insert_char c l ≡ₚ c :: l.
Proof.
  induction l as [|d l IH]; simpl; [done|].
  destruct (N_of_ascii c <=? N_of_ascii d)%N; [done|].
  rewrite IH. constructor.
Qed.

Lemma sort_chars_perm (l : list ascii) : sort_chars l ≡ₚ l.
Proof.
  induction l as [|c l IH]; simpl; [done|]. unfold sort_chars in IH.
  rewrite insert_char_perm, IH. done.
Qed.

Lemma insert_char_sorted (c : ascii) (l : list ascii) :
  Sorted (fun a b => (N_of_ascii a <= N_of_ascii b)%N) l ->
  Sorted (fun a b => (N_of_ascii a <= N_of_ascii b)%N) (insert_char c l).
Proof.
  induction l as [|d l IH]; intros Hs; simpl; [by repeat constructor|].
  destruct (N_of_ascii c <=? N_of_ascii d)%N eqn:E.
  - apply N.leb_le in E. by constructor; [|constructor].
  - apply N.leb_gt in E. apply Sorted_inv in Hs as [Hs Hh].
    constructor; [by apply IH|].
    destruct l as [|e l]; simpl; [constructor; lia|].
    destruct (N_of_ascii c <=? N_of_ascii e)%N; constructor; [lia|].
    by apply HdRel_inv in Hh.
Qed.

Lemma sort_chars_sorted (l : list ascii) :
  Sorted (fun a b => (N_of_ascii a <= N_of_ascii b)%N) (sort_chars l).
Proof.
  induction l as [|c l IH]; simpl; [constructor|]. by apply insert_char_sorted.
Qed.

Lemma lower_char_not_upper (c : ascii) :
  ~ (65 <= N_of_ascii (lower_char c) <= 90)%N.
Proof.
  unfold lower_char. destruct ((65 <=? N_of_ascii c) && (N_of_ascii c <=? 90))%N eqn:E.
  - apply andb_true_iff in E as [E1 E2]. apply N.leb_le in E1, E2.
    rewrite N_ascii_embedding by lia. lia.
  - intros [H1 H2]. apply N.leb_le in H1, H2. by rewrite H1, H2 in E.
Qed.

Lemma hook_letters_sorted (cs : list ascii) :
  let out := String.list_ascii_of_string (String.string_of_list_ascii (sort_chars (map lower_char cs))) in
  Sorted (fun a b => (N_of_ascii a <= N_of_ascii b)%N) out /\
  out ≡ₚ map lower_char cs /\
  Forall (fun c => ~ (65 <= N_of_ascii c <= 90)%N) out.
Proof.
  simpl. rewrite String.list_ascii_of_string_of_list_ascii.
  split; [apply sort_chars_sorted|]. split; [apply sort_chars_perm|].
  rewrite sort_chars_perm. apply List.Forall_forall. intros c Hc.
  apply in_map_iff in Hc as (d & <- & _). apply lower_char_not_upper.
Qed.

(** When the database has no valid information for the word,
    [getFrontHookLetters] and [getBackHookLetters] answer with the first
    (last) letters of the words the pattern search "?word" ("word?")
    finds, one per word, lowered and sorted by character code; the engine is
    the one the search leaves. *)
Theorem hook_letters_from_search (X : Ext) (spec0 : SearchSpec) (cond0 : SearchCondition)
    (lex word : string) (st : Engine) :
  isValid (getWordInfo lex word st).1 = false ->
  (forall s st2, getFrontHookLetters X spec0 cond0 lex word st = Some (s, st2) ->
     let res := search X lex (hookSpec spec0 cond0 (String "?" word)) true
                       (getWordInfo lex word st).2 in
     st2 = res.2 /\
     exists cs, map_opt first_char res.1 = Some cs /\
       Sorted (fun a b => (N_of_ascii a <= N_of_ascii b)%N) (String.list_ascii_of_string s) /\
       String.list_ascii_of_string s ≡ₚ map lower_char cs /\
       Forall (fun c => ~ (65 <= N_of_ascii c <= 90)%N) (String.list_ascii_of_string s)) /\
  (forall s st2, getBackHookLetters X spec0 cond0 lex word st = Some (s, st2) ->
     let res := search X lex (hookSpec spec0 cond0 (word +:+ "?")) true
                       (getWordInfo lex word st).2 in
     st2 = res.2 /\
     exists cs, map_opt last_char res.1 = Some cs /\
       Sorted (fun a b => (N_of_ascii a <= N_of_ascii b)%N) (String.list_ascii_of_string s) /\
       String.list_ascii_of_string s ≡ₚ map lower_char cs /\
       Forall (fun c => ~ (65 <= N_of_ascii c <= 90)%N) (String.list_ascii_of_string s)).
Proof.
  intros Hinv. unfold getFrontHookLetters, getBackHookLetters.
  destruct (getWordInfo lex word st) as [i st1]. simpl in Hinv |- *. rewrite Hinv.
  split.
  - intros s st2.
    destruct (search X lex (hookSpec spec0 cond0 (String "?" word)) true st1) as [ws st3].
    simpl. destruct (map_opt first_char ws) as [cs|]; [|discriminate].
    intros [= <- <-]. split; [done|]. exists cs. split; [done|]. apply hook_letters_sorted.
  - intros s st2.
    destruct (search X lex (hookSpec spec0 cond0 (word +:+ "?")) true st1) as [ws st3].
    simpl. destruct (map_opt last_char ws) as [cs|]; [|discriminate].
    intros [= <- <-]. split; [done|]. exists cs. split; [done|]. apply hook_letters_sorted.
Qed.

Lemma hook_letters_from_search_witness :
  match getFrontHookLetters X0 wordlist_spec (cond PatternMatch "") "TEST" "AT" graphOnly with
  | Some (s, _) => Sorted (fun a b => (N_of_ascii a <= N_of_ascii b)%N) (String.list_ascii_of_string s)
  | None => False
  end.
Proof.
  destruct (getFrontHookLetters X0 wordlist_spec (cond PatternMatch "") "TEST" "AT" graphOnly)
    as [[s st2]|] eqn:E; [|vm_compute in E; discriminate].
  destruct (hook_letters_from_search X0 wordlist_spec (cond PatternMatch "") "TEST" "AT"
              graphOnly ltac:(vm_compute; reflexivity)) as [Hf _].
  destruct (Hf s st2 E) as (_ & cs & _ & Hs & _). exact Hs.
Defined.

(** ** [nonGraphSearch]: where the result words come from *)

Lemma ConditionType_eqb_eq (a b : ConditionType) : ConditionType_eqb a b = true <-> a = b.
Proof. split; [destruct a, b; done|intros ->; by destruct b]. Qed.

Lemma wordSetOf_spec (st : Engine) (lex : string) (c : SearchCondition) (w : string) :
  w ∈ wordSetOf st lex c <-> isAcceptable st lex w = true /\ In w (Str.split_sp (stringValue c)).
Proof.
  unfold wordSetOf. rewrite elem_of_list_to_set, list_elem_of_filter, list_elem_of_In. done.
Qed.

(** Every word the condition loop keeps comes from the starting set or
    from the word set of an In Word List condition. *)
Lemma ng_loop_from (st : Engine) (lex : string) (conj : bool) (conds : list SearchCondition)
    (b : NGBounds) (final : gset string) (num : Z) (b' : NGBounds) (final' : gset string) :
  ng_loop st lex conj conds b final num = Some (b', final') ->
  forall w, w ∈ final' ->
    w ∈ final \/ exists c, In c conds /\ ctype c = InWordList /\ w ∈ wordSetOf st lex c.
Proof.
  revert b final num. induction conds as [|c rest IH]; intros b final num H w Hw; simpl in H.
  - injection H as <- <-. by left.
  - destruct (ng_bounds_step b c) as [b1|]; [|discriminate].
    destruct (ConditionType_eqb (ctype c) InWordList) eqn:Ec.
    + apply ConditionType_eqb_eq in Ec.
      destruct (num =? 0).
      * destruct (IH _ _ _ H w Hw) as [Hin|(c' & Hc' & Ht & Hin)];
          [right; exists c; split; [by left|done]|right; exists c'; split; [by right|done]].
      * destruct conj.
        -- destruct (bool_decide (final ∩ wordSetOf st lex c = ∅)); [discriminate|].
           destruct (IH _ _ _ H w Hw) as [Hin|(c' & Hc' & Ht & Hin)];
             [left; set_solver|right; exists c'; split; [by right|done]].
        -- destruct (IH _ _ _ H w Hw) as [Hin|(c' & Hc' & Ht & Hin)].
           ++ apply elem_of_union in Hin as [Hin|Hin]; [by left|].
              right. exists c. split; [by left|done].
           ++ right. exists c'. split; [by right|done].
    + destruct (IH _ _ _ H w Hw) as [Hin|(c' & Hc' & Ht & Hin)]; [by left|].
      right. exists c'. split; [by right|done].
Qed.

(** In a conjunction, a word the loop keeps is in the word set of every
    In Word List condition, and, once one has been seen, in the running set. *)
Lemma ng_loop_conj (st : Engine) (lex : string) (conds : list SearchCondition)
    (b : NGBounds) (final : gset string) (num : Z) (b' : NGBounds) (final' : gset string) :
  0 <= num ->
  ng_loop st lex true conds b final num = Some (b', final') ->
  forall w, w ∈ final' ->
    (num <> 0 -> w ∈ final) /\
    forall c, In c conds -> ctype c = InWordList -> w ∈ wordSetOf st lex c.
Proof.
  revert b final num. induction conds as [|c rest IH]; intros b final num Hn H w Hw; simpl in H.
  - injection H as <- <-. split; [done|]. by intros c [].
  - destruct (ng_bounds_step b c) as [b1|]; [|discriminate].
    destruct (ConditionType_eqb (ctype c) InWordList) eqn:Ec.
    + apply ConditionType_eqb_eq in Ec.
      destruct (num =? 0) eqn:E0.
      * apply Z.eqb_eq in E0.
        destruct (IH _ _ (num + 1) ltac:(lia) H w Hw) as [Hin Hall].
        split; [done|]. intros c' [<-|Hc'] Ht; [apply Hin; lia|by apply Hall].
      * apply Z.eqb_neq in E0.
        destruct (bool_decide (final ∩ wordSetOf st lex c = ∅)); [discriminate|].
        destruct (IH _ _ (num + 1) ltac:(lia) H w Hw) as [Hin Hall].
        specialize (Hin ltac:(lia)). apply elem_of_intersection in Hin as [Hf Hc].
        split; [done|]. intros c' [<-|Hc'] Ht; [done|by apply Hall].
    + destruct (IH _ _ _ Hn H w Hw) as [Hin Hall]. split; [done|].
      intros c' [<-|Hc'] Ht; [by rewrite Ht in Ec|by apply Hall].
Qed.

(** The filtering loop keeps only words of the set it runs over. *)
Lemma ng_filter_subset (lex : string) (b : NGBounds) (tA tV tU tP : bool)
    (l : list string) (ws : gset string) (s : Engine) :
  forall w, w ∈ (fold_left (fun acc w =>
                   let '(ws, s) := acc in
                   let '(ok, s') := ng_test lex b tA tV tU tP w s in
                   (if ok then {[w]} ∪ ws else ws, s')) l (ws, s)).1 ->
  w ∈ ws \/ In w l.
Proof.
  revert ws s. induction l as [|x l IH]; intros ws s w Hw; simpl in Hw; [by left|].
  destruct (ng_test lex b tA tV tU tP x s) as [ok s'].
  destruct (IH _ _ w Hw) as [Hin|Hin]; [|by right; right].
  destruct ok; [|by left]. apply elem_of_union in Hin as [Hin|Hin]; [|by left].
  apply elem_of_singleton in Hin as ->. by right; left.
Qed.

Lemma nonGraphSearch_subset (MAX_WORD_LEN : Z) (st : Engine) (lex : string) (spec : SearchSpec)
    (w : string) :
  w ∈ (nonGraphSearch MAX_WORD_LEN st lex spec).1 ->
  exists b final,
    ng_loop st lex (conjunction spec) (conditions spec) (ng_init MAX_WORD_LEN) ∅ 0
    = Some (b, final) /\ w ∈ final.
Proof.
  unfold nonGraphSearch.
  destruct (ng_loop st lex (conjunction spec) (conditions spec) (ng_init MAX_WORD_LEN) ∅ 0)
    as [[b final]|]; [|simpl; set_solver].
  intros Hw. exists b, final. split; [done|].
  match type of Hw with context [if ?cond then _ else _] => destruct cond end; [|done].
  apply ng_filter_subset in Hw as [Hw|Hw]; [set_solver|]. by apply elem_of_elements, list_elem_of_In.
Qed.

(** Every word [nonGraphSearch] returns is acceptable in the lexicon and is
    listed in an In Word List condition of the specification; in a
    conjunction it is listed in every one of them. So a specification with
    no In Word List condition gives no word. *)
Theorem nonGraphSearch_words (MAX_WORD_LEN : Z) (st : Engine) (lex : string)
    (spec : SearchSpec) (w : string) :
  w ∈ (nonGraphSearch MAX_WORD_LEN st lex spec).1 ->
  isAcceptable st lex w = true /\
  (exists c, In c (conditions spec) /\ ctype c = InWordList /\
             In w (Str.split_sp (stringValue c))) /\
  (conjunction spec = true ->
   forall c, In c (conditions spec) -> ctype c = InWordList ->
             In w (Str.split_sp (stringValue c))).
Proof.
  intros Hw. destruct (nonGraphSearch_subset _ _ _ _ _ Hw) as (b & final & Hl & Hf).
  destruct (ng_loop_from _ _ _ _ _ _ _ _ _ Hl w Hf) as [Hin|(c & Hc & Ht & Hin)];
    [set_solver|].
  apply wordSetOf_spec in Hin as [Ha Hs].
  split; [done|]. split; [by exists c|].
  intros Hconj c' Hc' Ht'. rewrite Hconj in Hl.
  destruct (ng_loop_conj st lex _ _ _ 0 _ _ ltac:(lia) Hl w Hf) as [_ Hall].
  by apply (wordSetOf_spec st lex c' w), (Hall c').
Qed.

Lemma nonGraphSearch_words_witness :
  "CAT" ∈ (nonGraphSearch 15 graphOnly "TEST" wordlist_spec).1 /\
  isAcceptable graphOnly "TEST" "CAT" = true.
Proof.
  assert (H : "CAT" ∈ (nonGraphSearch 15 graphOnly "TEST" wordlist_spec).1)
    by (apply (bool_decide_unpack _); vm_compute; reflexivity).
  split; [exact H|]. exact (proj1 (nonGraphSearch_words 15 graphOnly "TEST" wordlist_spec "CAT" H)).
Defined.

(** ** [nonGraphSearch]: contradictory ranges *)

Lemma narrow_some (r r' : Z * Z) (c : SearchCondition) :
  narrow r c = Some r' ->
  r.1 <= r'.1 /\ r'.2 <= r.2 /\ minValue c <= r'.1 /\ r'.2 <= maxValue c.
Proof.
  destruct r as [lo hi]. unfold narrow.
  destruct ((hi <? minValue c) || (maxValue c <? lo)); [discriminate|].
  intros [= <-]. simpl.
  destruct (lo <? minValue c) eqn:E1; destruct (maxValue c <? hi) eqn:E2;
    rewrite ?Z.ltb_lt, ?Z.ltb_ge in E1, E2; lia.
Qed.

Lemma narrow_none (r : Z * Z) (c : SearchCondition) :
  r.2 < minValue c \/ maxValue c < r.1 -> narrow r c = None.
Proof.
  destruct r as [lo hi]. unfold narrow. simpl. intros H.
  destruct ((hi <? minValue c) || (maxValue c <? lo)) eqn:E; [done|].
  apply orb_false_iff in E as [E1 E2]. rewrite Z.ltb_ge in E1, E2. lia.
Qed.

(** The range kinds: the condition types [nonGraphSearch] keeps bounds for. *)
Lemma ng_range_kind (t : ConditionType) (b : NGBounds) :
  In t [NumAnagrams; NumVowels; NumUniqueLetters; PointValue] -> is_Some (ng_range t b).
Proof. intros [<-|[<-|[<-|[<-|[]]]]]; simpl; eauto. Qed.

(** A step only narrows every range. *)
Lemma ng_bounds_step_mono (b b' : NGBounds) (c : SearchCondition) (t : ConditionType)
    (r : Z * Z) :
  ng_bounds_step b c = Some b' -> ng_range t b = Some r ->
  exists r', ng_range t b' = Some r' /\ r.1 <= r'.1 /\ r'.2 <= r.2.
Proof.
  unfold ng_bounds_step. intros Hs Hr.
  destruct (ctype c);
    try (injection Hs as <-; exists r; split; [done|lia]);
    (destruct (narrow _ c) as [r1|] eqn:En; [|discriminate]);
    injection Hs as <-; apply narrow_some in En;
    (destruct t; simpl in Hr |- *; try discriminate; injection Hr as <-;
     eexists; (split; [reflexivity|lia])).
Qed.

(** A step on a range condition brings its own range within the
    condition's bounds, and fails when they do not meet. *)
Lemma ng_bounds_step_own (b : NGBounds) (c : SearchCondition) (r : Z * Z) :
  ng_range (ctype c) b = Some r ->
  match ng_bounds_step b c with
  | Some b' => exists r', ng_range (ctype c) b' = Some r' /\
                 minValue c <= r'.1 /\ r'.2 <= maxValue c
  | None => r.2 < minValue c \/ maxValue c < r.1
  end.
Proof.
  unfold ng_bounds_step. intros Hr.
  destruct (ctype c); try discriminate; simpl in Hr; injection Hr as Hr; rewrite Hr;
    (destruct (narrow r c) as [r1|] eqn:En;
     [apply narrow_some in En; eexists; split; [reflexivity|simpl; lia]|]);
    destruct r as [lo hi]; unfold narrow in En; simpl;
    (destruct ((hi <? minValue c) || (maxValue c <? lo)) eqn:E; [|discriminate]);
    apply orb_true_iff in E as [E|E]; apply Z.ltb_lt in E; lia.
Qed.

Lemma ng_bounds_step_fail (b : NGBounds) (c : SearchCondition) (r : Z * Z) :
  ng_range (ctype c) b = Some r -> r.2 < minValue c \/ maxValue c < r.1 ->
  ng_bounds_step b c = None.
Proof.
  unfold ng_bounds_step. intros Hr Hout.
  destruct (ctype c); try discriminate; simpl in Hr; injection Hr as Hr; rewrite Hr;
    by rewrite narrow_none.
Qed.

Lemma ng_loop_prefix (st : Engine) (lex : string) (conj : bool) (l1 l2 : list SearchCondition)
    (b : NGBounds) (final : gset string) (num : Z) (res : NGBounds * gset string) :
  ng_loop st lex conj (l1 ++ l2) b final num = Some res ->
  exists b1 final1 num1,
    ng_loop st lex conj l2 b1 final1 num1 = Some res /\
    forall t r, ng_range t b = Some r ->
      exists r1, ng_range t b1 = Some r1 /\ r.1 <= r1.1 /\ r1.2 <= r.2.
Proof.
  revert b final num. induction l1 as [|c l1 IH]; intros b final num H; simpl in H.
  - exists b, final, num. split; [done|]. intros t r ->. exists r. split; [done|lia].
  - destruct (ng_bounds_step b c) as [b'|] eqn:Es; [|discriminate].
    assert (Hstep : forall final2 num2,
              ng_loop st lex conj (l1 ++ l2) b' final2 num2 = Some res ->
              exists b1 final1 num1,
                ng_loop st lex conj l2 b1 final1 num1 = Some res /\
                forall t r, ng_range t b = Some r ->
                  exists r1, ng_range t b1 = Some r1 /\ r.1 <= r1.1 /\ r1.2 <= r.2).
    { intros final2 num2 H2. destruct (IH _ _ _ H2) as (b1 & f1 & n1 & Hl & Hm).
      exists b1, f1, n1. split; [done|]. intros t r Hr.
      destruct (ng_bounds_step_mono _ _ _ _ _ Es Hr) as (r' & Hr' & H1 & H2').
      destruct (Hm t r' Hr') as (r1 & Hr1 & H3 & H4). exists r1. split; [done|lia]. }
    destruct (ConditionType_eqb (ctype c) InWordList).
    + destruct (num =? 0); [by eapply Hstep|].
      destruct conj; [|by eapply Hstep].
      destruct (bool_decide _); [discriminate|]. by eapply Hstep.
    + by eapply Hstep.
Qed.

(** Two conditions on the number of anagrams, vowels, distinct letters or
    on the point value whose ranges do not meet make [nonGraphSearch]
    return no word, without looking at the words and without changing the
    engine. *)
Theorem nonGraphSearch_disjoint_ranges (MAX_WORD_LEN : Z) (st : Engine) (lex : string)
    (spec : SearchSpec) (pre mid post : list SearchCondition) (c1 c2 : SearchCondition) :
  conditions spec = pre ++ c1 :: mid ++ c2 :: post ->
  In (ctype c1) [NumAnagrams; NumVowels; NumUniqueLetters; PointValue] ->
  ctype c2 = ctype c1 ->
  maxValue c1 < minValue c2 \/ maxValue c2 < minValue c1 ->
  nonGraphSearch MAX_WORD_LEN st lex spec = (∅, st).
Proof.
  intros Hconds Hk Ht Hdis. unfold nonGraphSearch. rewrite Hconds.
  destruct (ng_loop st lex (conjunction spec) (pre ++ c1 :: mid ++ c2 :: post)
              (ng_init MAX_WORD_LEN) ∅ 0) as [res|] eqn:Hl; [exfalso|done].
  apply ng_loop_prefix in Hl as (b1 & f1 & n1 & Hl & _).
  simpl in Hl. destruct (ng_range_kind (ctype c1) b1 Hk) as [r1 Hr1].
  pose proof (ng_bounds_step_own b1 c1 r1 Hr1) as Hown.
  destruct (ng_bounds_step b1 c1) as [b2|]; [|discriminate].
  destruct Hown as (r2 & Hr2 & Hmin2 & Hmax2).
  assert (Hnw : ConditionType_eqb (ctype c1) InWordList = false).
  { destruct (ConditionType_eqb (ctype c1) InWordList) eqn:E; [|done].
    apply ConditionType_eqb_eq in E. rewrite E in Hk. simpl in Hk. naive_solver. }
  rewrite Hnw in Hl.
  apply ng_loop_prefix in Hl as (b3 & f3 & n3 & Hl & Hm).
  destruct (Hm _ _ Hr2) as (r3 & Hr3 & H31 & H32).
  rewrite <- Ht in Hr3. simpl in Hl.
  rewrite (ng_bounds_step_fail b3 c2 r3 Hr3) in Hl; [discriminate|]. lia.
Qed.

Lemma nonGraphSearch_disjoint_ranges_witness :
  nonGraphSearch 15 graphOnly "TEST"
    {| conjunction := true;
       conditions := [cond InWordList "CAT";
                      {| ctype := NumVowels; stringValue := ""; minValue := 0; maxValue := 1;
                         boolValue := false; legacy := false; negated := false |};
                      {| ctype := NumVowels; stringValue := ""; minValue := 2; maxValue := 3;
                         boolValue := false; legacy := false; negated := false |}] |}
  = (∅, graphOnly).
Proof.
  apply (nonGraphSearch_disjoint_ranges 15 graphOnly "TEST" _ [cond InWordList "CAT"] [] []
           {| ctype := NumVowels; stringValue := ""; minValue := 0; maxValue := 1;
              boolValue := false; legacy := false; negated := false |}
           {| ctype := NumVowels; stringValue := ""; minValue := 2; maxValue := 3;
              boolValue := false; legacy := false; negated := false |}).
  - reflexivity.
  - simpl. tauto.
  - reflexivity.
  - simpl. lia.
Defined.

(** ** [nonGraphSearch] with word lists only: the point-value pass *)

Lemma getWordInfo_db (lex w : string) (st : Engine) (ld : LexiconData) :
  st !! lex = Some ld ->
  exists ld', (getWordInfo lex w st).2 !! lex = Some ld' /\ db ld' = db ld.
Proof.
  intros Hl. unfold getWordInfo.
  destruct (String.eqb w ""); [by exists ld|]. rewrite Hl.
  destruct (wordCache ld !! w); [by exists ld|].
  destruct (db ld) as [d|] eqn:Hd; [|by exists ld; rewrite Hd].
  destruct (db_open d); [|by exists ld; rewrite Hd].
  destruct (select_word (db_table d) w); [|by exists ld; rewrite Hd].
  simpl. rewrite lookup_insert_eq. eexists. split; [done|]. by simpl.
Qed.

(** [getWordInfo] never drops or changes a cache entry. *)
Lemma getWordInfo_keeps_cache (lex w x : string) (st : Engine) (ld : LexiconData) (v : WordInfo) :
  st !! lex = Some ld -> wordCache ld !! x = Some v ->
  exists ld', (getWordInfo lex w st).2 !! lex = Some ld' /\ wordCache ld' !! x = Some v.
Proof.
  intros Hl Hx. unfold getWordInfo.
  destruct (String.eqb w ""); [by exists ld|]. rewrite Hl.
  destruct (wordCache ld !! w) eqn:Hw; [by exists ld|].
  destruct (db ld) as [d|]; [|by exists ld].
  destruct (db_open d); [|by exists ld].
  destruct (select_word (db_table d) w); [|by exists ld].
  simpl. rewrite lookup_insert_eq. eexists. split; [done|]. simpl.
  rewrite lookup_insert_ne; [done|]. intros ->. congruence.
Qed.

(** After [getWordInfo] on a word with a row, the word's row is cached. *)
Lemma getWordInfo_caches (lex w : string) (st : Engine) (ld : LexiconData) (d : Database)
    (r : Row) :
  engine_ok st -> st !! lex = Some ld -> db ld = Some d -> db_open d = true ->
  NoDup (map fst (db_table d)) -> select_word (db_table d) w = Some r ->
  exists ld', (getWordInfo lex w st).2 !! lex = Some ld' /\ wordCache ld' !! w = Some (mkInfo w r).
Proof.
  intros Hok Hl Hd Ho Hnd Hs.
  destruct (engine_ok_lookup st lex ld Hok Hl) as [Hdbok Hc].
  assert (Hw : String.eqb w "" = false).
  { apply String.eqb_neq. intros ->. apply select_word_In in Hs.
    unfold db_ok in Hdbok. rewrite Hd in Hdbok. rewrite List.Forall_forall in Hdbok.
    by apply (Hdbok _ Hs). }
  unfold getWordInfo. rewrite Hw, Hl.
  destruct (wordCache ld !! w) as [i|] eqn:Hi.
  - destruct (cache_ok_elim ld w i Hc Hi) as (d' & r' & Hd' & Hin & ->).
    rewrite Hd in Hd'. injection Hd' as <-.
    rewrite (select_word_unique _ _ _ Hnd Hin) in Hs. injection Hs as ->. by exists ld.
  - rewrite Hd, Ho, Hs. simpl. rewrite lookup_insert_eq. eexists. split; [done|].
    simpl. by rewrite lookup_insert_eq.
Qed.

(** The point value [getPointValue] reads on a connected lexicon whose
    table has one row per word: the row's, or 0 without a row. *)
Lemma getPointValue_table (lex w : string) (st : Engine) (ld : LexiconData) (d : Database) :
  engine_ok st -> st !! lex = Some ld -> db ld = Some d -> db_open d = true ->
  NoDup (map fst (db_table d)) ->
  (getPointValue lex w st).1
  = match select_word (db_table d) w with Some r => r_point_value r | None => 0 end /\
  (getPointValue lex w st).2 = (getWordInfo lex w st).2.
Proof.
  intros Hok Hl Hd Ho Hnd. unfold getPointValue. rewrite Hl.
  destruct (String.eqb_spec w "") as [->|Hw].
  - destruct (engine_ok_lookup st lex ld Hok Hl) as [Hdbok _].
    assert (Hs : select_word (db_table d) "" = None).
    { destruct (select_word (db_table d) "") as [r|] eqn:Hs; [|done].
      apply select_word_In in Hs. unfold db_ok in Hdbok. rewrite Hd in Hdbok.
      rewrite List.Forall_forall in Hdbok. by destruct (Hdbok _ Hs). }
    rewrite Hs. by unfold getWordInfo.
  - pose proof (getWordInfo_row st lex w ld d Hok Hl Hd Ho Hnd Hw) as Hi.
    destruct (getWordInfo lex w st) as [i st']. simpl in Hi |- *. subst i.
    destruct (select_word (db_table d) w) as [r|]; [|done].
    unfold isValid. simpl. apply String.eqb_neq in Hw. by rewrite Hw.
Qed.

Lemma in_range_spec (v lo hi : Z) : in_range v (lo, hi) = true <-> lo <= v <= hi.
Proof.
  unfold in_range. simpl. rewrite negb_true_iff, orb_false_iff, !Z.ltb_ge. lia.
Qed.

Lemma ng_test_points (lex w : string) (b : NGBounds) (s : Engine) :
  ng_test lex b false false false true w s
  = (in_range (getPointValue lex w s).1 (ngPoints b), (getPointValue lex w s).2).
Proof. unfold ng_test. simpl. by destruct (getPointValue lex w s). Qed.

(** The filtering loop of [nonGraphSearch] when it tests the point value
    only, on a connected lexicon. *)
Lemma ng_points_fold (MAX_WORD_LEN : Z) (lex : string) (b : NGBounds) (d : Database)
    (l : list string) :
  ngPoints b = (0, 10 * MAX_WORD_LEN) -> db_open d = true -> NoDup (map fst (db_table d)) ->
  forall (ws : gset string) (s : Engine),
  engine_ok s -> (exists ld, s !! lex = Some ld /\ db ld = Some d) ->
  let res := fold_left (fun acc w =>
                 let '(ws, s) := acc in
                 let '(ok, s') := ng_test lex b false false false true w s in
                 (if ok then {[w]} ∪ ws else ws, s')) l (ws, s) in
  engine_ok res.2 /\ (exists ld, res.2 !! lex = Some ld /\ db ld = Some d) /\
  (forall w, w ∈ res.1 <-> w ∈ ws \/
     (In w l /\ 0 <= match select_word (db_table d) w with
                     | Some r => r_point_value r | None => 0 end <= 10 * MAX_WORD_LEN)) /\
  (forall x v ld, s !! lex = Some ld -> wordCache ld !! x = Some v ->
     exists ld', res.2 !! lex = Some ld' /\ wordCache ld' !! x = Some v) /\
  (forall w r, In w l -> select_word (db_table d) w = Some r ->
     exists ld', res.2 !! lex = Some ld' /\ wordCache ld' !! w = Some (mkInfo w r)).
Proof.
  intros Hb Ho Hnd. induction l as [|x l IH]; intros ws s Hok (ld & Hl & Hd); simpl.
  - split; [done|]. split; [by exists ld|]. split; [intros w; tauto|].
    split; [intros x v ld' Hl' Hx; rewrite Hl in Hl'; injection Hl' as <-; by exists ld|].
    by intros w r [].
  - rewrite ng_test_points, Hb.
    destruct (getPointValue_table lex x s ld d Hok Hl Hd Ho Hnd) as [Hv Hs].
    rewrite Hv, Hs.
    pose proof (getWordInfo_engine_ok lex x s Hok) as Hok1.
    destruct (getWordInfo_db lex x s ld Hl) as (ld1 & Hl1 & Hd1). rewrite Hd in Hd1.
    set (ws1 := if in_range _ _ then {[x]} ∪ ws else ws).
    destruct (IH ws1 (getWordInfo lex x s).2 Hok1 (ex_intro _ ld1 (conj Hl1 Hd1)))
      as (Hok2 & Hdb2 & Hmem & Hkeep & Hcache).
    split; [done|]. split; [done|]. split.
    + intros w. rewrite Hmem. unfold ws1.
      destruct (in_range _ _) eqn:Er.
      * apply in_range_spec in Er. rewrite elem_of_union, elem_of_singleton.
        split; [intros [[->|Hw]|[Hw Hr]]; [right; split; [by left|done]|by left|right; split; [by right|done]]|].
        intros [Hw|[[->|Hw] Hr]]; [by left; right|by left; left|by right].
      * rewrite <- not_true_iff_false, in_range_spec in Er.
        split; [intros [Hw|[Hw Hr]]; [by left|right; split; [by right|done]]|].
        intros [Hw|[[->|Hw] Hr]]; [by left|done|by right].
    + split.
      * intros y v ld' Hl' Hy. rewrite Hl in Hl'. injection Hl' as <-.
        destruct (getWordInfo_keeps_cache lex x y s ld v Hl Hy) as (ld2 & Hl2 & Hy2).
        by apply (Hkeep y v ld2).
      * intros w r [->|Hw] Hr; [|by apply Hcache].
        destruct (getWordInfo_caches lex w s ld d r Hok Hl Hd Ho Hnd Hr) as (ld2 & Hl2 & Hc2).
        by apply (Hkeep w _ ld2).
Qed.

(** The condition loop when every condition is an In Word List condition
    of a disjunction: the bounds stay, the word set is the union. *)
Lemma ng_loop_lists (st : Engine) (lex : string) (conds : list SearchCondition)
    (b : NGBounds) (final : gset string) (num : Z) :
  Forall (fun c => ctype c = InWordList) conds -> 0 <= num -> (num = 0 -> final = ∅) ->
  exists final', ng_loop st lex false conds b final num = Some (b, final') /\
    forall w, w ∈ final' <-> w ∈ final \/ exists c, In c conds /\ w ∈ wordSetOf st lex c.
Proof.
  revert final num. induction conds as [|c rest IH]; intros final num Hall Hn H0; simpl.
  - exists final. split; [done|]. intros w. split; [tauto|]. intros [Hw|(c & [] & _)]; done.
  - apply List.Forall_cons_iff in Hall as [Hc Hall].
    assert (Hstep : ng_bounds_step b c = Some b) by (unfold ng_bounds_step; by rewrite Hc).
    rewrite Hstep, Hc. simpl.
    destruct (num =? 0) eqn:E0.
    + apply Z.eqb_eq in E0. specialize (H0 E0) as ->.
      destruct (IH (wordSetOf st lex c) (num + 1) Hall ltac:(lia) ltac:(lia))
        as (final' & Hl & Hm).
      exists final'. split; [done|]. intros w. rewrite Hm. split.
      * intros [Hw|(c' & Hc' & Hw)]; right; [exists c; split; [by left|done]|].
        exists c'. split; [by right|done].
      * intros [Hw|(c' & [<-|Hc'] & Hw)]; [set_solver|by left|].
        right. by exists c'.
    + apply Z.eqb_neq in E0.
      destruct (IH (final ∪ wordSetOf st lex c) (num + 1) Hall ltac:(lia) ltac:(lia))
        as (final' & Hl & Hm).
      exists final'. split; [done|]. intros w. rewrite Hm, elem_of_union. split.
      * intros [[Hw|Hw]|(c' & Hc' & Hw)]; [by left| |].
        -- right. exists c. split; [by left|done].
        -- right. exists c'. split; [by right|done].
      * intros [Hw|(c' & [<-|Hc'] & Hw)]; [by left; left|by left; right|].
        right. by exists c'.
Qed.

Lemma In_elements (X : gset string) (w : string) : In w (elements X) <-> w ∈ X.
Proof. by rewrite <- list_elem_of_In, elem_of_elements. Qed.

(** [nonGraphSearch] on a disjunction of In Word List conditions only, on a
    connected lexicon whose table has one row per word, in an engine whose
    caches hold only rows of the current tables ([engine_ok], kept by every
    call but connecting and disconnecting a database): since its last test
    reads [minPointValue] twice, the point-value pass runs although no
    condition asks for it. The result is the listed acceptable words whose
    point value (0 without a row) is between 0 and [10 * MAX_WORD_LEN], and every
    listed acceptable word with a row is in the cache afterwards. *)
Theorem nonGraphSearch_word_lists_only (MAX_WORD_LEN : Z) (st : Engine) (lex : string)
    (spec : SearchSpec) (ld : LexiconData) (d : Database) :
  0 < MAX_WORD_LEN -> conjunction spec = false ->
  Forall (fun c => ctype c = InWordList) (conditions spec) ->
  engine_ok st -> st !! lex = Some ld -> db ld = Some d -> db_open d = true ->
  NoDup (map fst (db_table d)) ->
  (forall w, w ∈ (nonGraphSearch MAX_WORD_LEN st lex spec).1 <->
     (isAcceptable st lex w = true /\
      exists c, In c (conditions spec) /\ In w (Str.split_sp (stringValue c))) /\
     0 <= match select_word (db_table d) w with
          | Some r => r_point_value r | None => 0 end <= 10 * MAX_WORD_LEN) /\
  (forall w r, isAcceptable st lex w = true ->
     (exists c, In c (conditions spec) /\ In w (Str.split_sp (stringValue c))) ->
     select_word (db_table d) w = Some r ->
     exists ld', (nonGraphSearch MAX_WORD_LEN st lex spec).2 !! lex = Some ld' /\
                 wordCache ld' !! w = Some (mkInfo w r)).
Proof.
  intros HM Hconj Hall Hok Hl Hd Ho Hnd.
  destruct (ng_loop_lists st lex (conditions spec) (ng_init MAX_WORD_LEN) ∅ 0 Hall
              ltac:(lia) ltac:(done)) as (final & Hloop & Hfin).
  assert (Hlisted : forall w, w ∈ final <->
            isAcceptable st lex w = true /\
            exists c, In c (conditions spec) /\ In w (Str.split_sp (stringValue c))).
  { intros w. rewrite Hfin. split.
    - intros [Hw|(c & Hc & Hw)]; [set_solver|].
      apply wordSetOf_spec in Hw as [Ha Hs]. split; [done|]. by exists c.
    - intros [Ha (c & Hc & Hs)]. right. exists c. split; [done|]. by apply wordSetOf_spec. }
  unfold nonGraphSearch. rewrite Hconj, Hloop.
  cbn [ngAnagrams ngVowels ngUnique ngPoints ng_init fst snd].
  rewrite !Z.ltb_irrefl.
  assert (HP : (0 <? 10 * MAX_WORD_LEN) = true) by (apply Z.ltb_lt; lia).
  rewrite HP. cbn [orb]. rewrite orb_true_r.
  destruct (ng_points_fold MAX_WORD_LEN lex (ng_init MAX_WORD_LEN) d (elements final)
              eq_refl Ho Hnd ∅ st Hok (ex_intro _ ld (conj Hl Hd)))
    as (_ & _ & Hmem & _ & Hcache).
  split.
  - intros w. rewrite Hmem, <- Hlisted, In_elements. set_solver.
  - intros w r Ha Hc Hr. apply (Hcache w r); [|done].
    apply In_elements, Hlisted. by split.
Qed.

Lemma nonGraphSearch_word_lists_only_witness :
  engine_ok st_catdog /\
  "CAT" ∈ (nonGraphSearch 15 st_catdog "L"
             {| conjunction := false; conditions := [cond InWordList "CAT DOG"] |}).1.
Proof.
  assert (Hok : engine_ok st_catdog) by (apply (bool_decide_unpack _); vm_compute; reflexivity).
  assert (Hnd : NoDup (map fst (db_table db_catdog)))
    by (apply (bool_decide_unpack _); vm_compute; reflexivity).
  split; [exact Hok|].
  destruct (nonGraphSearch_word_lists_only 15 st_catdog "L"
              {| conjunction := false; conditions := [cond InWordList "CAT DOG"] |}
              (lexWith ["CAT"; "DOG"] (Some db_catdog)) db_catdog
              ltac:(lia) eq_refl ltac:(repeat constructor) Hok eq_refl eq_refl eq_refl Hnd)
    as [Hmem _].
  apply Hmem. split; [split; [vm_compute; reflexivity|]|].
  - exists (cond InWordList "CAT DOG"). split; [by left|]. vm_compute. tauto.
  - vm_compute. split; discriminate.
Defined.

(** ** Stem import *)

Lemma simplified_head (raw rest : string) (c : ascii) :
  Str.simplified raw = String c rest -> Str.is_space c = false.
Proof.
  unfold Str.simplified. induction raw as [|c' raw IH]; simpl; [discriminate|].
  destruct (Str.is_space c') eqn:E; [exact IH|]. by intros [= <- _].
Qed.

(** The loop of [importStems]: the length is that of the first stem (or
    the one given), and the stems of that length are kept in file order. *)
Lemma importStems_go_spec (lines words : list string) (alphas : gset string) (imported : Z)
    (len : nat) :
  let L := if (len =? 0)%nat then match stem_words lines with [] => 0%nat
                                   | w :: _ => String.length w end
           else len in
  let F := filter (fun w => String.length w = L) (stem_words lines) in
  importStems_go lines words alphas imported len
  = (words ++ F, alphas ∪ list_to_set (map getAlphagram F), imported + Z.of_nat (length F), L).
Proof.
  revert words alphas imported len.
  induction lines as [|raw ls IH]; intros words alphas imported len L F; subst L F; simpl.
  - rewrite app_nil_r, union_empty_r_L, Z.add_0_r. by destruct (len =? 0)%nat eqn:E;
      [apply Nat.eqb_eq in E as ->|].
  - unfold stem_words, stem_line in *. simpl.
    destruct (Str.simplified raw) as [|c rest] eqn:Hs; simpl; [apply IH|].
    destruct (Ascii.eqb c "#"); simpl; [apply IH|].
    pose proof (simplified_head _ _ _ Hs) as Hc.
    assert (Hc' : Ascii.eqb c " " = false) by
      (destruct (Ascii.eqb c " ") eqn:E; [apply Ascii.eqb_eq in E as ->; discriminate|done]).
    rewrite Hc'.
    set (w := String c (Str.section0 rest)).
    set (len' := if (len =? 0)%nat then String.length w else len).
    assert (Hl' : (len' =? 0)%nat = false) by
      (apply Nat.eqb_neq; unfold len'; destruct (len =? 0)%nat eqn:E;
       [simpl; lia|apply Nat.eqb_neq in E; done]).
    destruct (len' =? String.length w)%nat eqn:Ew; simpl.
    + apply Nat.eqb_eq in Ew. rewrite IH, Hl'. rewrite filter_cons.
      rewrite decide_True by done. simpl.
      f_equal. f_equal; [f_equal; [by rewrite <- app_assoc|set_solver]|lia].
    + apply Nat.eqb_neq in Ew. rewrite IH, Hl'. rewrite filter_cons.
      rewrite decide_False by done. done.
Qed.

(** [importStems] on a loaded lexicon: with a file that cannot be opened it
    returns -1 and changes nothing. Otherwise the length of the stems is the
    length of the first stem of the file; the stems of that length are
    appended, in file order, to the lexicon's stems of that length, their
    alphagrams are added to its stem alphagrams, and their number is
    returned; stems of other lengths are skipped, the stem lists of other
    lengths and the rest of the lexicon are kept. On a lexicon that is not
    loaded it returns 0 and changes nothing. *)
Theorem importStems_spec (lex : string) (lines : list string) (st : Engine) :
  (st !! lex = None -> forall f, importStems lex f st = (0, st)) /\
  forall ld, st !! lex = Some ld ->
  importStems lex None st = (-1, st) /\
  let len := match stem_words lines with [] => 0%nat | w :: _ => String.length w end in
  let F := filter (fun w => String.length w = len) (stem_words lines) in
  exists ld',
    importStems lex (Some lines) st = (Z.of_nat (length F), <[lex := ld']> st) /\
    stems ld' !! len = Some (default [] (stems ld !! len) ++ F) /\
    (forall n, n <> len -> stems ld' !! n = stems ld !! n) /\
    (forall a, a ∈ default ∅ (stemAlphagrams ld' !! len) <->
               a ∈ default ∅ (stemAlphagrams ld !! len) \/ exists w, In w F /\ getAlphagram w = a) /\
    (forall n, n <> len -> stemAlphagrams ld' !! n = stemAlphagrams ld !! n) /\
    graph ld' = graph ld /\ db ld' = db ld /\ wordCache ld' = wordCache ld /\
    numAnagramsMap ld' = numAnagramsMap ld.
Proof.
  split; [intros Hl f; unfold importStems; by rewrite Hl|].
  intros ld Hl. unfold importStems. rewrite Hl. split; [done|].
  pose proof (importStems_go_spec lines [] ∅ 0 0) as Hgo. cbv zeta in Hgo.
  cbn [Nat.eqb app] in Hgo.
  set (len := match stem_words lines with [] => 0%nat | w :: _ => String.length w end) in *.
  set (F := filter (fun w => String.length w = len) (stem_words lines)) in *.
  rewrite Hgo, Z.add_0_l. eexists. split; [reflexivity|].
  cbn [stems stemAlphagrams graph db wordCache numAnagramsMap].
  split; [by rewrite lookup_insert_eq|].
  split; [intros n Hn; by rewrite lookup_insert_ne by congruence|].
  split.
  { intros a. rewrite lookup_insert_eq. cbn [default]. unfold id.
    rewrite union_empty_l_L, elem_of_union, elem_of_list_to_set, list_elem_of_In, in_map_iff.
    firstorder. }
  split; [intros n Hn; by rewrite lookup_insert_ne by congruence|]. done.
Qed.

Lemma importStems_spec_witness :
  graphOnly !! "TEST" = Some (lexWith ["CAT"; "DOG"] None) /\
  (importStems "TEST" (Some ["# sixes"; "AEINST extra"; "ABC"; "AEINRT"]) graphOnly).1 = 2.
Proof.
  assert (H : graphOnly !! "TEST" = Some (lexWith ["CAT"; "DOG"] None)) by reflexivity.
  split; [exact H|].
  destruct (proj2 (importStems_spec "TEST" ["# sixes"; "AEINST extra"; "ABC"; "AEINRT"] graphOnly)
              _ H) as [_ (ld' & Hi & _)].
  rewrite Hi. vm_compute. reflexivity.
Defined.
